(** * A model of the MuseScore 3 parser [tools/ms3.py]

    The development follows the source file function by function: the
    helper functions ([spell_tpc], [compute_mn], [compute_repeat_structure],
    [feature_from_node], [treat_section_index], [convert_timesig],
    [get_volta_structure], [check_measure_boundaries]), the event walk of
    [Section.__init__], and the parts of [Score.__init__] and
    [Score.get_notes] that decide the section structure and the selection
    of notes.  Python exceptions are modelled by [option] or by an explicit
    result type; log records are collected in a list.

    The first part holds the definitions, one module per part of the
    source; the second part holds the facts about them, in a module
    [XFacts] for every module [X]. *)

From Stdlib Require Import ZArith QArith List String Ascii Bool Lia.
From Stdlib Require Import Permutation Sorted SpecFloat Lqa Qpower.
Import ListNotations.

Set Warnings "-register-all".
Local Open Scope Z_scope.

(* ================================================================== *)
(** * Exceptions and log records *)
(* ================================================================== *)

(** The levels of Python's [logging] module that the parser uses. *)
Inductive level := DEBUG | INFO | WARNING | ERROR | CRITICAL.

(** A log record: its level and the constant part of its message. *)
Definition record := (level * string)%type.
Definition log := list record.

(** The exceptions that the modelled code can raise. *)
Inductive exn :=
| ValueError | KeyError | IndexError | TypeError | AttributeError
| ZeroDivisionError | StopIteration | AssertionError.

(** The outcome of a call: a value, or an exception that leaves it. *)
Inductive result (A : Type) :=
| Ok (a : A)
| Raise (e : exn).
Arguments Ok {A} a.
Arguments Raise {A} e.

Definition bind {A B : Type} (r : result A) (k : A -> result B) : result B :=
  match r with
  | Ok a => k a
  | Raise e => Raise e
  end.

Notation "x <- r ;; k" := (bind r (fun x => k))
  (at level 61, r at next level, right associativity).

Definition is_ok {A : Type} (r : result A) : bool :=
  match r with Ok _ => true | Raise _ => false end.

(** A call that logs: its outcome and the records it has written. *)
Definition M (A : Type) : Type := (result A * log)%type.

Definition ret {A : Type} (a : A) : M A := (Ok a, []).
Definition raise {A : Type} (e : exn) : M A := (Raise e, []).
Definition warning (msg : string) : M unit := (Ok tt, [(WARNING, msg)]).

Definition mbind {A B : Type} (m : M A) (k : A -> M B) : M B :=
  match m with
  | (Ok a, l) => let (r, l') := k a in (r, l ++ l')
  | (Raise e, l) => (Raise e, l)
  end.

Notation "x <~ m ;; k" := (mbind m (fun x => k))
  (at level 61, m at next level, right associativity).

(* ================================================================== *)
(** * [spell_tpc]: names of tonal pitch classes *)
(* ================================================================== *)

Module Spelling.

(** The dictionary [PITCH_NAMES]; a missing key is a [KeyError]. *)
Definition PITCH_NAMES (k : Z) : option string :=
  match k with
  | 0 => Some "F"%string
  | 1 => Some "C"%string
  | 2 => Some "G"%string
  | 3 => Some "D"%string
  | 4 => Some "A"%string
  | 5 => Some "E"%string
  | 6 => Some "B"%string
  | _ => None
  end.

Fixpoint str_repeat (s : string) (n : nat) : string :=
  match n with
  | O => EmptyString
  | S k => (s ++ str_repeat s k)%string
  end.

(** Python's [n * s] on a string: the empty string when [n <= 0]. *)
Definition py_str_mul (n : Z) (s : string) : string :=
  str_repeat s (Z.to_nat n).

(** The scalar branch of [spell_tpc].  Python's [//] and [%] with a
    positive divisor are [Z.div] and [Z.modulo]. *)
Definition spell_tpc (tpc : Z) : option string :=
  let tpc := tpc + 1 in
  let acc :=
    if tpc <? 0 then py_str_mul (Z.abs (tpc / 7)) "b"
    else py_str_mul (tpc / 7) "#" in
  match PITCH_NAMES (tpc mod 7) with
  | Some name => Some (name ++ acc)%string
  | None => None
  end.

(** The rule as the specification words it: the name is taken from the
    list of seven letters at [(tpc+1) mod 7]; the accidentals are chosen by
    the sign of the quotient [(tpc+1) // 7]. *)
Definition names : list string :=
  ["F"; "C"; "G"; "D"; "A"; "E"; "B"]%string.

Definition spelled (tpc : Z) : string :=
  let t := tpc + 1 in
  let q := t / 7 in
  String.append
    (nth (Z.to_nat (t mod 7)) names EmptyString)
    (if 0 <=? q then str_repeat "#" (Z.to_nat q)
     else str_repeat "b" (Z.to_nat (Z.abs q))).

End Spelling.

(* ================================================================== *)
(** * [feature_from_node]: typed values of measure-level tags *)
(* ================================================================== *)

Module Features.

(** What [feature_from_node] reads of an XML element.  [int_text] is
    [int(node.string)] ([None] when Python's [int] raises), [sigN] and
    [sigD] are the strings of the children of a [TimeSig], [subtype] the
    string of a [subtype] child.  For a [Volta], [next_location] is the
    [location] element of the first following [next] element; of it the
    code asks whether it has a [fractions] descendant and what integer its
    [measures] descendant holds, if there is one. *)
Record location := mk_location {
  has_fractions : bool;
  measures : option Z
}.

Record node := mk_node {
  int_text : option Z;
  sigN : option string;
  sigD : option string;
  subtype : option string;
  next_location : option location
}.

(** The values the function returns: an integer, a string, or [None]. *)
Inductive feature :=
| FInt (z : Z)
| FStr (s : string)
| FNone.

(** [convert_timesig] on an element named [TimeSig], the only branch
    that is reached from [feature_from_node]. *)
Definition convert_timesig (nd : node) : result feature * log :=
  match sigN nd with
  | None => (Ok FNone, [(ERROR, "TimeSig tag has no sigN tag."%string)])
  | Some N =>
      match sigD nd with
      | None => (Ok FNone, [(ERROR, "TimeSig tag has no sigD tag."%string)])
      | Some D => (Ok (FStr (N ++ "/" ++ D)%string), [])
      end
  end.

(** The branch for [Volta]. *)
Definition volta_feature (nd : node) : result feature * log :=
  match next_location nd with
  | None => (Raise AttributeError, [])
  | Some loc =>
      let val := if has_fractions loc then 1 else 0 in
      let val :=
        match measures loc with
        | Some m => val + m
        | None => val
        end in
      (Ok (FInt val),
       if val =? 0 then [(ERROR, "Length of volta not specified."%string)]
       else [])
  end.

Definition mem_string (s : string) (l : list string) : bool :=
  existsb (String.eqb s) l.

Definition feature_from_node (tag : string) (nodes : list node)
  : result feature * log :=
  match nodes with
  | [] => (Ok FNone, [(ERROR, "Got empty node list."%string)])
  | nd :: others =>
      let warn :=
        if (1 <? Z.of_nat (List.length nodes)) && negb (String.eqb tag "voice")
        then [(WARNING, "several nodes in one <Measure>."%string)]
        else [] in
      if String.eqb tag "voice" then (Ok (FInt (Z.of_nat (List.length nodes))), warn)
      else if mem_string tag ["accidental"; "noOffset"; "irregular"]%string then
        match int_text nd with
        | Some z => (Ok (FInt z), warn)
        | None => (Ok FNone, warn)
        end
      else if String.eqb tag "TimeSig" then
        let (r, l) := convert_timesig nd in (r, warn ++ l)
      else if mem_string tag ["endRepeat"; "startRepeat"]%string then
        (Ok (FStr tag), warn)
      else if String.eqb tag "Volta" then
        let (r, l) := volta_feature nd in (r, warn ++ l)
      else if String.eqb tag "BarLine" then
        (Ok (FStr match subtype nd with Some s => s | None => "other"%string end),
         warn)
      else (Ok FNone, warn ++ [(ERROR, "Treatment of tag not implemented."%string)])
  end.

(** A [Volta] element whose [location] holds the given children. *)
Definition volta_node (loc : location) : node :=
  mk_node None None None None (Some loc).

(** The length as the specification words it: 0 when only [fractions] is
    there, the integer of [measures] otherwise. *)
Definition stated_length (loc : location) : Z :=
  match measures loc with
  | Some m => m
  | None => 0
  end.

(** The length the code computes. *)
Definition volta_length (loc : location) : Z :=
  (if has_fractions loc then 1 else 0)
  + match measures loc with Some m => m | None => 0 end.

End Features.

(* ================================================================== *)
(** * Columns of a data frame *)
(* ================================================================== *)

Module Series.

(** A column with the default index 0, 1, ...; [None] is [NaN]. *)
Definition series (A : Type) := list (option A).

(** [range(start, start + count)]. *)
Fixpoint range (start : Z) (count : nat) : list Z :=
  match count with
  | O => []
  | S k => start :: range (start + 1) k
  end.

Definition isna {A : Type} (x : option A) : bool :=
  match x with None => true | Some _ => false end.

Definition notna {A : Type} (x : option A) : bool := negb (isna x).

(** [ix[mask]]: the labels, counted from [start], at which the mask holds. *)
Fixpoint labels_where (start : Z) (mask : list bool) : list Z :=
  match mask with
  | [] => []
  | b :: rest =>
      if b then start :: labels_where (start + 1) rest
      else labels_where (start + 1) rest
  end.

(** A series with an explicit index, as pairs of label and value. *)
Fixpoint lookup {A : Type} (label : Z) (s : list (Z * A)) : option A :=
  match s with
  | [] => None
  | (k, v) :: rest => if k =? label then Some v else lookup label rest
  end.

(** [s.reindex(ix)]: the value at each label of [ix], [NaN] where the
    series has none. *)
Definition reindex {A : Type} (ix : list Z) (s : list (Z * A)) : series A :=
  map (fun label => lookup label s) ix.

(** [s.fillna(method='ffill')], carrying the last valid value. *)
Fixpoint ffill_from {A : Type} (last : option A) (s : series A) : series A :=
  match s with
  | [] => []
  | Some v :: rest => Some v :: ffill_from (Some v) rest
  | None :: rest => last :: ffill_from last rest
  end.

Definition ffill {A : Type} (s : series A) : series A := ffill_from None s.

(** [s.cumsum()]: [NaN] entries are skipped and stay [NaN]. *)
Fixpoint cumsum_from (acc : Z) (s : series Z) : series Z :=
  match s with
  | [] => []
  | Some v :: rest => Some (acc + v) :: cumsum_from (acc + v) rest
  | None :: rest => None :: cumsum_from acc rest
  end.

Definition cumsum (s : series Z) : series Z := cumsum_from 0 s.

(** [a + b] on two series with the same index. *)
Fixpoint add (a b : series Z) : series Z :=
  match a, b with
  | x :: a', y :: b' =>
      match x, y with
      | Some u, Some v => Some (u + v)
      | _, _ => None
      end :: add a' b'
  | _, _ => []
  end.

(** [s.astype('int')]: a [NaN] cannot be converted. *)
Fixpoint astype_int (s : series Z) : result (list Z) :=
  match s with
  | [] => Ok []
  | Some v :: rest => l <- astype_int rest ;; Ok (v :: l)
  | None :: rest => Raise ValueError
  end.

End Series.

(* ================================================================== *)
(** * [compute_mn]: measure numbers *)
(* ================================================================== *)

Module MeasureNumbers.
Import Series.

(** The argument of [compute_mn]: a series of exclusion marks, or a frame
    whose first column holds them and whose second column, if there is
    one, holds the offsets ("add to bar count").  The index is the
    measure count 0, 1, ... *)
Inductive frame :=
| OneColumn (excluded : series Z)
| TwoColumns (rows : list (option Z * option Z)).

Definition excluded_of (df : frame) : series Z :=
  match df with
  | OneColumn e => e
  | TwoColumns rows => map fst rows
  end.

Definition offset_of (df : frame) : option (series Z) :=
  match df with
  | OneColumn _ => None
  | TwoColumns rows => Some (map snd rows)
  end.

(** [check_mn]: descending numbers and numbering gaps are logged. *)
Fixpoint descending (prev : Z) (mn : list Z) : bool :=
  match mn with
  | [] => false
  | x :: rest => (x <? prev) || descending x rest
  end.

Definition highest (mn : list Z) : Z :=
  match mn with
  | [] => 0
  | x :: rest => fold_left Z.max rest x
  end.

Definition missing (mn : list Z) : list Z :=
  filter (fun i => negb (existsb (Z.eqb i) mn))
         (range 1 (Z.to_nat (highest mn - 1))).

Definition check_mn (mn : list Z) : log :=
  (match mn with
   | x :: rest =>
       if descending x rest
       then [(ERROR, "Score contains descending barnumbers."%string)]
       else []
   | [] => []
   end)
  ++ (match missing mn with
      | [] => []
      | _ => [(ERROR, "The score has a numbering gap."%string)]
      end).

(** [if isnan(s[0]): s[0] = 0].  The label 0 is looked up, which an
    empty series does not have. *)
Definition fill_first (s : series Z) : result (series Z) :=
  match s with
  | [] => Raise KeyError
  | None :: rest => Ok (Some 0 :: rest)
  | Some _ :: _ => Ok s
  end.

Definition compute_mn (df : frame) : result (list Z * log) :=
  let excluded := excluded_of df in
  let offset := offset_of df in
  let ix := range 0 (List.length excluded) in
  let regular_ix := labels_where 0 (map isna excluded) in
  let mn := combine regular_ix (range 1 (List.length regular_ix)) in
  let mn := reindex ix mn in
  mn <- fill_first mn ;;
  let mn := ffill mn in
  mn <- match offset with
        | Some off =>
            if existsb notna off then
              off <- fill_first off ;;
              Ok (add mn (ffill (cumsum off)))
            else Ok mn
        | None => Ok mn
        end ;;
  mn <- astype_int mn ;;
  Ok (mn, check_mn mn).

(** The numbering in the words of the specification.  The rows counted
    are those whose exclusion mark is none; the offsets are those given,
    none counting as 0. *)
Definition regular_upto (excluded : series Z) (i : nat) : Z :=
  Z.of_nat (List.length (filter isna (firstn (S i) excluded))).

Definition offset_value (o : option Z) : Z :=
  match o with Some v => v | None => 0 end.

Definition offsets_upto (offset : option (series Z)) (i : nat) : Z :=
  match offset with
  | Some off => fold_right Z.add 0 (map offset_value (firstn (S i) off))
  | None => 0
  end.

(** The same numbering as one pass with a running count and a running
    sum of offsets. *)
Fixpoint numbering (count sum : Z) (rows : list (option Z * option Z))
  : list Z :=
  match rows with
  | [] => []
  | (e, o) :: rest =>
      let count := if isna e then count + 1 else count in
      let sum := sum + offset_value o in
      (count + sum) :: numbering count sum rest
  end.

Definition rows_of (df : frame) : list (option Z * option Z) :=
  match df with
  | OneColumn e => map (fun x => (x, None)) e
  | TwoColumns rows => rows
  end.

(** ** The columns in closed form *)

(** The numbers of the regular rows before forward-filling. *)
Fixpoint number_from (c : Z) (e : series Z) : series Z :=
  match e with
  | [] => []
  | x :: rest =>
      if isna x then Some c :: number_from (c + 1) rest
      else None :: number_from c rest
  end.

Fixpoint count_run (c : Z) (e : series Z) : list Z :=
  match e with
  | [] => []
  | x :: rest =>
      let c := if isna x then c + 1 else c in
      c :: count_run c rest
  end.

Fixpoint sum_run (s : Z) (off : series Z) : list Z :=
  match off with
  | [] => []
  | o :: rest =>
      let s := s + offset_value o in
      s :: sum_run s rest
  end.

(** The example of the docstring of [compute_mn]: a second measure that
    is excluded and an offset of -1 on the fourth. *)
Definition docstring_frame : frame :=
  TwoColumns [(None, None); (Some 1, None); (None, None);
              (None, Some (-1)); (None, None)].

End MeasureNumbers.

(* ================================================================== *)
(** * [compute_repeat_structure]: repeated spans *)
(* ================================================================== *)

Module RepeatStructure.
Import Series.

(** The values of the column [repeats]. *)
Inductive mark :=
| startRepeat | endRepeat | firstMeasure | lastMeasure | newSection.

Definition mark_eqb (a b : mark) : bool :=
  match a, b with
  | startRepeat, startRepeat | endRepeat, endRepeat
  | firstMeasure, firstMeasure | lastMeasure, lastMeasure
  | newSection, newSection => true
  | _, _ => false
  end.

(** A row of the frame after [reset_index()]: its new label (the
    position in the argument), the measure count that was its index, and
    the two columns. *)
Record row := mk_row {
  label : Z;
  mc : Z;
  repeats : option mark;
  volta : option Z
}.

(** [x == m] on a cell of the column [repeats]; false on [NaN]. *)
Definition has_mark (m : mark) (r : row) : bool :=
  match repeats r with
  | Some m' => mark_eqb m' m
  | None => false
  end.

Definition is_start (r : row) : bool := has_mark startRepeat r.

(** The argument: for each row, its index value and the two columns. *)
Definition table := list (Z * option mark * option Z).

Fixpoint reset_index (start : Z) (t : table) : list row :=
  match t with
  | [] => []
  | (m, rep, v) :: rest => mk_row start m rep v :: reset_index (start + 1) rest
  end.

(** The rows with a repeat mark or a volta; a last row that is a bare
    [lastMeasure] is left out.  [df.iloc[-1]] raises on an empty frame. *)
Definition considered (t : table) : result (list row) :=
  let df := filter (fun r => notna (repeats r) || notna (volta r))
                   (reset_index 0 t) in
  match df with
  | [] => Raise IndexError
  | first :: rest =>
      let last_row := last rest first in
      if has_mark lastMeasure last_row && isna (volta last_row)
      then Ok (removelast df)
      else Ok df
  end.

(** The row at which the loop
    [while i < len(df)-1 and isnan(df.iloc[i,1]): i += 1] stops, among
    the rows after the first. *)
Fixpoint first_marked (r : row) (rest : list row) : row :=
  match rest with
  | [] => r
  | r' :: rest' => if isna (repeats r) then first_marked r' rest' else r
  end.

Definition set_repeats (m : mark) (r : row) : row :=
  mk_row (label r) (mc r) (Some m) (volta r).

(** [df.drop(index=0)]: the label 0 has to be there. *)
Definition drop_label_0 (df : list row) : result (list row) :=
  if existsb (fun r => label r =? 0) df
  then Ok (filter (fun r => negb (label r =? 0)) df)
  else Raise KeyError.

(** A first row marked [firstMeasure] becomes a [startRepeat] when the
    next mark is an [endRepeat]; otherwise it is dropped. *)
Definition implicit_start (df : list row) : result (list row) :=
  match df with
  | [] => Raise IndexError
  | first :: rest =>
      if has_mark firstMeasure first then
        match rest with
        | [] => Raise IndexError
        | r :: rest' =>
            if has_mark endRepeat (first_marked r rest')
            then Ok (set_repeats startRepeat first :: rest)
            else drop_label_0 df
        end
      else Ok df
  end.

(** [s.shift(-1)]: every value moves one row up. *)
Definition shift_back {A : Type} (s : series A) : series A :=
  match s with
  | [] => []
  | _ :: rest => rest ++ [None]
  end.

(** [s.iloc[-1] = v]. *)
Definition set_last {A : Type} (v : A) (s : series A) : result (series A) :=
  match s with
  | [] => Raise IndexError
  | _ => Ok (removelast s ++ [Some v])
  end.

(** [values[mask]] for a mask without [NaN]. *)
Fixpoint select (values : list Z) (mask : list bool) : list Z :=
  match values, mask with
  | v :: values', b :: mask' =>
      if b then v :: select values' mask' else select values' mask'
  | _, _ => []
  end.

(** [values[mask]] for a mask of dtype [object]: a [NaN] in it raises. *)
Fixpoint mask_of (s : series bool) : result (list bool) :=
  match s with
  | [] => Ok []
  | Some b :: rest => m <- mask_of rest ;; Ok (b :: m)
  | None :: rest => Raise ValueError
  end.

(** The last six lines of the function. *)
Definition pair_up (df : list row) : result (list (Z * Z)) :=
  let startRepeats := map is_start df in
  let start_mcs := select (map mc df) startRepeats in
  endRepeats <- set_last true (shift_back (map Some startRepeats)) ;;
  endRepeats <- mask_of endRepeats ;;
  let end_mcs := select (map mc df) endRepeats in
  Ok (combine start_mcs end_mcs).

Definition compute_repeat_structure (t : table) : result (list (Z * Z)) :=
  df <- considered t ;;
  if (List.length df =? 1)%nat then Ok []
  else
    df <- implicit_start df ;;
    pair_up df.

(** ** The pairing in the words of the specification *)

(** The measure count of the nearest [endRepeat] among the rows that
    follow. *)
Fixpoint nearest_endRepeat (rest : list row) : option Z :=
  match rest with
  | [] => None
  | r :: rest' =>
      if has_mark endRepeat r then Some (mc r) else nearest_endRepeat rest'
  end.

(** Every [startRepeat] with the nearest [endRepeat] after it; the
    pair of the final [startRepeat] is closed by the last considered
    row (as is a pair for which no [endRepeat] follows). *)
Fixpoint stated_pairs (df : list row) : list (Z * Z) :=
  match df with
  | [] => []
  | r :: rest =>
      if is_start r then
        (mc r,
         if existsb is_start rest then
           match nearest_endRepeat rest with
           | Some e => e
           | None => mc (last rest r)
           end
         else mc (last rest r)) :: stated_pairs rest
      else stated_pairs rest
  end.

(** ** The pairing the code computes *)

(** A block: a [startRepeat] row and the considered rows after it up to
    the next [startRepeat]. *)
Definition block (b : list row) : Prop :=
  exists h t, b = h :: t /\ is_start h = true
              /\ forallb (fun r => negb (is_start r)) t = true.

(** The first and the last measure count of a block. *)
Definition ends (b : list row) : Z * Z :=
  match b with
  | [] => (0, 0)
  | h :: t => (mc h, mc (last t h))
  end.

(** The example of the docstring. *)
Definition docstring_table : table :=
  [(0, Some firstMeasure, None);
   (16, None, Some 1);
   (17, Some endRepeat, Some 1);
   (18, None, Some 2);
   (19, Some startRepeat, None);
   (23, Some endRepeat, Some 1);
   (24, Some endRepeat, Some 2);
   (25, None, Some 3);
   (31, Some startRepeat, None);
   (39, Some endRepeat, Some 1);
   (40, None, Some 2)].

(** ** The rows that end a pair *)

(** The mask of the end rows, read off the rows: a row ends a pair when
    the next row is a [startRepeat] or when it is the last row. *)
Fixpoint end_mask (df : list row) : list bool :=
  match df with
  | [] => []
  | r :: rest =>
      match rest with
      | [] => [true]
      | r' :: _ => is_start r' :: end_mask rest
      end
  end.

(** The labels that [reset_index] gives ascend from 0; filtering and
    dropping the last row keep that. *)
Definition labelled (df : list row) : Prop :=
  StronglySorted (fun a b => label a < label b) df
  /\ Forall (fun r => 0 <= label r) df.

(** Steps 1 and 2 together: the rows that are paired up. *)
Definition paired_rows (t : table) : result (list row) :=
  df <- considered t ;; implicit_start df.

Definition docstring_blocks : list (list row) :=
  [[mk_row 0 0 (Some startRepeat) None; mk_row 1 16 None (Some 1);
    mk_row 2 17 (Some endRepeat) (Some 1); mk_row 3 18 None (Some 2)];
   [mk_row 4 19 (Some startRepeat) None; mk_row 5 23 (Some endRepeat) (Some 1);
    mk_row 6 24 (Some endRepeat) (Some 2); mk_row 7 25 None (Some 3)];
   [mk_row 8 31 (Some startRepeat) None; mk_row 9 39 (Some endRepeat) (Some 1);
    mk_row 10 40 None (Some 2)]].

(** ** Pairs in ascending order *)

(** Pairs that follow one another: every pair begins after [lo], ends
    no earlier than it begins, and the next pair begins after its end. *)
Fixpoint ascending_pairs (lo : Z) (pairs : list (Z * Z)) : Prop :=
  match pairs with
  | [] => True
  | (fro, to) :: rest => lo < fro /\ fro <= to /\ ascending_pairs to rest
  end.

End RepeatStructure.

(* ================================================================== *)
(** * [Score.__init__]: the frames of the staves *)
(* ================================================================== *)

Module Staves.
Import Series.

(** The values of the cells of [self.mc_info[staff_id]]. *)
Inductive value :=
| VInt (z : Z)
| VStr (s : string)
| VFrac (q : Q).

Definition value_eqb (a b : value) : bool :=
  match a, b with
  | VInt x, VInt y => x =? y
  | VStr x, VStr y => String.eqb x y
  | VFrac x, VFrac y => Qeq_bool x y
  | VInt x, VFrac y | VFrac y, VInt x => Qeq_bool (inject_Z x) y
  | _, _ => false
  end.

(** A row of the frame of a staff holds the cells that were extracted
    for the measure; the other cells are [NaN].  The index of the frame
    is the measure count. *)
Definition row : Type := list (string * value).
Definition frame : Type := list row.

Definition cols : list string :=
  ["keysig"; "timesig"; "act_dur"; "voices"; "repeats"; "volta"; "barline";
   "numbering_offset"; "dont_count"]%string.

Fixpoint cell_at (r : row) (col : string) : option value :=
  match r with
  | [] => None
  | (k, v) :: rest => if String.eqb k col then Some v else cell_at rest col
  end.

(** [df[col]]. *)
Definition column (col : string) (df : frame) : series value :=
  map (fun r => cell_at r col) df.

(** [a == b] on two cells, and the equality that takes two [NaN] for
    equal. *)
Definition cell_eqb (x y : option value) : bool :=
  match x, y with
  | Some a, Some b => value_eqb a b
  | _, _ => false
  end.

Definition nan_cell_eqb (x y : option value) : bool :=
  cell_eqb x y || (isna x && isna y).

Fixpoint all2 {A : Type} (f : A -> A -> bool) (a b : list A) : bool :=
  match a, b with
  | [], [] => true
  | x :: a', y :: b' => f x y && all2 f a' b'
  | _, _ => false
  end.

(** [c1.equals(c)]: false for series of different length. *)
Definition equals (c1 c : series value) : bool := all2 nan_cell_eqb c1 c.

(** [nan_eq(a, b)] on two series: the comparison [a == b] raises
    [ValueError] when the series are not labelled identically, that is,
    when their lengths differ. *)
Definition nan_eq (a b : series value) : result (list bool) :=
  if (List.length a =? List.length b)%nat
  then Ok (map (fun xy => nan_cell_eqb (fst xy) (snd xy)) (combine a b))
  else Raise ValueError.

(** One turn of the inner loop: the values of a lower staff that the
    first staff does not have are reported. *)
Definition compare (c1 c : series value) : M unit :=
  if equals c1 c then ret tt
  else
    same <~ (nan_eq c1 c, []) ;;
    if existsb (fun cs => negb (snd cs) && notna (fst cs)) (combine c same)
    then warning "These values are not included in mc_info[1]."
    else ret tt.

Fixpoint compare_all (c1 : series value) (others : list (series value))
  : M unit :=
  match others with
  | [] => ret tt
  | c :: rest => _ <~ compare c1 c ;; compare_all c1 rest
  end.

Fixpoint check_columns (frames : list frame) (columns : list string)
  : M unit :=
  match columns with
  | [] => ret tt
  | col :: rest =>
      _ <~ (if String.eqb col "voices" then ret tt
            else
              match map (column col) frames with
              | [] => raise IndexError
              | c1 :: others => compare_all c1 others
              end) ;;
      check_columns frames rest
  end.

Fixpoint staff (id : Z) (mc_info : list (Z * frame)) : result frame :=
  match mc_info with
  | [] => Raise KeyError
  | (k, df) :: rest => if k =? id then Ok df else staff id rest
  end.

Definition different_counts : record :=
  (ERROR, "Staves have different measure counts."%string).

(** The part of [Score.__init__] that follows the extraction of the
    frames of the staves, which are given in the order of the dictionary
    [self.mc_info]: the check of the measure counts, [self.last_node],
    and the comparison of every column except [voices] with that of the
    first staff.  It returns [self.last_node]. *)
Definition check_staves (mc_info : list (Z * frame)) : M Z :=
  let mcs := nodup Nat.eq_dec (map (fun kv => List.length (snd kv)) mc_info) in
  _ <~ (if (1 <? List.length mcs)%nat
        then (Ok tt, [different_counts]) else ret tt) ;;
  staff1 <~ (staff 1 mc_info, []) ;;
  last_node <~ match staff1 with
               | [] => raise ValueError
               | _ => ret (Z.of_nat (List.length staff1) - 1)
               end ;;
  _ <~ check_columns (map snd mc_info) cols ;;
  ret last_node.

(** Two staves, of two measures and of one measure. *)
Definition uneven_staves : list (Z * frame) :=
  [(1, [[("timesig"%string, VStr "4/4"); ("voices"%string, VInt 1)];
        [("voices"%string, VInt 1)]]);
   (2, [[("timesig"%string, VStr "4/4"); ("voices"%string, VInt 1)]])].

End Staves.

(* ================================================================== *)
(** * [Score.__init__]: sections of the score *)
(* ================================================================== *)

Module Sections.
Import Series RepeatStructure.

(** The columns of the master frame [self.info] that the section
    structure is computed from.  The index is the measure count, which is
    the position of the row. *)
Record info_row := mk_info_row {
  info_repeats : option mark;
  info_volta : option Z;
  info_barline : option string
}.

Definition frame := list info_row.

(** The rows of a frame with their index, counted from [start]. *)
Fixpoint indexed {A : Type} (start : Z) (l : list A) : list (Z * A) :=
  match l with
  | [] => []
  | x :: rest => (start, x) :: indexed (start + 1) rest
  end.

(** [self.info[['repeats', 'volta']]], the argument of
    [compute_repeat_structure]. *)
Definition repeats_volta (info : frame) : table :=
  map (fun ir => (fst ir, info_repeats (snd ir), info_volta (snd ir)))
      (indexed 0 info).

(** [sorted] on integers. *)
Fixpoint insert (x : Z) (l : list Z) : list Z :=
  match l with
  | [] => [x]
  | y :: rest => if x <=? y then x :: l else y :: insert x rest
  end.

Definition sorted (l : list Z) : list Z := fold_right insert [] l.

(** The loop [for i in range(len(l) // 2): l[2*i], l[2*i+1]]. *)
Fixpoint pairs_of {A : Type} (l : list A) : list (A * A) :=
  match l with
  | a :: b :: rest => (a, b) :: pairs_of rest
  | _ => []
  end.

Definition mark_name (m : mark) : string :=
  match m with
  | startRepeat => "startRepeat"
  | endRepeat => "endRepeat"
  | firstMeasure => "firstMeasure"
  | lastMeasure => "lastMeasure"
  | newSection => "newSection"
  end.

(** A [Section] object, without its notes. *)
Record section := mk_section {
  first_mc : Z;
  last_mc : Z;
  index : Z;
  repeated : bool;
  start_break : string;
  end_break : string;
  subsection_of : option Z
}.

(** The attributes of the score that [create_section] updates, and its
    non-local variable [last_to].  The counters [section_counter] and
    [super_counter] are the sizes of the two dictionaries. *)
Record state := mk_state {
  sections : list section;
  section_structure : list (Z * Z);
  section_order : list Z;
  super_sections : list (list Z);
  super_section_order : list Z;
  last_to : Z
}.

Definition initial : state := mk_state [] [] [] [] [] (-1).

(** [self.info.repeats[mc]]: the label has to be in the index. *)
Definition repeats_at (info : frame) (mc : Z) : result (option mark) :=
  if (0 <=? mc) && (mc <? Z.of_nat (List.length info)) then
    Ok (info_repeats (nth (Z.to_nat mc) info (mk_info_row None None None)))
  else Raise KeyError.

(** The rows of [self.info.loc[fro+1:to-1]] whose barline is one of the
    separating ones, with their measure counts. *)
Definition split_rows (info : frame) (separating_barlines : list string)
  (fro to : Z) : list (Z * string) :=
  flat_map
    (fun ir =>
       if (fro + 1 <=? fst ir) && (fst ir <=? to - 1) then
         match info_barline (snd ir) with
         | Some b =>
             if Features.mem_string b separating_barlines then [(fst ir, b)]
             else []
         | None => []
         end
       else [])
    (indexed 0 info).

(** The boundaries of the sections that one call creates. *)
Definition subsection_ranges (info : frame) (separating_barlines : list string)
  (fro to : Z) : list (Z * Z) :=
  match split_rows info separating_barlines fro to with
  | [] => [(fro, to)]
  | splits =>
      let split_mcs := map fst splits in
      pairs_of (sorted ([fro; to] ++ split_mcs
                        ++ map (fun i => i + 1) split_mcs))
  end.

(** What causes the breaks at either side of them. *)
Definition subsection_reasons (info : frame) (separating_barlines : list string)
  (fro to : Z) (start_reason end_reason : string) : list (string * string) :=
  match split_rows info separating_barlines fro to with
  | [] => [(start_reason, end_reason)]
  | splits =>
      let boundaries := map (fun s => (snd s ++ "_barline")%string) splits in
      pairs_of ([start_reason]
                ++ flat_map (fun reason => [reason; reason]) boundaries
                ++ [end_reason])
  end.

(** [l * (repeated + 1)]. *)
Definition played {A : Type} (rep : bool) (l : list A) : list A :=
  if rep then l ++ l else l.

Definition create_section (info : frame) (separating_barlines : list string)
  (fro to : Z) (rep : bool) (st : state) : result state :=
  rep_fro <- repeats_at info fro ;;
  rep_to <- repeats_at info to ;;
  let start_reason :=
    match rep_fro with
    | None => if rep then "startRepeat"%string else "startNormal"%string
    | Some m => mark_name m
    end in
  let end_reason :=
    match rep_to with
    | None => if rep then "endRepeat"%string else "endNormal"%string
    | Some m => mark_name m
    end in
  let section_counter := Z.of_nat (List.length (section_structure st)) in
  let super_counter := Z.of_nat (List.length (super_sections st)) in
  let ranges := subsection_ranges info separating_barlines fro to in
  let reasons :=
    subsection_reasons info separating_barlines fro to start_reason end_reason in
  let subsections := range section_counter (List.length ranges) in
  let sub_of := if (1 <? Z.of_nat (List.length subsections))
                then Some super_counter else None in
  let created :=
    map (fun x =>
           mk_section (fst (snd (fst x))) (snd (snd (fst x))) (fst (fst x))
                      rep (fst (snd x)) (snd (snd x)) sub_of)
        (combine (combine subsections ranges) reasons) in
  Ok (mk_state (sections st ++ created)
               (section_structure st ++ ranges)
               (section_order st ++ played rep subsections)
               (super_sections st ++ [subsections])
               (super_section_order st ++ played rep [super_counter])
               to).

(** The loop over the repeated spans. *)
Fixpoint repeated_sections (info : frame) (separating_barlines : list string)
  (repeat_structure : list (Z * Z)) (st : state) : result state :=
  match repeat_structure with
  | [] => Ok st
  | (fro, to) :: rest =>
      st <- (if fro =? last_to st + 1 then Ok st
             else create_section info separating_barlines
                                 (last_to st + 1) (fro - 1) false st) ;;
      st <- create_section info separating_barlines fro to true st ;;
      repeated_sections info separating_barlines rest st
  end.

(** The value of the variable [to] after the loop: 0 if there are no
    repeats. *)
Definition final_to (repeat_structure : list (Z * Z)) : Z :=
  snd (last repeat_structure (0, 0)).

(** The column [section] of the master frame: the sections write their
    number over their range one after the other. *)
Fixpoint section_column (secs : list (Z * Z)) (s : Z)
  (col : list (Z * option Z)) : list (Z * option Z) :=
  match secs with
  | [] => col
  | (fro, to) :: rest =>
      section_column rest (s + 1)
        (map (fun c => (fst c,
                        if (fro <=? fst c) && (fst c <=? to) then Some s
                        else snd c))
             col)
  end.

Definition holds (s : Z) (c : Z * option Z) : bool :=
  match snd c with
  | Some s' => s' =? s
  | None => false
  end.

(** The part of [Score.__init__] from the repeat structure to the first
    and last measure numbers of the sections.  [max] of an empty index
    raises; [next(sections)] raises on an empty dictionary;
    [mns.iloc[0]] raises for a section that has no row in the column
    [section].  The notes of the sections, the voltas and the later steps
    of the constructor are not part of this function: they can only raise
    further exceptions. *)
Definition build_sections (info : frame) (separating_barlines : list string)
  : result state :=
  match info with
  | [] => Raise ValueError
  | _ =>
      let last_node := Z.of_nat (List.length info) - 1 in
      repeat_structure <- compute_repeat_structure (repeats_volta info) ;;
      st <- repeated_sections info separating_barlines repeat_structure initial ;;
      let to := final_to repeat_structure in
      st <- (if to =? last_node then Ok st
             else create_section info separating_barlines
                                 (if 0 <? to then to + 1 else 0) last_node
                                 false st) ;;
      match section_structure st with
      | [] => Raise StopIteration
      | _ =>
          let column :=
            section_column (section_structure st) 0
              (map (fun mc => (mc, None)) (range 0 (List.length info))) in
          if forallb (fun s => existsb (holds s) column)
                     (range 0 (List.length (section_structure st)))
          then Ok st
          else Raise IndexError
      end
  end.

(** A measure count lies in the inclusive range of a section. *)
Definition covers (sec : Z * Z) (mc : Z) : Prop := fst sec <= mc <= snd sec.

(** An empty row, a row with a repeat mark, a row with a barline. *)
Definition plain : info_row := mk_info_row None None None.
Definition marked (m : mark) : info_row := mk_info_row (Some m) None None.
Definition barred (b : string) : info_row := mk_info_row None None (Some b).

(** ** Ranges that tile an interval *)

(** The ranges are non-empty, the first begins at [a], each next one
    begins right after the one before it, and the last ends at [b]. *)
Fixpoint tiles (a : Z) (secs : list (Z * Z)) (b : Z) : Prop :=
  match secs with
  | [] => b = a - 1
  | sec :: rest => fst sec = a /\ a <= snd sec /\ tiles (snd sec + 1) rest b
  end.

(** ** The sections of one call of [create_section] *)

(** Split points that ascend from [lo] and stay below [hi]. *)
Fixpoint within (lo : Z) (bs : list Z) (hi : Z) : Prop :=
  match bs with
  | [] => True
  | b :: rest => lo <= b < hi /\ within (b + 1) rest hi
  end.

(** The subsections that the split points cut out of [fro .. to]. *)
Fixpoint chain (fro : Z) (bs : list Z) (to : Z) : list (Z * Z) :=
  match bs with
  | [] => [(fro, to)]
  | b :: rest => (fro, b) :: chain (b + 1) rest to
  end.

Definition interleave (bs : list Z) : list Z :=
  flat_map (fun b => [b; b + 1]) bs.

(** ** The column [section] *)

(** The number that ends up in the column at a measure count: that of
    the last section whose range holds it. *)
Fixpoint owner (secs : list (Z * Z)) (s : Z) (mc : Z) (old : option Z)
  : option Z :=
  match secs with
  | [] => old
  | (fro, to) :: rest =>
      owner rest (s + 1) mc
            (if (fro <=? mc) && (mc <=? to) then Some s else old)
  end.

(** Every section keeps a measure that no later section writes over. *)
Definition kept (secs : list (Z * Z)) : Prop :=
  forall (k : nat) (sec : Z * Z),
    nth_error secs k = Some sec ->
    exists mc, covers sec mc
               /\ forall (j : nat) (sec' : Z * Z),
                    (k < j)%nat -> nth_error secs j = Some sec' ->
                    ~ covers sec' mc.

(** A repeated section of 21 measures with a double barline at measure
    10: the constructor builds the subsections (0, 10) and (11, 20). *)
Definition separated_repeat : frame :=
  [marked firstMeasure] ++ repeat plain 9 ++ [barred "double"]
  ++ repeat plain 9 ++ [marked endRepeat].

Definition separated_repeat_score : state :=
  Eval vm_compute in
    match build_sections separated_repeat ["double"%string] with
    | Ok st => st
    | Raise _ => initial
    end.

(** ** What the dictionaries of a score have in common *)

(** The boundaries of a [Section] object, and how often it is played. *)
Definition bounds (s : section) : Z * Z := (first_mc s, last_mc s).

Definition times_played (s : section) : nat :=
  if repeated s then 2%nat else 1%nat.

(** [self.sections[k]], [self.super_sections[j]]. *)
Definition section_at (st : state) (k : Z) : option section :=
  if k <? 0 then None else nth_error (sections st) (Z.to_nat k).

Definition super_section_at (st : state) (j : Z) : list Z :=
  nth (Z.to_nat j) (super_sections st) [].

(** What the dictionaries of a score have in common. *)
Record consistent (st : state) : Prop := mk_consistent {
  numbered : map index (sections st)
             = range 0 (List.length (sections st));
  bounded : map bounds (sections st) = section_structure st;
  grouped : List.concat (super_sections st)
            = range 0 (List.length (sections st));
  expanded : section_order st
             = flat_map (super_section_at st) (super_section_order st);
  known_supers :
    Forall (fun j => 0 <= j < Z.of_nat (List.length (super_sections st)))
           (super_section_order st);
  counted : forall k,
      count_occ Z.eq_dec (section_order st) k
      = match section_at st k with
        | Some s => times_played s
        | None => 0%nat
        end;
  subsections : forall (j : nat) (group : list Z) (k : Z) (s : section),
      nth_error (super_sections st) j = Some group ->
      In k group -> section_at st k = Some s ->
      subsection_of s
      = if (1 <? List.length group)%nat then Some (Z.of_nat j) else None
}.

(** A measure without a repeat mark, a volta or a separating barline. *)
Definition unmarked (seps : list string) (r : info_row) : Prop :=
  info_repeats r = None /\ info_volta r = None
  /\ match info_barline r with
     | Some b => Features.mem_string b seps = false
     | None => True
     end.

End Sections.

(* ================================================================== *)
(** * Python numbers: [int], [Fraction] and [float] *)
(* ================================================================== *)

Module PyNum.

(** A [float] is an IEEE 754 binary64 number. *)
Definition prec : Z := 53.
Definition emax : Z := 1024.

Definition float_mul : spec_float -> spec_float -> spec_float :=
  SFmul prec emax.
Definition float_add : spec_float -> spec_float -> spec_float :=
  SFadd prec emax.

(** [float(z)] for an integer: the nearest float. *)
Definition float_of_Z (z : Z) : spec_float :=
  binary_normalize prec emax z 0 false.

(** [n / d] on integers: the float nearest to the quotient.  Division by
    zero raises. *)
Definition true_div (n d : Z) : spec_float :=
  let operand z :=
    match z with
    | Z0 => S754_zero false
    | Zpos m => S754_finite false m 0
    | Zneg m => S754_finite true m 0
    end in
  SFdiv prec emax (operand n) (operand d).

(** The rational number that a finite float is; [Fraction(x)] raises for
    the other floats, which are given the value 0 here. *)
Definition float_value (x : spec_float) : Q :=
  match x with
  | S754_finite sign m e =>
      let n := if sign then Zneg m else Zpos m in
      match e with
      | Z0 => Qred (n # 1)
      | Zpos k => Qred ((n * 2 ^ e) # 1)
      | Zneg k => Qred (n # (2 ^ k))
      end
  | _ => 0%Q
  end.

(** A number of one of the three types.  A [Fraction] is kept in lowest
    terms, as Python keeps it. *)
Inductive num :=
| Int (z : Z)
| Frac (q : Q)
| Float (x : spec_float).

(** [float(a)]. *)
Definition to_float (a : num) : spec_float :=
  match a with
  | Int z => float_of_Z z
  | Frac q => true_div (Qnum q) (Zpos (Qden q))
  | Float x => x
  end.

(** [a * b]: integers and fractions multiply exactly; a float operand
    turns the other one into a float. *)
Definition mul (a b : num) : num :=
  match a, b with
  | Int x, Int y => Int (x * y)
  | Int x, Frac q => Frac (Qred (inject_Z x * q))
  | Frac p, Int y => Frac (Qred (p * inject_Z y))
  | Frac p, Frac q => Frac (Qred (p * q))
  | _, _ => Float (float_mul (to_float a) (to_float b))
  end.

(** [a + b]. *)
Definition add (a b : num) : num :=
  match a, b with
  | Int x, Int y => Int (x + y)
  | Int x, Frac q => Frac (Qred (inject_Z x + q))
  | Frac p, Int y => Frac (Qred (p + inject_Z y))
  | Frac p, Frac q => Frac (Qred (p + q))
  | _, _ => Float (float_add (to_float a) (to_float b))
  end.

(** [Fraction(n, d)]. *)
Definition frac2 (n d : Z) : result num :=
  match d with
  | Z0 => Raise ZeroDivisionError
  | Zpos k => Ok (Frac (Qred (n # k)))
  | Zneg k => Ok (Frac (Qred ((- n) # k)))
  end.

(** [Fraction(x)] for a float [x]. *)
Definition frac_of_float (x : spec_float) : num := Frac (float_value x).

(** [q ** i] for a fraction and [i >= 0]. *)
Definition frac_pow (q : Q) (i : nat) : num :=
  Frac (Qred (Qpower q (Z.of_nat i))).

(** [sum(l)]: the terms are added to the integer 0 from the left. *)
Definition sum (l : list num) : num := fold_left add l (Int 0).

(** The rational number that an [int] or a [Fraction] is. *)
Definition exact (a : num) : option Q :=
  match a with
  | Int z => Some (inject_Z z)
  | Frac q => Some q
  | Float _ => None
  end.

Definition is_float (a : num) : bool :=
  match a with Float _ => true | _ => false end.

End PyNum.

(* ================================================================== *)
(** * [Section.__init__]: the events of a voice *)
(* ================================================================== *)

Module Walker.
Import PyNum.

(** The table [DURATIONS].  Its first three values are written as float
    literals; the others are [Fraction]s made from the float that the
    division gives, for instance [frac(1/2)].  A missing key is a
    [KeyError]. *)
Definition DURATIONS : list (string * num) :=
  [("measure"%string, Float (float_of_Z 1));
   ("breve"%string,   Float (float_of_Z 2));
   ("whole"%string,   Float (float_of_Z 1));
   ("half"%string,    frac_of_float (true_div 1 2));
   ("quarter"%string, frac_of_float (true_div 1 4));
   ("eighth"%string,  frac_of_float (true_div 1 8));
   ("16th"%string,    frac_of_float (true_div 1 16));
   ("32nd"%string,    frac_of_float (true_div 1 32));
   ("64th"%string,    frac_of_float (true_div 1 64));
   ("128th"%string,   frac_of_float (true_div 1 128))].

Fixpoint get (key : string) (d : list (string * num)) : result num :=
  match d with
  | [] => Raise KeyError
  | (k, v) :: rest => if String.eqb k key then Ok v else get key rest
  end.

(** What the walk reads of a [Note] element: the integers of [tpc] and
    [pitch], and for a tie spanner whether it has a [prev] and a [next]
    child. *)
Record note_tag := mk_note_tag {
  tpc_text : Z;
  pitch_text : Z;
  tie : option (bool * bool)
}.

(** The elements that [find_all(['Chord', 'Rest', 'Tuplet', 'endTuplet'])]
    yields, in document order, with what is read of each: the integers of
    [normalNotes] and [actualNotes]; the string of [durationType], the
    integer of [dots] if there is such a child, the name of a grace tag
    and the subtype of an articulation if there are such, and the
    notes. *)
Inductive event :=
| Tuplet (normalNotes actualNotes : Z)
| endTuplet
| Chord (durationType : string) (dots : option Z) (grace : option string)
        (articulation : option string) (notes : list note_tag)
| Rest (durationType : string) (dots : option Z).

(** A row of the note list. *)
Record note := mk_note {
  mc : Z;
  mn : Z;
  onset : num;
  duration : num;
  gracenote : option string;
  nominal_duration : num;
  note_scalar : num;
  tied : option Z;
  tpc : Z;
  midi : Z;
  staff : Z;
  voice : Z;
  volta : option Z;
  articulation_of : option string
}.

(** What is fixed during the walk of one voice. *)
Record context := mk_context {
  ctx_mc : Z;
  ctx_mn : Z;
  ctx_staff : Z;
  ctx_voice : Z;
  ctx_volta : option Z;
  with_articulation : bool
}.

(** The variables of the loop over the events, and the rows appended. *)
Record state := mk_state {
  pointer : num;
  scalar : num;
  scalar_stack : list num;
  rows : list note
}.

(** [pointer = frac(0)], [scalar = 1], [scalar_stack = []]. *)
Definition start : state := mk_state (Frac 0) (Int 1) [] [].

(** [sum([frac(1/2) ** i for i in range(d + 1)])]. *)
Definition dot_terms (d : Z) : list num :=
  map (frac_pow (float_value (true_div 1 2))) (seq 0 (Z.to_nat (d + 1))).

Definition dotscalar_of (dots : option Z) (scalar : num) : num :=
  match dots with
  | Some d => mul (sum (dot_terms d)) scalar
  | None => scalar
  end.

Definition tied_of (t : option (bool * bool)) : option Z :=
  match t with
  | Some (prev, next) =>
      Some ((if prev then -1 else 0) + (if next then 1 else 0))
  | None => None
  end.

Definition step (ctx : context) (st : state) (ev : event) : result state :=
  match ev with
  | Tuplet normalNotes actualNotes =>
      ratio <- frac2 normalNotes actualNotes ;;
      Ok (mk_state (pointer st) (mul (scalar st) ratio)
                   (scalar st :: scalar_stack st) (rows st))
  | endTuplet =>
      match scalar_stack st with
      | [] => Raise IndexError
      | top :: rest => Ok (mk_state (pointer st) top rest (rows st))
      end
  | Chord durationType dots grace articulation notes =>
      nominal <- get durationType DURATIONS ;;
      let dotscalar := dotscalar_of dots (scalar st) in
      let dur := mul nominal dotscalar in
      let art := if with_articulation ctx then articulation else None in
      let new :=
        map (fun n =>
               mk_note (ctx_mc ctx) (ctx_mn ctx) (pointer st)
                       (match grace with None => dur | Some _ => Int 0 end)
                       grace nominal dotscalar (tied_of (tie n))
                       (tpc_text n - 14) (pitch_text n)
                       (ctx_staff ctx) (ctx_voice ctx) (ctx_volta ctx) art)
            notes in
      Ok (mk_state (match grace with
                    | None => add (pointer st) dur
                    | Some _ => pointer st
                    end)
                   (scalar st) (scalar_stack st) (rows st ++ new))
  | Rest durationType dots =>
      (* [pointer += duration] belongs to the branch of a [Chord] *)
      nominal <- get durationType DURATIONS ;;
      let dotscalar := dotscalar_of dots (scalar st) in
      let dur := mul nominal dotscalar in
      Ok st
  end.

Fixpoint walk (ctx : context) (st : state) (events : list event)
  : result state :=
  match events with
  | [] => Ok st
  | ev :: rest => st <- step ctx st ev ;; walk ctx st rest
  end.

(** The duration that the walk computes for a chord or a rest. *)
Definition event_duration (durationType : string) (dots : option Z)
  (scalar : num) : result num :=
  nominal <- get durationType DURATIONS ;;
  Ok (mul nominal (dotscalar_of dots scalar)).

(** The sum of [(1/2)^i] for [i] from 0 to [d]; empty for [d < 0]. *)
Definition dot_sum (d : Z) : Q :=
  fold_right Qplus 0%Q
    (map (fun i => Qpower (1 # 2) (Z.of_nat i)) (seq 0 (Z.to_nat (d + 1)))).

Definition dots_value (dots : option Z) : Z :=
  match dots with Some d => d | None => 0 end.

(** The durations as the specification gives them. *)
Definition stated_durations : list (string * Q) :=
  [("measure"%string, 1%Q); ("breve"%string, 2%Q); ("whole"%string, 1%Q);
   ("half"%string, 1 # 2); ("quarter"%string, 1 # 4);
   ("eighth"%string, 1 # 8); ("16th"%string, 1 # 16);
   ("32nd"%string, 1 # 32); ("64th"%string, 1 # 64);
   ("128th"%string, 1 # 128)].

(** Events in which every [Tuplet] is closed by its [endTuplet]. *)
Inductive balanced : list event -> Prop :=
| balanced_nil : balanced []
| balanced_chord d dots g a ns rest :
    balanced rest -> balanced (Chord d dots g a ns :: rest)
| balanced_rest d dots rest :
    balanced rest -> balanced (Rest d dots :: rest)
| balanced_tuplet n a body rest :
    balanced body -> balanced rest ->
    balanced (Tuplet n a :: body ++ endTuplet :: rest).

Definition a_note : note_tag := mk_note_tag 14 60 None.
Definition a_context : context := mk_context 0 1 1 1 None false.

(** Scenario S5: a 2:3 tuplet of three undotted eighth-note chords. *)
Definition triplet : list event :=
  [Tuplet 2 3;
   Chord "eighth" None None None [a_note];
   Chord "eighth" None None None [a_note];
   Chord "eighth" None None None [a_note];
   endTuplet].

(** ** Exact and inexact values *)

(** An [int] or a [Fraction]. *)
Definition rational (a : num) : Prop := exists q, exact a = Some q.

(** The keys of [DURATIONS] whose value is a [Fraction]. *)
Definition fraction_token (name : string) : bool :=
  existsb (String.eqb name)
    ["half"; "quarter"; "eighth"; "16th"; "32nd"; "64th"; "128th"]%string.

Definition fraction_tokens (ev : event) : bool :=
  match ev with
  | Chord d _ _ _ _ | Rest d _ => fraction_token d
  | _ => true
  end.

Definition rational_note (r : note) : Prop :=
  rational (onset r) /\ rational (duration r)
  /\ rational (nominal_duration r) /\ rational (note_scalar r).

Definition rational_state (st : state) : Prop :=
  rational (pointer st) /\ rational (scalar st)
  /\ Forall rational (scalar_stack st) /\ Forall rational_note (rows st).

Ltac fields :=
  cbn [pointer scalar scalar_stack rows onset duration nominal_duration
       note_scalar].

(** A whole note followed by a quarter note, and a whole note in a
    triplet. *)
Definition whole_then_quarter : list event :=
  [Chord "whole" None None None [a_note];
   Chord "quarter" None None None [a_note]].

Definition whole_in_triplet : list event :=
  [Tuplet 2 3; Chord "whole" None None None [a_note]].

(** A 2:3 tuplet of three undotted whole-note chords, and a quarter rest
    before a quarter-note chord. *)
Definition whole_note_triplet : list event :=
  [Tuplet 2 3;
   Chord "whole" None None None [a_note];
   Chord "whole" None None None [a_note];
   Chord "whole" None None None [a_note];
   endTuplet].

Definition rest_then_chord : list event :=
  [Rest "quarter" None; Chord "quarter" None None None [a_note]].

(** ** Notes within the bounds of the pointer *)

(** An event that the walk can read: the duration token is a key of
    [DURATIONS], and [actualNotes] is not 0. *)
Definition readable (ev : event) : bool :=
  match ev with
  | Tuplet _ actualNotes => negb (actualNotes =? 0)
  | endTuplet => true
  | Chord d _ _ _ _ | Rest d _ => is_ok (get d DURATIONS)
  end.

(** The [Note] elements of an event. *)
Definition notes_of (ev : event) : list note_tag :=
  match ev with
  | Chord _ _ _ _ ns => ns
  | _ => []
  end.

(** A tuplet of positive numbers of notes. *)
Definition positive_ratio (ev : event) : bool :=
  match ev with
  | Tuplet n a => (0 <? n) && (0 <? a)
  | _ => true
  end.

(** A number that is an integer or a fraction and not negative. *)
Definition nonneg (a : num) : Prop :=
  exists x, exact a = Some x /\ (0 <= x)%Q.

(** A note that begins at or after 0 and ends at or before [P]. *)
Definition ends_by (P : Q) (r : note) : Prop :=
  exists o d, exact (onset r) = Some o /\ exact (duration r) = Some d
              /\ (0 <= o)%Q /\ (0 <= d)%Q /\ (o + d <= P)%Q.

Definition onset_le (r1 r2 : note) : Prop :=
  exists o1 o2, exact (onset r1) = Some o1 /\ exact (onset r2) = Some o2
                /\ (o1 <= o2)%Q.

(** What the walk keeps: the pointer and the scalars are integers or
    fractions and not negative, every note ends at or before the pointer,
    and the onsets of the notes do not decrease. *)
Definition bounded (st : state) : Prop :=
  exists P, exact (pointer st) = Some P /\ (0 <= P)%Q
            /\ nonneg (scalar st) /\ Forall nonneg (scalar_stack st)
            /\ Forall (ends_by P) (rows st)
            /\ StronglySorted onset_le (rows st).

End Walker.

(* ================================================================== *)
(** * [treat_section_index] and [Score.get_notes] *)
(* ================================================================== *)

Module GetNotes.
Import PyNum Series.

(** ** The argument [section] *)

(** An integer, a tuple or a list of such values, or a value that is
    neither a number nor iterable. *)
Inductive index :=
| IInt (i : Z)
| ITuple (l : list index)
| IList (l : list index)
| IOther.

(** What [treat_section_index] returns: an index or [None], or the
    tuple or list of what it returns for the members. *)
Inductive treated :=
| TInt (s : option Z)
| TTuple (l : list treated)
| TList (l : list treated).

Definition does_not_exist : string := "Section does not exist.".

Fixpoint treat_section_index (n : Z) (i : index) : M treated :=
  let each :=
    fix each (l : list index) : M (list treated) :=
      match l with
      | [] => ret []
      | e :: rest =>
          t <~ treat_section_index n e ;;
          ts <~ each rest ;;
          ret (t :: ts)
      end in
  match i with
  | IInt i =>
      if i <? 0 then
        if i <? - n then _ <~ warning does_not_exist ;; ret (TInt None)
        else ret (TInt (Some (n + i)))
      else
        if n - 1 <? i then _ <~ warning does_not_exist ;; ret (TInt None)
        else ret (TInt (Some i))
  | ITuple l => ts <~ each l ;; ret (TTuple ts)
  | IList l => ts <~ each l ;; ret (TList ts)
  | IOther => raise ValueError
  end.

(** The section numbers of a treated collection: [None] members are
    left out; a member that is itself a collection cannot be a key of
    [self.sections]. *)
Fixpoint section_numbers (l : list treated) : M (list Z) :=
  match l with
  | [] => ret []
  | TInt None :: rest => section_numbers rest
  | TInt (Some s) :: rest => ss <~ section_numbers rest ;; ret (s :: ss)
  | TTuple _ :: _ => raise KeyError
  | TList _ :: _ => raise TypeError
  end.

(** The key of a block of notes: the section number, with a letter when
    the section is requested more than once. *)
Definition key : Type := (Z * option ascii)%type.

Definition count_of (s : Z) (l : list Z) : nat :=
  List.length (filter (Z.eqb s) l).

(** [a_n_range('a', v)], consumed one letter per occurrence. *)
Fixpoint keys_from (treated seen : list Z) (all : list Z) : list key :=
  match treated with
  | [] => []
  | s :: rest =>
      (s, if (1 <? count_of s all)%nat
          then Some (ascii_of_nat (97 + count_of s seen))
          else None)
      :: keys_from rest (s :: seen) all
  end.

Definition keys_of (treated : list Z) : list key :=
  keys_from treated [] treated.

(** The first part of [get_notes]: the keys of the blocks to
    concatenate, or [None] when the function returns [None]. *)
Definition select_sections (n : Z) (section : option index)
  : M (option (list key)) :=
  match section with
  | None => ret (Some (map (fun s => (s, None)) (range 0 (Z.to_nat n))))
  | Some (IInt i) =>
      s <~ treat_section_index n (IInt i) ;;
      match s with
      | TInt (Some s) => ret (Some [(s, None)])
      | _ => raise ValueError
      end
  | Some section =>
      treated <~ treat_section_index n section ;;
      treated <~
        match treated with
        | TTuple [fro; to] =>
            match fro, to with
            | TInt fro, TInt to =>
                fro <~ match fro with
                       | Some fro => ret fro
                       | None =>
                           _ <~ warning "Replaced by first section 0." ;;
                           ret 0
                       end ;;
                to <~ match to with
                      | Some to => ret to
                      | None =>
                          _ <~ warning "Replaced by last section." ;;
                          ret (n - 1)
                      end ;;
                treat_section_index n
                  (IList (map IInt
                            (if fro <=? to
                             then range fro (Z.to_nat (to + 1 - fro))
                             else rev (range to (Z.to_nat (fro + 1 - to))))))
            | _, _ => raise TypeError
            end
        | _ => ret treated
        end ;;
      match treated with
      | TInt _ => raise TypeError
      | TTuple l | TList l =>
          ss <~ section_numbers l ;;
          match ss with
          | [] => ret None
          | _ => ret (Some (keys_of ss))
          end
      end
  end.

(** ** Data frames of notes *)

Inductive cell :=
| Num (a : num)
| Str (s : string)
| NaN.

Definition opt_int (o : option Z) : cell :=
  match o with Some z => Num (Int z) | None => NaN end.

Definition opt_str (o : option string) : cell :=
  match o with Some s => Str s | None => NaN end.

(** The columns of the note list of a section. *)
Definition base_columns (with_articulation : bool) : list string :=
  ["mc"; "mn"; "onset"; "duration"; "gracenote"; "nominal_duration";
   "scalar"; "tied"; "tpc"; "midi"; "staff"; "voice"; "volta"]%string
  ++ (if with_articulation then ["articulation"%string] else []).

Definition cells_of (with_articulation : bool) (r : Walker.note)
  : list (string * cell) :=
  [("mc"%string, Num (Int (Walker.mc r)));
   ("mn"%string, Num (Int (Walker.mn r)));
   ("onset"%string, Num (Walker.onset r));
   ("duration"%string, Num (Walker.duration r));
   ("gracenote"%string, opt_str (Walker.gracenote r));
   ("nominal_duration"%string, Num (Walker.nominal_duration r));
   ("scalar"%string, Num (Walker.note_scalar r));
   ("tied"%string, opt_int (Walker.tied r));
   ("tpc"%string, Num (Int (Walker.tpc r)));
   ("midi"%string, Num (Int (Walker.midi r)));
   ("staff"%string, Num (Int (Walker.staff r)));
   ("voice"%string, Num (Int (Walker.voice r)));
   ("volta"%string, opt_int (Walker.volta r))]
  ++ (if with_articulation
      then [("articulation"%string, opt_str (Walker.articulation_of r))]
      else []).

(** A row of the result: the key of its block, its number in the block,
    and its cells by column. *)
Record df_row := mk_df_row {
  row_key : option key;
  row_ix : Z;
  cells : list (string * cell)
}.

(** A frame: its columns, its rows, and whether its index has the two
    levels [section] and [ix]. *)
Record frame := mk_frame {
  columns : list string;
  body : list df_row;
  two_levels : bool
}.

(** What [get_notes] reads of a score: whether the articulation is a
    feature, the notes of its sections, and the time signature and
    offset of every measure count. *)
Record score := mk_score {
  with_articulation : bool;
  section_notes : list (list Walker.note);
  timesig_offset : list (string * num)
}.

Fixpoint cell_of (column : string) (cs : list (string * cell))
  : result cell :=
  match cs with
  | [] => Raise KeyError
  | (k, v) :: rest => if String.eqb k column then Ok v else cell_of column rest
  end.

(** [pd.concat] of the note lists under the given keys. *)
Definition concat_notes (S : score) (keys : list key) : frame :=
  mk_frame (base_columns (with_articulation S))
    (flat_map
       (fun k =>
          map (fun ir => mk_df_row (Some k) (fst ir)
                                   (cells_of (with_articulation S) (snd ir)))
              (Sections.indexed 0
                 (nth (Z.to_nat (fst k)) (section_notes S) [])))
       keys)
    true.

(** ** Keyword arguments *)

(** The values that select rows. *)
Inductive atom :=
| AInt (z : Z)
| AStr (s : string).

(** The selectors of the model: a single value, a boolean, an inclusive
    range of integers, or a collection of at least two values. *)
Inductive selector :=
| SelValue (a : atom)
| SelBool (b : bool)
| SelRange (lo hi : Z)
| SelMany (first second : atom) (others : list atom).

(** The argument [beatsize]: absent, a boolean, a dictionary from time
    signatures to beat sizes, a fraction, or something else, of which
    [frac] makes a fraction or raises. *)
Inductive beatsize_arg :=
| BNone
| BBool (b : bool)
| BDict (d : list (string * Q))
| BFrac (q : Q)
| BOther (converted : option Q).

Definition available_features : list string :=
  ["octaves"; "note_names"; "beats"; "pcs"; "n"]%string.

(** A dictionary with string keys, in insertion order. *)
Fixpoint update {A : Type} (d : list (string * A)) (k : string) (v : A)
  : list (string * A) :=
  match d with
  | [] => [(k, v)]
  | (k', v') :: rest =>
      if String.eqb k' k then (k', v) :: rest else (k', v') :: update rest k v
  end.

Fixpoint item {A : Type} (d : list (string * A)) (k : string) : option A :=
  match d with
  | [] => None
  | (k', v) :: rest => if String.eqb k' k then Some v else item rest k
  end.

(** The loop that activates the requested features.  The value of the
    keyword is not looked at. *)
Fixpoint activate (cols : list string) (features : list (string * bool))
  (kwargs : list (string * selector)) : M (list (string * bool)) :=
  match kwargs with
  | [] => ret features
  | (feature, val) :: rest =>
      if Features.mem_string feature cols then activate cols features rest
      else
        _ <~ (if Features.mem_string feature (map fst features) then ret tt
              else warning "not part of the note features.") ;;
        activate cols (update features feature true) rest
  end.

Definition initial_features (beatsize : beatsize_arg) : list (string * bool) :=
  let features := map (fun f => (f, false)) available_features in
  match beatsize with
  | BNone => features
  | _ => update features "beats" true
  end.

Definition active (features : list (string * bool)) (f : string) : bool :=
  match item features f with
  | Some b => b
  | None => false
  end.

(** ** Additional columns *)

(** The dictionary [TIMESIG_BEAT], its strings read as fractions. *)
Definition TIMESIG_BEAT : list (string * Q) :=
  [("3/16"%string, 1 # 16); ("6/16"%string, 3 # 16); ("3/8"%string, 1 # 8);
   ("4/8"%string, 1 # 4); ("6/8"%string, 3 # 8); ("9/8"%string, 3 # 8);
   ("12/8"%string, 3 # 8); ("2/4"%string, 1 # 4); ("3/4"%string, 1 # 4);
   ("4/4"%string, 1 # 4); ("6/4"%string, 3 # 4); ("2/2"%string, 1 # 2);
   ("3/2"%string, 1 # 2)].

(** [beatsizedict], a dictionary with the default value 1/4 or with the
    given fraction as default value; an argument that [frac] cannot read
    raises. *)
Definition with_default (d : list (string * Q)) (timesig : string) : Q :=
  match item d timesig with
  | Some q => q
  | None => 1 # 4
  end.

Definition beatsizedict (beatsize : beatsize_arg) : result (string -> Q) :=
  match beatsize with
  | BNone | BBool _ => Ok (with_default TIMESIG_BEAT)
  | BDict d =>
      Ok (with_default
            (fold_left (fun acc kv => update acc (fst kv) (snd kv))
                       d TIMESIG_BEAT))
  | BFrac q => Ok (fun _ => q)
  | BOther (Some q) => Ok (fun _ => q)
  | BOther None => Raise ValueError
  end.

Definition int_cell (c : cell) : option Z :=
  match c with
  | Num (Int z) => Some z
  | _ => None
  end.

(** A new column, computed row by row from one of the others. *)
Definition add_column (name source : string) (f : cell -> cell) (df : frame)
  : result frame :=
  if Features.mem_string source (columns df) then
    Ok (mk_frame (columns df ++ [name])
          (map (fun r =>
                  mk_df_row (row_key r) (row_ix r)
                    (cells r
                     ++ [(name,
                          match cell_of source (cells r) with
                          | Ok c => f c
                          | Raise _ => NaN
                          end)]))
               (body df))
          (two_levels df))
  else Raise KeyError.

(** [midi2octave]. *)
Definition octave_cell (c : cell) : cell :=
  match int_cell c with
  | Some midi => Num (Int (midi / 12 - 1))
  | None => NaN
  end.

Definition name_cell (c : cell) : cell :=
  match int_cell c with
  | Some tpc =>
      match Spelling.spell_tpc tpc with
      | Some name => Str name
      | None => NaN
      end
  | None => NaN
  end.

Definition pc_cell (c : cell) : cell :=
  match int_cell c with
  | Some midi => Num (Int (midi mod 12))
  | None => NaN
  end.

Section Beats.

(** [compute_beat] for a beat size and a position in the measure: the
    label is made with Python's [//] and [%] and its formatting of
    integers, fractions and floats, which are not modelled. *)
Variable beat_label : Q -> num -> cell.

Definition beats_column (S : score) (beatsize : beatsize_arg) (df : frame)
  : result frame :=
  size_of <- beatsizedict beatsize ;;
  Ok (mk_frame (columns df ++ ["beats"%string])
        (map (fun r =>
                mk_df_row (row_key r) (row_ix r)
                  (cells r
                   ++ [("beats"%string,
                        match cell_of "mc" (cells r),
                              cell_of "onset" (cells r) with
                        | Ok (Num (Int mc)), Ok (Num onset) =>
                            match nth_error (timesig_offset S) (Z.to_nat mc)
                            with
                            | Some (timesig, offset) =>
                                beat_label (size_of timesig)
                                           (PyNum.add onset offset)
                            | None => NaN
                            end
                        | _, _ => NaN
                        end)]))
             (body df))
        (two_levels df)).

(** The column [n]: the number of the row in its section. *)
Definition n_column (df : frame) : frame :=
  mk_frame ("n"%string :: columns df)
    (map (fun r => mk_df_row (row_key r) (row_ix r)
                             (("n"%string, Num (Int (row_ix r))) :: cells r))
         (body df))
    (two_levels df).

Definition add_features (S : score) (beatsize : beatsize_arg)
  (features : list (string * bool)) (df : frame) : result frame :=
  df <- (if active features "octaves"
         then add_column "octaves" "midi" octave_cell df else Ok df) ;;
  df <- (if active features "note_names"
         then add_column "note_names" "tpc" name_cell df else Ok df) ;;
  df <- (if active features "beats"
         then beats_column S beatsize df else Ok df) ;;
  df <- (if active features "pcs"
         then add_column "pcs" "midi" pc_cell df else Ok df) ;;
  Ok (if active features "n" then n_column df else df).

(** ** Filters *)

Definition num_eqb (a : num) (z : Z) : bool :=
  match a with
  | Int x => x =? z
  | Frac q => Qeq_bool q (inject_Z z)
  | Float x => SFeqb x (float_of_Z z)
  end.

Definition num_between (lo hi : Z) (a : num) : bool :=
  match a with
  | Int x => (lo <=? x) && (x <=? hi)
  | Frac q => Qle_bool (inject_Z lo) q && Qle_bool q (inject_Z hi)
  | Float x => SFleb (float_of_Z lo) x && SFleb x (float_of_Z hi)
  end.

Definition equals (a : atom) (c : cell) : bool :=
  match a, c with
  | AInt z, Num x => num_eqb x z
  | AStr s, Str s' => String.eqb s' s
  | _, _ => false
  end.

(** The mask of one filter on one cell; comparing a string with the
    bounds of a range raises. *)
Definition selects (feature : string) (sel : selector) (c : cell)
  : result bool :=
  match sel with
  | SelValue a => Ok (equals a c)
  | SelBool _ =>
      if String.eqb feature "tied"
      then Ok (equals (AInt 0) c || equals (AInt 1) c)
      else Ok (match c with NaN => false | _ => true end)
  | SelRange lo hi =>
      match c with
      | Num a => Ok (num_between lo hi a)
      | Str _ => Raise TypeError
      | NaN => Ok false
      end
  | SelMany a b others => Ok (existsb (fun x => equals x c) (a :: b :: others))
  end.

Fixpoint filter_rows (feature : string) (sel : selector) (rows : list df_row)
  : result (list df_row) :=
  match rows with
  | [] => Ok []
  | r :: rest =>
      c <- cell_of feature (cells r) ;;
      keep <- selects feature sel c ;;
      rest <- filter_rows feature sel rest ;;
      Ok (if keep then r :: rest else rest)
  end.

(** The loop that applies the filters: a selector [False] is skipped. *)
Fixpoint apply_filters (df : frame) (kwargs : list (string * selector))
  : result frame :=
  match kwargs with
  | [] => Ok df
  | (feature, SelBool false) :: rest => apply_filters df rest
  | (feature, sel) :: rest =>
      if Features.mem_string feature (columns df) then
        rows <- filter_rows feature sel (body df) ;;
        apply_filters (mk_frame (columns df) rows (two_levels df)) rest
      else Raise KeyError
  end.

(** ** Postprocessing *)

Definition drop_n (df : frame) : frame :=
  if Features.mem_string "n" (columns df) then
    mk_frame (filter (fun c => negb (String.eqb c "n")) (columns df))
      (map (fun r =>
              mk_df_row (row_key r) (row_ix r)
                (filter (fun kv => negb (String.eqb (fst kv) "n")) (cells r)))
           (body df))
      (two_levels df)
  else df.

Definition reset (df : frame) : frame :=
  mk_frame (columns df)
    (map (fun ir => mk_df_row None (fst ir) (cells (snd ir)))
         (Sections.indexed 0 (body df)))
    false.

Definition postprocess (multiindex : bool) (df : frame) : M frame :=
  _ <~ (match body df with
        | [] => (Ok tt, [(INFO, "No notes exist for this selection."%string)])
        | _ => ret tt
        end) ;;
  let df := drop_n df in
  ret (if multiindex then df else reset df).

Definition lift {A : Type} (r : result A) : M A := (r, []).

(** [Score.get_notes]; [None] is its return value [None]. *)
Definition get_notes (S : score) (section : option index) (multiindex : bool)
  (beatsize : beatsize_arg) (kwargs : list (string * selector))
  : M (option frame) :=
  let n := Z.of_nat (List.length (section_notes S)) in
  keys <~ select_sections n section ;;
  match keys with
  | None => ret None
  | Some keys =>
      let df := concat_notes S keys in
      features <~ activate (columns df) (initial_features beatsize) kwargs ;;
      df <~ lift (add_features S beatsize features df) ;;
      df <~ lift (apply_filters df kwargs) ;;
      df <~ postprocess multiindex df ;;
      ret (Some df)
  end.

End Beats.

(** A score with three sections of one note each. *)
Definition one_note (mc : Z) : Walker.note :=
  Walker.mk_note mc (mc + 1) (Frac 0) (Frac (1 # 4)) None (Frac (1 # 4))
                 (Int 1) None 0 60 1 1 None None.

Definition three_sections : score :=
  mk_score false [[one_note 0]; [one_note 1]; [one_note 2]]
           [("4/4"%string, Int 0); ("4/4"%string, Int 0); ("4/4"%string, Int 0)].

(** Beat labels are not needed where no column [beats] is asked for. *)
Definition unlabelled (size : Q) (position : num) : cell := NaN.

(** ** The selection of sections in closed form *)

(** The index of a section, counted from the end when negative; [None]
    when there is no such section. *)
Definition normalize (n i : Z) : option Z :=
  if i <? 0 then (if i <? - n then None else Some (n + i))
  else if n - 1 <? i then None else Some i.

Definition warnings_for (n : Z) (l : list Z) : log :=
  flat_map (fun i => match normalize n i with
                     | Some _ => []
                     | None => [(WARNING, does_not_exist)]
                     end) l.

Definition valid_sections (n : Z) (l : list Z) : list Z :=
  flat_map (fun i => match normalize n i with
                     | Some s => [s]
                     | None => []
                     end) l.

(** The members of a collection are treated from left to right. *)
Fixpoint treat_all (n : Z) (l : list index) : M (list treated) :=
  match l with
  | [] => ret []
  | e :: rest =>
      t <~ treat_section_index n e ;;
      ts <~ treat_all n rest ;;
      ret (t :: ts)
  end.

(** ** Ranges of sections and rows that pass a filter *)

(** Whether [i] is the index of one of [n] sections, counted from the
    front or, when negative, from the end. *)
Definition in_range (n i : Z) : bool := (- n <=? i) && (i <? n).

(** [range(fro, to+1)], or [reversed(range(to, fro+1))] when [to < fro]. *)
Definition span (fro to : Z) : list Z :=
  if fro <=? to then range fro (Z.to_nat (to + 1 - fro))
  else rev (range to (Z.to_nat (fro + 1 - to))).

(** Whether a row passes the filter of one keyword. *)
Definition passes (r : df_row) (kw : string * selector) : bool :=
  match snd kw with
  | SelBool false => true
  | sel =>
      match cell_of (fst kw) (cells r) with
      | Ok c => match selects (fst kw) sel c with
                | Ok b => b
                | Raise _ => false
                end
      | Raise _ => false
      end
  end.

(** The notes of the first two of the three sections. *)
Definition two_notes : frame :=
  concat_notes three_sections [(0, None); (1, None)].

(** ** Arguments that [get_notes] can work with *)

(** A value of [beatsize] with which the column [beats] can be computed:
    it is absent or a boolean, or it gives beat sizes other than 0, by
    which [compute_beat] divides. *)
Definition usable_beatsize (beatsize : beatsize_arg) : bool :=
  match beatsize with
  | BNone | BBool _ => true
  | BDict d => forallb (fun kv => negb (Qeq_bool (snd kv) 0)) d
  | BFrac q | BOther (Some q) => negb (Qeq_bool q 0)
  | BOther None => false
  end.

(** The columns that hold numbers, where they hold a value. *)
Definition number_columns : list string :=
  ["mc"; "mn"; "onset"; "duration"; "nominal_duration"; "scalar"; "tied";
   "tpc"; "midi"; "staff"; "voice"; "volta"; "octaves"; "pcs"; "n"]%string.


(** A row that has a cell for every one of the columns, and no string
    in a column of numbers. *)
Definition filled (cols : list string) (r : df_row) : Prop :=
  (forall c, Features.mem_string c cols = true ->
             is_ok (cell_of c (cells r)) = true)
  /\ (forall c s, Features.mem_string c number_columns = true ->
                  cell_of c (cells r) <> Ok (Str s)).

(** A frame with the rows of another one, in which the rows have a
    cell for every column, and with the columns of the other one. *)
Definition extends (df df' : frame) : Prop :=
  Forall (filled (columns df')) (body df')
  /\ (forall c, Features.mem_string c (columns df) = true ->
                Features.mem_string c (columns df') = true)
  /\ map (fun r => (row_key r, row_ix r)) (body df')
     = map (fun r => (row_key r, row_ix r)) (body df).


(** The records that a pair of integers leaves in the log. *)
Definition pair_warnings (n a b : Z) : log :=
  (if in_range n a then [] else [(WARNING, does_not_exist)])
  ++ (if in_range n b then [] else [(WARNING, does_not_exist)])
  ++ (if in_range n a then []
      else [(WARNING, "Replaced by first section 0."%string)])
  ++ (if in_range n b then []
      else [(WARNING, "Replaced by last section."%string)]).

(** The cell of a new column that is computed from another column. *)
Definition computed (f : cell -> cell) (source : result cell) : cell :=
  match source with
  | Ok c => f c
  | Raise _ => NaN
  end.

(** What the column of a feature holds in a row. *)
Definition feature_cell (beat_label : Q -> num -> cell) (S : score)
  (size_of : string -> Q) (f : string) (r : df_row) : cell :=
  if String.eqb f "octaves" then
    computed octave_cell (cell_of "midi" (cells r))
  else if String.eqb f "note_names" then
    computed name_cell (cell_of "tpc" (cells r))
  else if String.eqb f "pcs" then
    computed pc_cell (cell_of "midi" (cells r))
  else if String.eqb f "beats" then
    match cell_of "mc" (cells r), cell_of "onset" (cells r) with
    | Ok (Num (Int mc)), Ok (Num onset) =>
        match nth_error (timesig_offset S) (Z.to_nat mc) with
        | Some (timesig, offset) =>
            beat_label (size_of timesig) (PyNum.add onset offset)
        | None => NaN
        end
    | _, _ => NaN
    end
  else Num (Int (row_ix r)).


End GetNotes.


(* ================================================================== *)
(** * [check_measure_boundaries]: notes within their measures *)
(* ================================================================== *)

Module Boundaries.
Import PyNum Walker.

(** A Python number as a point of the extended rational line: what the
    comparisons of [int], [Fraction] and [float] with one another go
    by. *)
Inductive extended :=
| Finite (q : Q)
| PlusInfinity
| MinusInfinity
| NotANumber.

Definition value (a : num) : extended :=
  match a with
  | Int z => Finite (inject_Z z)
  | Frac q => Finite q
  | Float (S754_infinity false) => PlusInfinity
  | Float (S754_infinity true) => MinusInfinity
  | Float S754_nan => NotANumber
  | Float x => Finite (float_value x)
  end.

(** [a > b]. *)
Definition gt (a b : num) : bool :=
  match value a, value b with
  | NotANumber, _ | _, NotANumber => false
  | PlusInfinity, PlusInfinity => false
  | PlusInfinity, _ => true
  | _, PlusInfinity => false
  | MinusInfinity, _ => false
  | _, MinusInfinity => true
  | Finite p, Finite q => negb (Qle_bool p q)
  end.

(** [measure_durations.loc[mc]]: the label has to be in the index, which
    holds the measure counts 0, 1, ... *)
Definition loc (measure_durations : list num) (mc : Z) : result num :=
  if (0 <=? mc) && (mc <? Z.of_nat (List.length measure_durations)) then
    Ok (nth (Z.to_nat mc) measure_durations (Int 0))
  else Raise KeyError.

(** The test of the loop for one row of the note list. *)
Definition surpasses (measure_durations : list num) (r : note) : result bool :=
  length <- loc measure_durations (mc r) ;;
  Ok (gt (add (onset r) (duration r)) length).

(** The records of the log, without the fields of the warning. *)
Definition surpassing : record :=
  (WARNING, "Event surpasses the measure length."%string).

Definition no_errors : record :=
  (DEBUG, "Measure boundaries checked: No errors."%string).

(** The loop over the rows, with the flag [OK]. *)
Fixpoint check_rows (measure_durations : list num) (notes : list note)
  (OK : bool) : M bool :=
  match notes with
  | [] => ret OK
  | r :: rest =>
      over <~ (surpasses measure_durations r, []) ;;
      if over then
        _ <~ (Ok tt, [surpassing]) ;;
        check_rows measure_durations rest false
      else check_rows measure_durations rest OK
  end.

Definition check_measure_boundaries (notes : list note)
  (measure_durations : list num) : M unit :=
  OK <~ check_rows measure_durations notes true ;;
  if OK then (Ok tt, [no_errors]) else ret tt.

(** Whether a note ends after the end of its measure; false where the
    measure count is not in the index. *)
Definition too_long (measure_durations : list num) (r : note) : bool :=
  match surpasses measure_durations r with
  | Ok b => b
  | Raise _ => false
  end.

(** A note of three quarters that begins on the second half of a
    measure. *)
Definition long_note : note :=
  mk_note 0 1 (Frac (1 # 2)) (Frac (3 # 4)) None (Frac (1 # 2)) (Int 1) None
          0 60 1 1 None None.

End Boundaries.


(* ================================================================== *)
(** * [get_volta_structure]: the measures of the voltas *)
(* ================================================================== *)

Module Voltas.
Import Series.

(** The columns of [df] that [get_volta_structure] reads.  The index is
    the measure count, the position of the row; [m_volta] holds the
    length of a volta that begins in the measure. *)
Record measure := mk_measure {
  m_repeats : option RepeatStructure.mark;
  m_volta : option Z;
  m_dont_count : option Z
}.

Definition frame := list measure.

Definition mem (x : Z) (l : list Z) : bool := existsb (Z.eqb x) l.

(** [df.volta.dropna()]: the labels of the voltas and their lengths. *)
Definition voltas (df : frame) : list (Z * Z) :=
  flat_map (fun im => match m_volta (snd im) with
                      | Some length => [(fst im, length)]
                      | None => []
                      end)
           (Sections.indexed 0 df).

(** [s.loc[labels]]: every label has to be in the index. *)
Fixpoint loc {A : Type} (s : list A) (labels : list Z) : result (list A) :=
  match labels with
  | [] => Ok []
  | mc :: rest =>
      if (0 <=? mc) && (mc <? Z.of_nat (List.length s)) then
        match nth_error s (Z.to_nat mc) with
        | Some v => vs <- loc s rest ;; Ok (v :: vs)
        | None => Raise KeyError
        end
      else Raise KeyError
  end.

(** [voltas.index[voltas.index > i]]. *)
Definition later_voltas (df : frame) (i : Z) : list Z :=
  filter (fun k => i <? k) (map fst (voltas df)).

(** The measures of [range(i, i + length)] in which a later volta
    begins. *)
Definition overlaps (df : frame) (i length : Z) : list Z :=
  filter (fun mc => mem mc (later_voltas df i)) (range i (Z.to_nat length)).

(** [volta_range] after the overlaps have been taken out. *)
Definition volta_range (df : frame) (i length : Z) : list Z :=
  match overlaps df i length with
  | [] => range i (Z.to_nat length)
  | found => filter (fun mc => negb (mem mc found)) (range i (Z.to_nat length))
  end.

(** The variables of the first loop. *)
Record state := mk_state {
  volta_structure : list (list (list Z));
  nxt : Z;
  OK : bool
}.

Definition is_startRepeat (x : option RepeatStructure.mark) : bool :=
  match x with
  | Some RepeatStructure.startRepeat => true
  | _ => false
  end.

(** A new volta group, or one more volta in the last group. *)
Definition place (structure : list (list (list Z))) (i nxt : Z)
  (r : list Z) : result (list (list (list Z))) :=
  if negb (i =? nxt) then Ok (structure ++ [[r]])
  else
    match structure with
    | [] => Raise IndexError
    | _ => Ok (removelast structure ++ [last structure [] ++ [r]])
    end.

(** One turn of the first loop. *)
Definition turn (df : frame) (st : state) (v : Z * Z) : M state :=
  let i := fst v in
  let length := snd v in
  _ <~ (match overlaps df i length with
        | [] => ret tt
        | _ => warning "Voltas overlap."
        end) ;;
  let r := volta_range df i length in
  structure <~ (place (volta_structure st) i (nxt st) r, []) ;;
  let nxt := i + Z.of_nat (List.length r) in
  marks <~ (loc (map m_repeats df) r, []) ;;
  if existsb is_startRepeat marks then
    (Ok (mk_state structure nxt false),
     [(ERROR, "Volta contains startRepeat!"%string)])
  else ret (mk_state structure nxt (OK st)).

Fixpoint first_loop (df : frame) (st : state) (vs : list (Z * Z)) : M state :=
  match vs with
  | [] => ret st
  | v :: rest => st <~ turn df st v ;; first_loop df st rest
  end.

(** One turn of the second loop: the voltas of a group should have the
    same length, unless the measures of all but the first are excluded
    from the bar count. *)
Definition check_group (df : frame) (group : list (list Z)) (OK : bool)
  : M bool :=
  match group with
  | [] => raise StopIteration
  | first :: others =>
      if forallb (fun r => (List.length r =? List.length first)%nat) others
      then ret OK
      else
        excluded <~ (loc (map m_dont_count df) (List.concat others), []) ;;
        if existsb isna excluded then
          (Ok false, [(WARNING, "Voltas have different lengths."%string)])
        else ret OK
  end.

Fixpoint second_loop (df : frame) (groups : list (list (list Z))) (OK : bool)
  : M bool :=
  match groups with
  | [] => ret OK
  | group :: rest => OK <~ check_group df group OK ;; second_loop df rest OK
  end.

Definition get_volta_structure (df : frame) : M (list (list (list Z))) :=
  st <~ first_loop df (mk_state [] (-1) true) (voltas df) ;;
  OK <~ second_loop df (volta_structure st) (OK st) ;;
  _ <~ (if OK then (Ok tt, [(DEBUG, "Volta structure OK."%string)])
        else ret tt) ;;
  ret (volta_structure st).

(** [Score.__init__] then writes the number of every volta over its
    measures: [self.info.loc[mc, 'volta'] = i+1]. *)
Definition assign (col : series Z) (labels : list Z) (v : Z)
  : result (series Z) :=
  if forallb (fun mc => (0 <=? mc) && (mc <? Z.of_nat (List.length col)))
             labels
  then Ok (map (fun ix => if mem (fst ix) labels then Some v else snd ix)
               (Sections.indexed 0 col))
  else Raise KeyError.

Fixpoint number_group (col : series Z) (i : Z) (group : list (list Z))
  : result (series Z) :=
  match group with
  | [] => Ok col
  | mc :: rest => col <- assign col mc (i + 1) ;; number_group col (i + 1) rest
  end.

Fixpoint spread (col : series Z) (structure : list (list (list Z)))
  : result (series Z) :=
  match structure with
  | [] => Ok col
  | group :: rest => col <- number_group col 0 group ;; spread col rest
  end.

(** All measures of the first range lie before those of the second. *)
Definition before (r1 r2 : list Z) : Prop :=
  forall a b, In a r1 -> In b r2 -> a < b.

(** A group whose measures follow one another. *)
Definition consecutive (group : list (list Z)) : Prop :=
  exists a, List.concat group = range a (List.length (List.concat group)).

(** No volta begins within the range of an earlier one. *)
Definition separate (df : frame) : Prop :=
  Forall (fun v => overlaps df (fst v) (snd v) = []) (voltas df).

(** Every volta ends within the frame. *)
Definition fitting (df : frame) : Prop :=
  Forall (fun v => fst v + snd v <= Z.of_nat (List.length df)) (voltas df).

(** A first volta of two measures and a second volta of one, as in a
    repeated section of six measures. *)
Definition two_voltas : frame :=
  [mk_measure (Some RepeatStructure.firstMeasure) None None;
   mk_measure None None None;
   mk_measure None (Some 2) None;
   mk_measure (Some RepeatStructure.endRepeat) None None;
   mk_measure None (Some 1) (Some 1);
   mk_measure (Some RepeatStructure.lastMeasure) None None].

End Voltas.


(* ================================================================== *)
(** * [midi2octave], [search_in_list_of_tuples] and [sort_dict] *)
(* ================================================================== *)

Module Helpers.

(** [midi2octave]: 4 for the values 60 to 71. *)
Definition midi2octave (val : Z) : Z := val / 12 - 1.

Section Tuples.

Variable A : Type.
Variable eqb : A -> A -> bool.

(** [item[pos]] on a tuple: a negative position counts from the end; a
    position outside of the tuple raises. *)
Definition getitem (item : list A) (pos : Z) : result A :=
  let n := Z.of_nat (List.length item) in
  let k := if pos <? 0 then n + pos else pos in
  if (0 <=? k) && (k <? n) then
    match nth_error item (Z.to_nat k) with
    | Some x => Ok x
    | None => Raise IndexError
    end
  else Raise IndexError.

(** The comprehension over [enumerate(L)], from the index [i] on. *)
Fixpoint search_from (i : Z) (L : list (list A)) (pos : Z) (search : A)
  (add : Z) : result (list Z) :=
  match L with
  | [] => Ok []
  | item :: rest =>
      x <- getitem item pos ;;
      found <- search_from (i + 1) rest pos search add ;;
      Ok (if eqb x search then (i + add) :: found else found)
  end.

Definition search_in_list_of_tuples (L : list (list A)) (pos : Z)
  (search : A) (add : Z) : result (list Z) :=
  search_from 0 L pos search add.

End Tuples.

Section Dictionaries.

Variable V : Type.

(** A dictionary with integer keys: its items in insertion order, every
    key once. *)
Definition dict := list (Z * V).

(** [D[k]]. *)
Fixpoint lookup (D : dict) (k : Z) : result V :=
  match D with
  | [] => Raise KeyError
  | (k', v) :: rest => if k' =? k then Ok v else lookup rest k
  end.

(** [{k: D[k] for k in keys}]. *)
Fixpoint comprehension (D : dict) (keys : list Z) : result dict :=
  match keys with
  | [] => Ok []
  | k :: rest =>
      v <- lookup D k ;;
      items <- comprehension D rest ;;
      Ok ((k, v) :: items)
  end.

Definition sort_dict (D : dict) : result dict :=
  comprehension D (Sections.sorted (map fst D)).

End Dictionaries.

End Helpers.


(* ================================================================== *)
(** * The columns [octaves] and [pcs] of [Score.get_notes] *)
(* ================================================================== *)

Module Columns.
Import PyNum GetNotes.

(** A row in which the columns [octaves] and [pcs] hold the octave and
    the pitch class of the column [midi]. *)
Definition decomposed (r : df_row) : Prop :=
  exists m,
    cell_of "midi" (cells r) = Ok (Num (Int m))
    /\ cell_of "octaves" (cells r) = Ok (Num (Int (Helpers.midi2octave m)))
    /\ cell_of "pcs" (cells r) = Ok (Num (Int (m mod 12))).

End Columns.


(* ================================================================== *)
(** * [convert_timesig]: time signatures *)
(* ================================================================== *)

Module TimeSigs.

(** What [convert_timesig] reads of an element: for an element named
    [TimeSig], the text that the result shows for the [string] of its
    children [sigN] and [sigD], where it has them; for any other
    element, the same of its first descendant named [TimeSig], if it
    has one. *)
Inductive tag :=
| TimeSig (sigN sigD : option string)
| Element (inner : option (option string * option string)).

(** The argument: an element or a list of arguments. *)
Inductive argument :=
| Tag (t : tag)
| Tags (l : list argument).

Definition value_eq_dec (x y : option string) : {x = y} + {x <> y}.
Proof. decide equality. apply string_dec. Defined.

(** The branch for an element named [TimeSig]. *)
Definition read (sigN sigD : option string) : M (option string) :=
  match sigN with
  | None => (Ok None, [(ERROR, "TimeSig tag has no sigN tag."%string)])
  | Some N =>
      match sigD with
      | None => (Ok None, [(ERROR, "TimeSig tag has no sigD tag."%string)])
      | Some D => ret (Some (N ++ "/" ++ D)%string)
      end
  end.

(** The size of [set(results)] decides what a list gives. *)
Definition agree (results : list (option string)) : M (option string) :=
  match nodup value_eq_dec results with
  | [] =>
      (Ok None,
       [(ERROR, "List of timesignatures did not yield any result."%string)])
  | [r] => ret r
  | _ =>
      (Ok None,
       [(ERROR, "List contains two different time signatures."%string)])
  end.

Fixpoint convert_timesig (a : argument) : M (option string) :=
  let each :=
    fix each (l : list argument) : M (list (option string)) :=
      match l with
      | [] => ret []
      | t :: rest =>
          r <~ convert_timesig t ;;
          rs <~ each rest ;;
          ret (r :: rs)
      end in
  match a with
  | Tags l => results <~ each l ;; agree results
  | Tag (TimeSig N D) => read N D
  | Tag (Element (Some (N, D))) => read N D
  | Tag (Element None) => raise ValueError
  end.

(** The members of a list are converted from left to right. *)
Fixpoint convert_all (l : list argument) : M (list (option string)) :=
  match l with
  | [] => ret []
  | t :: rest =>
      r <~ convert_timesig t ;;
      rs <~ convert_all rest ;;
      ret (r :: rs)
  end.

End TimeSigs.


(* ================================================================== *)
(** * [get_measure_infos]: the values of a measure *)
(* ================================================================== *)

Module MeasureInfos.
Import Features.

(** The dictionary [tag_to_col] of [Score.__init__]. *)
Definition tag_to_col : list (string * string) :=
  [("accidental", "keysig"); ("TimeSig", "timesig"); ("voice", "voices");
   ("startRepeat", "repeats"); ("endRepeat", "repeats");
   ("LayoutBreak", "repeats"); ("Volta", "volta"); ("BarLine", "barline");
   ("noOffset", "numbering_offset"); ("irregular", "dont_count")]%string.

(** What [get_measure_infos] reads of a [Measure] element: the fraction
    of its attribute [len], if it has one, and the elements that
    [find_all(tag_to_col.keys())] yields, in document order, each with
    its name. *)
Record measure := mk_measure {
  len : option Q;
  tags : list (string * node)
}.

(** The values of the dictionary [mc_info]. *)
Inductive value :=
| Feature (f : feature)
| Duration (q : Q).

(** [infos[name].append(tag)] on the [defaultdict]: a new key goes to
    the end. *)
Fixpoint append (infos : list (string * list node)) (name : string)
  (nd : node) : list (string * list node) :=
  match infos with
  | [] => [(name, [nd])]
  | (k, nodes) :: rest =>
      if String.eqb k name then (k, nodes ++ [nd]) :: rest
      else (k, nodes) :: append rest name nd
  end.

Definition gather (tags : list (string * node)) : list (string * list node) :=
  fold_left (fun infos t => append infos (fst t) (snd t)) tags [].

(** The loop over [infos.items()], with the dictionary [mc_info] and the
    flag [new_section]. *)
Fixpoint treat (infos : list (string * list node))
  (mc_info : list (string * value)) (new_section : bool)
  : M (list (string * value) * bool) :=
  match infos with
  | [] => ret (mc_info, new_section)
  | (tag, nodes) :: rest =>
      if negb (String.eqb tag "LayoutBreak") then
        col <~ (match GetNotes.item tag_to_col tag with
                | Some col => ret col
                | None => raise KeyError
                end) ;;
        f <~ feature_from_node tag nodes ;;
        treat rest (GetNotes.update mc_info col (Feature f)) new_section
      else
        match nodes with
        | [] => raise IndexError
        | nd :: _ =>
            treat rest mc_info
                  (if match subtype nd with
                      | Some s => String.eqb s "section"
                      | None => false
                      end
                   then true else new_section)
        end
  end.

(** [get_measure_infos]; the non-local flag [new_section] is passed in
    and returned. *)
Definition get_measure_infos (new_section : bool) (m : measure)
  : M (list (string * value) * bool) :=
  let mc_info :=
    if new_section
    then [("repeats"%string, Feature (FStr "newSection"))] else [] in
  let mc_info :=
    match len m with
    | Some q => GetNotes.update mc_info "act_dur" (Duration q)
    | None => mc_info
    end in
  treat (gather (tags m)) mc_info false.

(** The loop of the constructor over the measures of a staff: the rows
    that are appended to the frame of the staff. *)
Fixpoint staff_infos (new_section : bool) (measures : list measure)
  : M (list (list (string * value))) :=
  match measures with
  | [] => ret []
  | m :: rest =>
      r <~ get_measure_infos new_section m ;;
      rows <~ staff_infos (snd r) rest ;;
      ret (fst r :: rows)
  end.

(** Whether the first [LayoutBreak] of a measure is a section break. *)
Fixpoint section_break (tags : list (string * node)) : bool :=
  match tags with
  | [] => false
  | (name, nd) :: rest =>
      if String.eqb name "LayoutBreak" then
        match subtype nd with
        | Some s => String.eqb s "section"
        | None => false
        end
      else section_break rest
  end.

(** The nodes gathered under a name. *)
Fixpoint group (infos : list (string * list node)) (name : string)
  : list node :=
  match infos with
  | [] => []
  | (k, nodes) :: rest =>
      if String.eqb k name then nodes else group rest name
  end.

Definition is_section (nd : node) : bool :=
  match subtype nd with
  | Some s => String.eqb s "section"
  | None => false
  end.

Definition repeat_sign (name : string) : bool :=
  String.eqb name "startRepeat" || String.eqb name "endRepeat".

(** An element of which only the subtype matters. *)
Definition a_node (sub : option string) : node :=
  mk_node None None None sub None.

End MeasureInfos.

(* ================================================================== *)
(** * Theorems *)
(* ================================================================== *)

(** ** Facts about [spell_tpc] *)

Module SpellingFacts.
Import Spelling.

Lemma PITCH_NAMES_nth (k : Z) :
  0 <= k < 7 ->
  PITCH_NAMES k = Some (nth (Z.to_nat k) names EmptyString).
Proof.
  intros Hk.
  assert (Hc : k = 0 \/ k = 1 \/ k = 2 \/ k = 3 \/ k = 4 \/ k = 5 \/ k = 6)
    by lia.
  repeat (destruct Hc as [-> | Hc]; [reflexivity | ]); subst; reflexivity.
Qed.

Lemma quotient_sign (t : Z) : (t <? 0) = negb (0 <=? t / 7).
Proof.
  destruct (Z.ltb_spec t 0) as [Hneg | Hpos];
    destruct (Z.leb_spec 0 (t / 7)) as [Hq | Hq]; try reflexivity; exfalso.
  - assert (t / 7 < 0) by (apply Z.div_lt_upper_bound; lia). lia.
  - assert (0 <= t / 7) by (apply Z.div_pos; lia). lia.
Qed.

(** C9.  For every integer [tpc], [spell_tpc] returns (never raising the
    [KeyError] of the name table) the letter at index [(tpc+1) mod 7] of
    F, C, G, D, A, E, B followed by [(tpc+1) // 7] sharp signs when that
    quotient is non-negative and by its absolute value many flat signs
    otherwise. *)
Theorem spell_tpc_spelled (tpc : Z) : spell_tpc tpc = Some (spelled tpc).
Proof.
  unfold spell_tpc, spelled, py_str_mul.
  rewrite PITCH_NAMES_nth by (apply Z.mod_pos_bound; lia).
  rewrite quotient_sign.
  destruct (0 <=? (tpc + 1) / 7); reflexivity.
Qed.

(** ** Different pitch classes have different names *)

Lemma str_repeat_inj (c : ascii) (n m : nat) :
  str_repeat (String c EmptyString) n = str_repeat (String c EmptyString) m ->
  n = m.
Proof.
  revert m; induction n as [|n IH]; intros [|m] H; cbn in H;
    try discriminate; [reflexivity|].
  injection H as H. f_equal. now apply IH.
Qed.

Lemma flats_not_sharps (n m : nat) :
  str_repeat "b" (S n) <> str_repeat "#" m.
Proof. destruct m; cbn; discriminate. Qed.

Lemma PITCH_NAMES_inj (j k : Z) (x y s1 s2 : string) :
  PITCH_NAMES j = Some x -> PITCH_NAMES k = Some y ->
  (x ++ s1)%string = (y ++ s2)%string -> j = k /\ s1 = s2.
Proof.
  intros Hj Hk H.
  destruct j as [|[[[]|[]|]|[[]|[]|]|]|]; try discriminate;
    destruct k as [|[[[]|[]|]|[[]|[]|]|]|]; try discriminate;
    injection Hj as <-; injection Hk as <-; cbn in H;
    try discriminate; injection H as H; split; (reflexivity || assumption).
Qed.

(** X1. [spell_tpc] gives different tonal pitch classes different names:
    two integers are spelled alike only if they are equal. *)
Theorem spell_tpc_injective (a b : Z) : spell_tpc a = spell_tpc b <-> a = b.
Proof.
  split; [|now intros ->].
  unfold spell_tpc, py_str_mul.
  destruct (PITCH_NAMES ((a + 1) mod 7)) as [x|] eqn:Hx.
  2:{ rewrite PITCH_NAMES_nth in Hx by (apply Z.mod_pos_bound; lia).
      discriminate. }
  destruct (PITCH_NAMES ((b + 1) mod 7)) as [y|] eqn:Hy.
  2:{ rewrite PITCH_NAMES_nth in Hy by (apply Z.mod_pos_bound; lia).
      discriminate. }
  intros H. injection H as H.
  destruct (PITCH_NAMES_inj _ _ _ _ _ _ Hx Hy H) as [Hm Hacc].
  assert (Hq : (a + 1) / 7 = (b + 1) / 7).
  { destruct (Z.ltb_spec (a + 1) 0) as [Ha | Ha];
      destruct (Z.ltb_spec (b + 1) 0) as [Hb | Hb].
    - assert ((a + 1) / 7 < 0) by (apply Z.div_lt_upper_bound; lia).
      assert ((b + 1) / 7 < 0) by (apply Z.div_lt_upper_bound; lia).
      apply str_repeat_inj in Hacc. lia.
    - exfalso.
      assert (Hn : (a + 1) / 7 < 0) by (apply Z.div_lt_upper_bound; lia).
      destruct (Z.to_nat (Z.abs ((a + 1) / 7))) as [|n] eqn:E; [lia|].
      exact (flats_not_sharps _ _ Hacc).
    - exfalso.
      assert (Hn : (b + 1) / 7 < 0) by (apply Z.div_lt_upper_bound; lia).
      destruct (Z.to_nat (Z.abs ((b + 1) / 7))) as [|n] eqn:E; [lia|].
      exact (flats_not_sharps _ _ (eq_sym Hacc)).
    - assert (0 <= (a + 1) / 7) by (apply Z.div_pos; lia).
      assert (0 <= (b + 1) / 7) by (apply Z.div_pos; lia).
      apply str_repeat_inj in Hacc. lia. }
  pose proof (Z.div_mod (a + 1) 7 ltac:(lia)).
  pose proof (Z.div_mod (b + 1) 7 ltac:(lia)).
  lia.
Qed.

End SpellingFacts.

(** ** Facts about [feature_from_node] *)

Module FeaturesFacts.
Import Features.

(** C6, as stated, fails: for a [Volta] whose location has only a
    [fractions] element the code returns length 1 and logs nothing, where
    the claim has length 0 and a soft error; with both children the code
    returns one more than the integer of [measures]. *)
Lemma volta_only_fractions_is_one :
  feature_from_node "Volta" [volta_node (mk_location true None)]
    = (Ok (FInt 1), [])
  /\ stated_length (mk_location true None) = 0
  /\ feature_from_node "Volta" [volta_node (mk_location true (Some 2))]
    = (Ok (FInt 3), [])
  /\ stated_length (mk_location true (Some 2)) = 2.
Proof. repeat split. Qed.

(** C6, amended.  For every [Volta] element the extracted length is the
    integer of the [measures] child (0 if absent) plus 1 when a
    [fractions] element is present; the call returns that integer without
    raising, and it logs one error record exactly when the length is 0. *)
Theorem volta_length_extracted (loc : location) :
  feature_from_node "Volta" [volta_node loc]
    = (Ok (FInt (volta_length loc)),
       if volta_length loc =? 0
       then [(ERROR, "Length of volta not specified."%string)] else []).
Proof.
  unfold feature_from_node, volta_feature, volta_length, volta_node; simpl.
  destruct loc as [[|] [m|]]; simpl; try reflexivity.
Qed.

End FeaturesFacts.

(** ** Facts about [compute_mn] *)

Module MeasureNumbersFacts.
Import Series.
Import MeasureNumbers.

Lemma range_lower (b : Z) (n : nat) (x : Z) : In x (range b n) -> b <= x.
Proof.
  revert b; induction n as [|n IH]; simpl; intros b H; [contradiction|].
  destruct H as [<- | H]; [lia | apply IH in H; lia].
Qed.

Lemma labels_where_lower (b : Z) (mask : list bool) (x : Z) :
  In x (labels_where b mask) -> b <= x.
Proof.
  revert b; induction mask as [|m mask IH]; simpl; intros b H.
  - contradiction.
  - destruct m; [destruct H as [<- | H]; [lia|] |]; apply IH in H; lia.
Qed.

Lemma lookup_absent {A : Type} (label : Z) (labels : list Z) (vals : list A) :
  (forall x, In x labels -> label < x) ->
  lookup label (combine labels vals) = None.
Proof.
  revert vals; induction labels as [|k labels IH]; intros vals H; simpl.
  - reflexivity.
  - destruct vals as [|v vals]; simpl; [reflexivity|].
    assert (label < k) by (apply H; now left).
    destruct (Z.eqb_spec k label); [lia|].
    apply IH. intros x Hx. apply H. now right.
Qed.

Lemma reindex_numbers (e : series Z) (b c : Z) :
  let labels := labels_where b (map isna e) in
  reindex (range b (List.length e))
          (combine labels (range c (List.length labels)))
  = number_from c e.
Proof.
  revert b c; induction e as [|x e IH]; intros b c; simpl; [reflexivity|].
  destruct (isna x) eqn:Hx; simpl.
  - rewrite Z.eqb_refl. f_equal.
    rewrite <- (IH (b + 1) (c + 1)). unfold reindex.
    apply map_ext_in. intros l Hl. apply range_lower in Hl.
    cbn [lookup]. destruct (Z.eqb_spec b l); [lia | reflexivity].
  - f_equal.
    + apply lookup_absent. intros l Hl. apply labels_where_lower in Hl. lia.
    + apply (IH (b + 1) c).
Qed.

Lemma ffill_numbers (e : series Z) (c : Z) :
  ffill_from (Some c) (number_from (c + 1) e) = map Some (count_run c e).
Proof.
  revert c; induction e as [|x e IH]; intros c; simpl; [reflexivity|].
  destruct (isna x); simpl; f_equal; apply IH.
Qed.

Lemma ffill_cumsum (off : series Z) (s : Z) :
  ffill_from (Some s) (cumsum_from s off) = map Some (sum_run s off).
Proof.
  revert s; induction off as [|o off IH]; intros s; simpl; [reflexivity|].
  destruct o as [v|]; simpl.
  - f_equal. apply IH.
  - rewrite Z.add_0_r. f_equal. apply IH.
Qed.

Lemma sum_run_all_none (off : series Z) (s : Z) :
  existsb notna off = false -> sum_run s off = map (fun _ => s) off.
Proof.
  revert s; induction off as [|o off IH]; intros s H; simpl in *; [reflexivity|].
  apply orb_false_iff in H. destruct H as [Ho Hoff].
  destruct o; [discriminate|]. simpl. rewrite Z.add_0_r.
  f_equal. now apply IH.
Qed.

Lemma add_somes (a b : list Z) :
  add (map Some a) (map Some b) = map Some (map (fun p => fst p + snd p) (combine a b)).
Proof.
  revert b; induction a as [|x a IH]; intros [|y b]; simpl; try reflexivity.
  f_equal. apply IH.
Qed.

Lemma astype_int_somes (l : list Z) : astype_int (map Some l) = Ok l.
Proof.
  induction l as [|x l IH]; simpl; [reflexivity|]. now rewrite IH.
Qed.

Lemma numbering_runs (rows : list (option Z * option Z)) (c s : Z) :
  numbering c s rows
  = map (fun p => fst p + snd p)
        (combine (count_run c (map fst rows)) (sum_run s (map snd rows))).
Proof.
  revert c s; induction rows as [|[e o] rows IH]; intros c s; simpl;
    [reflexivity|].
  f_equal. apply IH.
Qed.

Lemma numbering_no_offset (e : series Z) (c s : Z) :
  numbering c s (map (fun x => (x, None)) e)
  = map (fun v => v + s) (count_run c e).
Proof.
  revert c; induction e as [|x e IH]; intros c; simpl; [reflexivity|].
  rewrite Z.add_0_r. f_equal. apply IH.
Qed.

Lemma combine_constant (a : list Z) (off : series Z) (s : Z) :
  List.length a = List.length off ->
  map (fun p => fst p + snd p) (combine a (map (fun _ => s) off))
  = map (fun v => v + s) a.
Proof.
  revert off; induction a as [|x a IH]; intros [|o off] H; simpl in *;
    try reflexivity; try discriminate.
  f_equal. apply IH. now injection H.
Qed.

Lemma count_run_length (e : series Z) (c : Z) :
  List.length (count_run c e) = List.length e.
Proof.
  revert c; induction e as [|x e IH]; intros c; simpl; [reflexivity|].
  now rewrite IH.
Qed.

Lemma numbering_length (rows : list (option Z * option Z)) (c s : Z) :
  List.length (numbering c s rows) = List.length rows.
Proof.
  revert c s; induction rows as [|[e o] rows IH]; intros c s; simpl;
    [reflexivity|].
  now rewrite IH.
Qed.

Lemma map_add_zero (l : list Z) : map (fun v => v + 0) l = l.
Proof.
  induction l as [|x l IH]; simpl; [reflexivity|].
  now rewrite Z.add_0_r, IH.
Qed.

Lemma fill_first_numbers (e : series Z) :
  e <> [] ->
  exists s, fill_first (number_from 1 e) = Ok s
            /\ ffill s = map Some (count_run 0 e).
Proof.
  destruct e as [|x e]; [congruence|]. intros _. simpl.
  destruct (isna x); simpl; eexists; (split; [reflexivity|]);
    unfold ffill; simpl; f_equal; apply ffill_numbers.
Qed.

Lemma fill_first_offsets (off : series Z) :
  off <> [] ->
  exists s, fill_first off = Ok s
            /\ ffill (cumsum s) = map Some (sum_run 0 off).
Proof.
  destruct off as [|[v|] off]; [congruence| |]; intros _; simpl;
    eexists; (split; [reflexivity|]); unfold ffill, cumsum; simpl;
    f_equal; apply ffill_cumsum.
Qed.

(** The pipeline of [compute_mn] is the one-pass numbering. *)
Lemma compute_mn_numbering (df : frame) :
  excluded_of df <> [] ->
  compute_mn df
  = Ok (numbering 0 0 (rows_of df), check_mn (numbering 0 0 (rows_of df))).
Proof.
  intros Hne. unfold compute_mn.
  pose proof (reindex_numbers (excluded_of df) 0 1) as Hre.
  cbv zeta in Hre. cbv zeta. rewrite Hre. clear Hre.
  destruct (fill_first_numbers _ Hne) as (s & Hs & Hfill).
  rewrite Hs. cbn [bind]. rewrite Hfill. clear s Hs Hfill.
  destruct df as [e | rows]; cbn [offset_of excluded_of rows_of bind] in *.
  - rewrite astype_int_somes. cbn [bind].
    rewrite numbering_no_offset, map_add_zero. reflexivity.
  - rewrite numbering_runs.
    destruct (existsb notna (map snd rows)) eqn:Hany.
    + assert (Hoff : map snd rows <> []).
      { destruct rows; [now elim Hne | discriminate]. }
      destruct (fill_first_offsets _ Hoff) as (s & Hs & Hfill).
      rewrite Hs. cbn [bind]. rewrite Hfill, add_somes, astype_int_somes.
      reflexivity.
    + cbn [bind]. rewrite astype_int_somes. cbn [bind].
      rewrite (sum_run_all_none _ 0 Hany).
      rewrite combine_constant
        by (rewrite count_run_length; now rewrite !length_map).
      rewrite map_add_zero. reflexivity.
Qed.

Lemma numbering_nth (rows : list (option Z * option Z)) (c s : Z) (i : nat) :
  (i < List.length rows)%nat ->
  nth i (numbering c s rows) 0
  = c + Z.of_nat (List.length (filter isna (firstn (S i) (map fst rows))))
    + (s + fold_right Z.add 0
             (map offset_value (firstn (S i) (map snd rows)))).
Proof.
  revert c s i; induction rows as [|[e o] rows IH]; intros c s i Hi;
    simpl in Hi; [lia|].
  destruct i as [|i].
  - simpl. destruct (isna e); simpl; lia.
  - cbn [numbering nth]. rewrite IH by lia.
    cbn [map fst snd firstn filter fold_right].
    destruct (isna e); cbn [List.length]; lia.
Qed.

Lemma offsets_upto_none (e : series Z) (i : nat) :
  fold_right Z.add 0
    (map offset_value
       (firstn (S i) (map snd (map (fun x : option Z => (x, @None Z)) e)))) = 0.
Proof.
  rewrite map_map. cbn [snd].
  generalize (S i) as k. induction e as [|x e IH]; intros [|k]; simpl;
    try reflexivity.
  apply IH.
Qed.

(** C4.  For every frame with at least one row, [compute_mn] returns
    (without raising) one number per row, and the number of row [i] is
    the count of rows up to and including [i] whose [dont_count] is none,
    plus the sum of the [numbering_offset] values up to and including
    [i], none counting as 0 and an absent column as all none.  The count
    is what ascending integers from 1 on the regular rows give once they
    are forward-filled over excluded rows, with 0 on an excluded first
    row; the sum is the forward-filled cumulative sum. *)
Theorem compute_mn_numbers (df : frame) :
  excluded_of df <> [] ->
  exists mn : list Z,
    compute_mn df = Ok (mn, check_mn mn)
    /\ List.length mn = List.length (excluded_of df)
    /\ forall i : nat,
        (i < List.length mn)%nat ->
        nth i mn 0
        = regular_upto (excluded_of df) i + offsets_upto (offset_of df) i.
Proof.
  intros Hne. exists (numbering 0 0 (rows_of df)).
  split; [now apply compute_mn_numbering|].
  assert (Hlen : List.length (numbering 0 0 (rows_of df))
                 = List.length (excluded_of df)).
  { rewrite numbering_length. destruct df; simpl; now rewrite length_map. }
  split; [exact Hlen|].
  intros i Hi. rewrite numbering_nth by (rewrite numbering_length in Hi; exact Hi).
  unfold regular_upto, offsets_upto.
  destruct df as [e | rows]; cbn [rows_of excluded_of offset_of].
  - rewrite offsets_upto_none. rewrite map_map. cbn [fst]. rewrite map_id. lia.
  - lia.
Qed.

Lemma compute_mn_numbers_witness :
  exists mn : list Z,
    compute_mn docstring_frame = Ok (mn, check_mn mn)
    /\ List.length mn = 5%nat
    /\ forall i : nat,
        (i < List.length mn)%nat ->
        nth i mn 0
        = regular_upto (excluded_of docstring_frame) i
          + offsets_upto (offset_of docstring_frame) i.
Proof.
  apply (compute_mn_numbers docstring_frame). discriminate.
Defined.

Example compute_mn_docstring :
  compute_mn docstring_frame = Ok ([1; 1; 2; 2; 3], []).
Proof. reflexivity. Qed.

Lemma range_spec (b : Z) (k : nat) (x : Z) :
  In x (range b k) <-> b <= x < b + Z.of_nat k.
Proof.
  revert b; induction k as [|k IH]; intros b; cbn [range In].
  - lia.
  - rewrite IH. lia.
Qed.

(** ** Facts about [check_mn] *)

Lemma descending_sorted (x : Z) (rest : list Z) :
  descending x rest = false <-> Sorted Z.le (x :: rest).
Proof.
  revert x; induction rest as [|y rest IH]; intros x; cbn [descending].
  - split; [repeat constructor | reflexivity].
  - rewrite orb_false_iff, IH, Z.ltb_ge. split.
    + intros [Hxy Hs]. constructor; [exact Hs | now constructor].
    + intros Hs. inversion Hs as [|a l Hs' Hhd]; subst.
      inversion Hhd; subst. now split.
Qed.

Lemma fold_max_ge (l : list Z) (x : Z) : x <= fold_left Z.max l x.
Proof.
  revert x; induction l as [|y l IH]; intros x; cbn; [lia|].
  specialize (IH (Z.max x y)). lia.
Qed.

Lemma fold_max_upper (l : list Z) (x m : Z) :
  In m (x :: l) -> m <= fold_left Z.max l x.
Proof.
  revert x; induction l as [|y l IH]; intros x H; cbn.
  - destruct H as [<- | []]. lia.
  - destruct H as [<- | [<- | H]].
    + pose proof (fold_max_ge l (Z.max x y)). lia.
    + pose proof (fold_max_ge l (Z.max x y)). lia.
    + apply IH. now right.
Qed.

Lemma fold_max_In (l : list Z) (x : Z) : In (fold_left Z.max l x) (x :: l).
Proof.
  revert x; induction l as [|y l IH]; intros x; cbn; [now left|].
  destruct (IH (Z.max x y)) as [H | H]; [|now right; right].
  rewrite <- H.
  destruct (Z.max_spec x y) as [[_ E] | [_ E]]; rewrite E;
    [right; left | left]; reflexivity.
Qed.

Lemma missing_none (mn : list Z) :
  mn <> [] ->
  (missing mn = [] <-> forall i m, In m mn -> 1 <= i < m -> In i mn).
Proof.
  intros Hne. destruct mn as [|x l]; [contradiction|].
  unfold missing, highest.
  set (top := fold_left Z.max l x).
  assert (Htop : forall m, In m (x :: l) -> m <= top)
    by (intros; now apply fold_max_upper).
  assert (Hin : In top (x :: l)) by apply fold_max_In.
  split.
  - intros H i m Hm Hi.
    assert (Hr : In i (range 1 (Z.to_nat (top - 1)))).
    { specialize (Htop m Hm).
      apply range_spec. lia. }
    destruct (existsb (Z.eqb i) (x :: l)) eqn:E.
    + apply existsb_exists in E. destruct E as (j & Hj & Hij).
      apply Z.eqb_eq in Hij. now subst.
    + exfalso.
      assert (Hf : In i (filter (fun i => negb (existsb (Z.eqb i) (x :: l)))
                                (range 1 (Z.to_nat (top - 1))))).
      { apply filter_In. split; [exact Hr | now rewrite E]. }
      now rewrite H in Hf.
  - intros H.
    destruct (filter _ _) as [|i rest] eqn:E; [reflexivity|]. exfalso.
    assert (Hf : In i (i :: rest)) by now left.
    rewrite <- E in Hf. apply filter_In in Hf. destruct Hf as [Hr Hn].
    assert (Hb : 1 <= i < top).
    { apply range_spec in Hr. lia. }
    specialize (H i top Hin Hb).
    assert (Hex : existsb (Z.eqb i) (x :: l) = true).
    { apply existsb_exists. exists i. split; [exact H | apply Z.eqb_refl]. }
    now rewrite Hex in Hn.
Qed.

(** X2. On measure numbers that are not empty, [check_mn] logs nothing
    exactly if the numbers never descend and every number from 1 up to
    a number of the series is in the series. *)
Theorem check_mn_silent (mn : list Z) :
  mn <> [] ->
  (check_mn mn = []
   <-> Sorted Z.le mn
       /\ forall i m, In m mn -> 1 <= i < m -> In i mn).
Proof.
  intros Hne. pose proof (missing_none mn Hne) as Hm.
  destruct mn as [|x rest]; [contradiction|].
  unfold check_mn. rewrite <- descending_sorted, <- Hm.
  destruct (descending x rest), (missing (x :: rest)); cbn;
    split; try discriminate; try (intros [? ?]; discriminate); auto.
Qed.

Lemma check_mn_silent_witness :
  check_mn [0; 1; 1; 2; 3] = []
  /\ Sorted Z.le [0; 1; 1; 2; 3]
  /\ check_mn [1; 2; 4] = [(ERROR, "The score has a numbering gap."%string)].
Proof.
  assert (H : check_mn [0; 1; 1; 2; 3] = []) by reflexivity.
  split; [exact H|]. split; [|reflexivity].
  destruct (check_mn_silent [0; 1; 1; 2; 3]) as [Hs _]; [discriminate|].
  exact (proj1 (Hs H)).
Defined.

(** ** Facts about numbers without offsets *)

Lemma count_run_sorted (e : series Z) (c : Z) :
  Sorted Z.le (c :: count_run c e).
Proof.
  revert c; induction e as [|x e IH]; intros c; cbn [count_run].
  - repeat constructor.
  - constructor; [apply IH|]. constructor. destruct (isna x); lia.
Qed.

Lemma count_run_gapless (e : series Z) (c m : Z) :
  In m (count_run c e) ->
  c <= m /\ forall i, c < i <= m -> In i (count_run c e).
Proof.
  revert c; induction e as [|x e IH]; intros c H; [contradiction|].
  cbn [count_run] in *. cbv zeta in *.
  set (c' := if isna x then c + 1 else c) in *.
  assert (Hc : c <= c' <= c + 1) by (unfold c'; destruct (isna x); lia).
  destruct H as [<- | H].
  - split; [lia|]. intros i Hi. left. lia.
  - apply IH in H. destruct H as [Hle Hall]. split; [lia|].
    intros i Hi. destruct (Z.eq_dec i c') as [-> | Hne]; [now left|].
    right. apply Hall. lia.
Qed.

Lemma rows_without_offsets (rows : list (option Z * option Z)) :
  Forall (fun r => snd r = None) rows ->
  rows = map (fun x => (x, None)) (map fst rows).
Proof.
  induction 1 as [|[e o] rows Ho _ IH]; [reflexivity|].
  cbn in *. subst. now rewrite <- IH.
Qed.

(** X3. Where no measure has a numbering offset, [compute_mn]
    returns without a log record: the numbers begin with 1, or with 0
    when the first measure is excluded from the count, they never
    descend, and they leave no gap. *)
Theorem compute_mn_without_offsets (df : frame) :
  excluded_of df <> [] ->
  Forall (fun r => snd r = None) (rows_of df) ->
  exists mn,
    compute_mn df = Ok (mn, [])
    /\ hd 0 mn = (if isna (hd None (excluded_of df)) then 1 else 0)
    /\ Sorted Z.le mn
    /\ forall i m, In m mn -> 1 <= i < m -> In i mn.
Proof.
  intros Hne Hoff.
  assert (Hnum : numbering 0 0 (rows_of df) = count_run 0 (excluded_of df)).
  { rewrite (rows_without_offsets _ Hoff) at 1.
    rewrite numbering_no_offset, map_add_zero. f_equal.
    destruct df as [e | rows]; cbn [rows_of excluded_of].
    - rewrite map_map. cbn [fst]. apply map_id.
    - reflexivity. }
  set (mn := count_run 0 (excluded_of df)) in *.
  assert (Hs : Sorted Z.le mn).
  { pose proof (count_run_sorted (excluded_of df) 0) as H.
    now inversion H. }
  assert (Hg : forall i m, In m mn -> 1 <= i < m -> In i mn).
  { intros i m Hm Hi. apply (count_run_gapless _ 0 m Hm). lia. }
  assert (Hmn : mn <> []).
  { unfold mn. destruct (excluded_of df); [contradiction | discriminate]. }
  exists mn. rewrite (compute_mn_numbering df Hne), Hnum.
  repeat split; try assumption.
  - f_equal. f_equal.
    destruct mn as [|x rest] eqn:E; [contradiction|].
    unfold check_mn.
    assert (Hd : descending x rest = false)
      by now apply descending_sorted.
    assert (Hmiss : missing (x :: rest) = [])
      by (apply missing_none; [discriminate | exact Hg]).
    now rewrite Hd, Hmiss.
  - unfold mn. destruct (excluded_of df) as [|x e]; [contradiction|].
    cbn. destruct (isna x); reflexivity.
Qed.

Lemma compute_mn_without_offsets_witness :
  exists mn,
    compute_mn (OneColumn [Some 1; None; None; Some 1; None]) = Ok (mn, [])
    /\ hd 0 mn = 0
    /\ Sorted Z.le mn
    /\ forall i m, In m mn -> 1 <= i < m -> In i mn.
Proof.
  apply (compute_mn_without_offsets
           (OneColumn [Some 1; None; None; Some 1; None])).
  - discriminate.
  - repeat constructor.
Defined.

End MeasureNumbersFacts.

(** ** Facts about [compute_repeat_structure] *)

Module RepeatStructureFacts.
Import Series.
Import RepeatStructure.

Lemma set_last_app {A : Type} (v : A) (s : series A) (x : option A) :
  set_last v (s ++ [x]) = Ok (s ++ [Some v]).
Proof.
  unfold set_last. rewrite removelast_last.
  destruct s; reflexivity.
Qed.

Lemma mask_of_app (a b : list bool) :
  mask_of (map Some a ++ map Some b) = Ok (a ++ b).
Proof.
  induction a as [|x a IH]; simpl.
  - induction b as [|y b IHb]; simpl; [reflexivity | now rewrite IHb].
  - now rewrite IH.
Qed.

Lemma end_mask_shift (df : list row) :
  df <> [] -> tl (map is_start df) ++ [true] = end_mask df.
Proof.
  induction df as [|r df IH]; [congruence|]. intros _.
  destruct df as [|r' df]; [reflexivity|].
  cbn [map tl end_mask app] in *. f_equal. apply IH. discriminate.
Qed.

Lemma pair_up_masks (df : list row) :
  df <> [] ->
  pair_up df
  = Ok (combine (select (map mc df) (map is_start df))
                (select (map mc df) (end_mask df))).
Proof.
  intros Hne. unfold pair_up.
  rewrite <- (end_mask_shift df Hne).
  destruct df as [|r df]; [congruence|].
  cbn [map shift_back tl]. rewrite set_last_app. cbn [bind].
  change [Some true] with (map Some [true]).
  rewrite (mask_of_app (map is_start df) [true]). reflexivity.
Qed.

Lemma select_starts_tail (t rest : list row) :
  forallb (fun r => negb (is_start r)) t = true ->
  select (map mc (t ++ rest)) (map is_start (t ++ rest))
  = select (map mc rest) (map is_start rest).
Proof.
  induction t as [|x t IH]; intros Ht; [reflexivity|].
  cbn [forallb] in Ht. apply andb_true_iff in Ht. destruct Ht as [Hx Ht].
  cbn [app map select]. apply negb_true_iff in Hx. rewrite Hx. now apply IH.
Qed.

Lemma last_cons {A : Type} (t : list A) (x y : A) :
  last (x :: t) y = last t x.
Proof.
  revert x y; induction t as [|a t IH]; intros x y; [reflexivity|].
  change (last (x :: a :: t) y) with (last (a :: t) y).
  now rewrite !IH.
Qed.

Lemma select_ends_tail (y : row) (t rest : list row) :
  forallb (fun r => negb (is_start r)) t = true ->
  (rest = [] \/ exists h rest', rest = h :: rest' /\ is_start h = true) ->
  select (map mc ((y :: t) ++ rest)) (end_mask ((y :: t) ++ rest))
  = mc (last t y) :: select (map mc rest) (end_mask rest).
Proof.
  revert y; induction t as [|x t IH]; intros y Ht Hrest.
  - destruct Hrest as [-> | (h & rest' & -> & Hh)]; [reflexivity|].
    cbn [app map end_mask select last]. now rewrite Hh.
  - cbn [forallb] in Ht. apply andb_true_iff in Ht. destruct Ht as [Hx Ht].
    apply negb_true_iff in Hx.
    change ((y :: x :: t) ++ rest) with (y :: (x :: t) ++ rest).
    cbn [map end_mask select]. cbn [app]. rewrite Hx.
    change (x :: t ++ rest) with ((x :: t) ++ rest).
    rewrite (IH x Ht Hrest). now rewrite last_cons.
Qed.

Lemma concat_blocks_head (blocks : list (list row)) :
  Forall block blocks ->
  List.concat blocks = []
  \/ exists h rest', List.concat blocks = h :: rest' /\ is_start h = true.
Proof.
  intros H. destruct H as [|b blocks Hb _]; [now left|].
  right. destruct Hb as (h & t & -> & Hh & _).
  exists h, (t ++ List.concat blocks). split; [reflexivity | exact Hh].
Qed.

Lemma selected_blocks (blocks : list (list row)) :
  Forall block blocks ->
  combine (select (map mc (List.concat blocks)) (map is_start (List.concat blocks)))
          (select (map mc (List.concat blocks)) (end_mask (List.concat blocks)))
  = map ends blocks.
Proof.
  induction 1 as [|b blocks Hb Hblocks IH]; [reflexivity|].
  pose proof (concat_blocks_head blocks Hblocks) as Hhead.
  destruct Hb as (h & t & -> & Hh & Ht).
  cbn [List.concat]. rewrite (select_ends_tail h t _ Ht Hhead).
  change ((h :: t) ++ List.concat blocks) with (h :: t ++ List.concat blocks).
  cbn [map select]. rewrite Hh. rewrite (select_starts_tail t _ Ht).
  cbn [combine ends]. now rewrite IH.
Qed.

Lemma reset_index_labels (t : table) (start : Z) :
  Forall (fun r => start <= label r) (reset_index start t)
  /\ StronglySorted (fun a b => label a < label b) (reset_index start t).
Proof.
  revert start; induction t as [|[[m rep] v] t IH]; intros start; cbn.
  - split; constructor.
  - destruct (IH (start + 1)) as [Hlow Hsorted]. split.
    + constructor; [cbn; lia|].
      eapply Forall_impl; [|exact Hlow]. cbn. intros; lia.
    + constructor; [exact Hsorted|].
      eapply Forall_impl; [|exact Hlow]. cbn. intros; lia.
Qed.

Lemma StronglySorted_filter {A : Type} (R : A -> A -> Prop) (p : A -> bool)
  (l : list A) :
  StronglySorted R l -> StronglySorted R (filter p l).
Proof.
  induction 1 as [|x l Hs IH Hx]; cbn; [constructor|].
  destruct (p x); [|exact IH].
  constructor; [exact IH|].
  apply Forall_forall. intros y Hy. apply filter_In in Hy.
  rewrite Forall_forall in Hx. now apply Hx.
Qed.

Lemma StronglySorted_removelast {A : Type} (R : A -> A -> Prop) (l : list A) :
  StronglySorted R l -> StronglySorted R (removelast l).
Proof.
  induction 1 as [|x l Hs IH Hx]; cbn; [constructor|].
  destruct l as [|y l]; [constructor|].
  constructor; [exact IH|].
  apply Forall_forall. intros z Hz.
  rewrite Forall_forall in Hx. apply Hx.
  destruct (exists_last (l := y :: l)) as (l' & a & Heq); [discriminate|].
  rewrite Heq in *. rewrite removelast_last in Hz.
  apply in_or_app. now left.
Qed.

Lemma Forall_removelast {A : Type} (P : A -> Prop) (l : list A) :
  Forall P l -> Forall P (removelast l).
Proof.
  intros H. apply Forall_forall. intros z Hz.
  rewrite Forall_forall in H. apply H.
  destruct l as [|y l]; [contradiction|].
  destruct (exists_last (l := y :: l)) as (l' & a & Heq); [discriminate|].
  rewrite Heq in *. rewrite removelast_last in Hz.
  apply in_or_app. now left.
Qed.

Lemma Forall_filter {A : Type} (P : A -> Prop) (p : A -> bool) (l : list A) :
  Forall P l -> Forall P (filter p l).
Proof.
  intros H. apply Forall_forall. intros z Hz. apply filter_In in Hz.
  rewrite Forall_forall in H. now apply H.
Qed.

Lemma considered_labelled (t : table) (df : list row) :
  considered t = Ok df -> labelled df.
Proof.
  unfold considered. intros H.
  destruct (reset_index_labels t 0) as [Hlow Hsorted].
  set (keep := fun r => notna (repeats r) || notna (volta r)) in *.
  assert (Hl : labelled (filter keep (reset_index 0 t))).
  { split; [now apply StronglySorted_filter | now apply Forall_filter]. }
  destruct (filter keep (reset_index 0 t)) as [|first rest]; [discriminate|].
  destruct (has_mark lastMeasure (last rest first) && isna (volta (last rest first)));
    injection H as <-; [|exact Hl].
  destruct Hl as [Hs Hf].
  split; [exact (StronglySorted_removelast _ _ Hs)
         | exact (Forall_removelast _ _ Hf)].
Qed.

(** On a frame with ascending labels, [drop(index=0)] removes the first
    row, which has to carry the label 0. *)
Lemma drop_label_0_first (first : row) (rest : list row) :
  labelled (first :: rest) ->
  drop_label_0 (first :: rest)
  = if label first =? 0 then Ok rest else Raise KeyError.
Proof.
  intros [Hs Hf]. inversion Hs as [|x l Hs' Hlt]; subst.
  inversion Hf as [|x l H0 Hf']; subst.
  assert (Hrest : forall r, In r rest -> (label r =? 0) = false).
  { intros r Hr. rewrite Forall_forall in Hlt. specialize (Hlt r Hr).
    apply Z.eqb_neq. lia. }
  assert (Hex : existsb (fun r => label r =? 0) rest = false).
  { clear -Hrest. induction rest as [|y rest IH]; [reflexivity|].
    cbn. rewrite (Hrest y) by now left. apply IH.
    intros r Hr. apply Hrest. now right. }
  assert (Hfil : filter (fun r => negb (label r =? 0)) rest = rest).
  { clear -Hrest. induction rest as [|y rest IH]; [reflexivity|].
    cbn. rewrite (Hrest y) by now left. cbn. f_equal. apply IH.
    intros r Hr. apply Hrest. now right. }
  unfold drop_label_0. cbn [existsb filter]. rewrite Hex, Hfil.
  destruct (label first =? 0); reflexivity.
Qed.

Lemma implicit_start_nonempty (df df' : list row) :
  labelled df -> (List.length df <> 1)%nat ->
  implicit_start df = Ok df' -> df' <> [].
Proof.
  intros Hl Hlen H. destruct df as [|first [|r rest]];
    [discriminate | cbn in Hlen; lia |].
  unfold implicit_start in H.
  destruct (has_mark firstMeasure first); [|injection H as <-; discriminate].
  destruct (has_mark endRepeat (first_marked r rest));
    [injection H as <-; discriminate|].
  rewrite (drop_label_0_first _ _ Hl) in H.
  destruct (label first =? 0); [|discriminate].
  injection H as <-. discriminate.
Qed.

(** C3, as stated, fails on the example of the docstring: the pairs of
    the code end at 18 and 25, the rows before the next [startRepeat],
    where the nearest [endRepeat] after 0 is at 17 and the one after 19
    at 23. *)
Lemma docstring_pairs_end_after_endRepeat :
  compute_repeat_structure docstring_table = Ok [(0, 18); (19, 25); (31, 40)]
  /\ (rows <- paired_rows docstring_table ;; Ok (stated_pairs rows))
     = Ok [(0, 17); (19, 23); (31, 40)].
Proof. split; reflexivity. Qed.

(** C3, amended.  After steps 1 and 2, when the considered rows begin
    with a [startRepeat] (so that they fall into blocks, each a
    [startRepeat] row followed by the rows up to the next [startRepeat]),
    the analyzer returns, in document order, one pair per block: the
    measure count of its [startRepeat] and the measure count of its last
    row, that is, of the last considered row before the next
    [startRepeat], or of the last considered row for the final pair. *)
Theorem compute_repeat_structure_blocks
  (t : table) (df : list row) (blocks : list (list row)) :
  considered t = Ok df ->
  (List.length df <> 1)%nat ->
  implicit_start df = Ok (List.concat blocks) ->
  Forall block blocks ->
  compute_repeat_structure t = Ok (map ends blocks).
Proof.
  intros Hdf Hlen Hstart Hblocks.
  unfold compute_repeat_structure. rewrite Hdf. cbn [bind].
  destruct (Nat.eqb_spec (List.length df) 1) as [Heq | _]; [contradiction|].
  rewrite Hstart. cbn [bind].
  rewrite pair_up_masks
    by (eapply implicit_start_nonempty;
        [eapply considered_labelled | |]; eassumption).
  now rewrite selected_blocks.
Qed.

Lemma compute_repeat_structure_blocks_witness :
  compute_repeat_structure docstring_table = Ok (map ends docstring_blocks).
Proof.
  apply (compute_repeat_structure_blocks docstring_table
           (reset_index 0 docstring_table) docstring_blocks).
  - reflexivity.
  - cbn. lia.
  - reflexivity.
  - repeat constructor; eexists; eexists; repeat split.
Defined.

(** ** The order of the pairs *)

Lemma rows_fall_into_blocks (rest pre : list row) (h : row) :
  is_start h = true ->
  forallb (fun r => negb (is_start r)) pre = true ->
  exists blocks,
    h :: pre ++ rest = List.concat blocks /\ Forall block blocks.
Proof.
  revert pre h; induction rest as [|r rest IH]; intros pre h Hh Hpre.
  - exists [h :: pre]. cbn. rewrite !app_nil_r. split; [reflexivity|].
    constructor; [|constructor]. now exists h, pre.
  - destruct (is_start r) eqn:Hr.
    + destruct (IH [] r Hr eq_refl) as (blocks & Hc & Hb).
      exists ((h :: pre) :: blocks). cbn [List.concat]. cbn [app] in Hc.
      rewrite <- Hc. split; [reflexivity|].
      constructor; [now exists h, pre | exact Hb].
    + destruct (IH (pre ++ [r]) h Hh) as (blocks & Hc & Hb).
      { rewrite forallb_app, Hpre. cbn. now rewrite Hr. }
      exists blocks. rewrite <- app_assoc in Hc. split; assumption.
Qed.

Lemma reset_index_mc (t : table) (start : Z) :
  map mc (reset_index start t) = map (fun x => fst (fst x)) t.
Proof.
  revert start; induction t as [|[[m rep] v] t IH]; intros start;
    [reflexivity|].
  cbn. now rewrite IH.
Qed.

Lemma StronglySorted_map_filter {A : Type} (f : A -> Z) (p : A -> bool)
  (l : list A) :
  StronglySorted Z.lt (map f l) -> StronglySorted Z.lt (map f (filter p l)).
Proof.
  induction l as [|x l IH]; intros H; [constructor|].
  cbn in H. inversion H as [|y ys Hs Hall]; subst.
  cbn [filter]. destruct (p x); [|now apply IH].
  cbn [map]. constructor; [now apply IH|].
  rewrite Forall_forall in *. intros y Hy. apply Hall.
  apply in_map_iff in Hy. destruct Hy as (z & <- & Hz).
  apply filter_In in Hz. apply in_map. tauto.
Qed.

Lemma StronglySorted_map_removelast {A : Type} (f : A -> Z) (l : list A) :
  StronglySorted Z.lt (map f l) -> StronglySorted Z.lt (map f (removelast l)).
Proof.
  induction l as [|x l IH]; intros H; [constructor|].
  cbn in H. inversion H as [|y ys Hs Hall]; subst.
  destruct l as [|z l]; [constructor|].
  change (removelast (x :: z :: l)) with (x :: removelast (z :: l)).
  cbn [map]. constructor; [now apply IH|].
  rewrite Forall_forall in *. intros y Hy. apply Hall.
  apply in_map_iff in Hy. destruct Hy as (w & <- & Hw).
  apply in_map. clear -Hw. revert Hw. generalize (z :: l). intros l0.
  induction l0 as [|a [|b l0] IH]; cbn; [tauto | tauto |].
  intros [<- | Hw]; [now left | right; now apply IH].
Qed.

Lemma considered_ascending (t : table) (df : list row) :
  StronglySorted Z.lt (map (fun x => fst (fst x)) t) ->
  considered t = Ok df -> StronglySorted Z.lt (map mc df).
Proof.
  intros Hs. unfold considered.
  set (keep := fun r => notna (repeats r) || notna (volta r)).
  assert (Hf : StronglySorted Z.lt (map mc (filter keep (reset_index 0 t)))).
  { apply StronglySorted_map_filter. now rewrite reset_index_mc. }
  destruct (filter keep (reset_index 0 t)) as [|first rest]; [discriminate|].
  destruct (has_mark lastMeasure (last rest first)
            && isna (volta (last rest first)));
    intros H; injection H as <-; [|exact Hf].
  exact (StronglySorted_map_removelast mc (first :: rest) Hf).
Qed.

Lemma implicit_start_ascending (df df' : list row) :
  StronglySorted Z.lt (map mc df) ->
  implicit_start df = Ok df' -> StronglySorted Z.lt (map mc df').
Proof.
  intros Hs. unfold implicit_start.
  destruct df as [|first rest]; [discriminate|].
  destruct (has_mark firstMeasure first); [|now intros H; injection H as <-].
  destruct rest as [|r rest']; [discriminate|].
  destruct (has_mark endRepeat (first_marked r rest')).
  - intros H; injection H as <-. exact Hs.
  - unfold drop_label_0. destruct (existsb _ _); [|discriminate].
    intros H; injection H as <-.
    exact (StronglySorted_map_filter mc _ (first :: r :: rest') Hs).
Qed.

Lemma blocks_ascending (blocks : list (list row)) (lo : Z) :
  Forall block blocks ->
  StronglySorted Z.lt (lo :: map mc (List.concat blocks)) ->
  ascending_pairs lo (map ends blocks).
Proof.
  revert lo; induction blocks as [|b blocks IH]; intros lo Hb Hs;
    [exact I|].
  inversion Hb as [|x l (h & t & -> & _ & _) Hb']; subst.
  cbn [map ends ascending_pairs List.concat] in *.
  inversion Hs as [|y ys Hs' Hall]; subst.
  rewrite Forall_forall in Hall.
  split; [apply Hall; now left|].
  assert (Hlast : In (last t h) (h :: t)).
  { clear. revert h. induction t as [|a t IH]; intros h; [now left|].
    rewrite last_cons. right. apply IH. }
  split.
  - destruct Hlast as [<- | Hl]; [lia|].
    cbn [app map] in Hs'. inversion Hs' as [|z zs _ Hall']; subst.
    rewrite Forall_forall in Hall'.
    assert (mc h < mc (last t h)); [|lia].
    apply Hall'. rewrite map_app. apply in_or_app. left. now apply in_map.
  - apply IH; [exact Hb'|].
    assert (Hsplit : map mc ((h :: t) ++ List.concat blocks)
                     = map mc (removelast (h :: t))
                       ++ mc (last t h) :: map mc (List.concat blocks)).
    { rewrite map_app.
      rewrite (app_removelast_last h (l := h :: t)) at 1 by discriminate.
      rewrite map_app, <- app_assoc. cbn [map app].
      now rewrite last_cons. }
    change (mc h :: map mc (t ++ List.concat blocks))
      with (map mc ((h :: t) ++ List.concat blocks)) in Hs'.
    rewrite Hsplit in Hs'. clear -Hs'.
    induction (map mc (removelast (h :: t))) as [|a l IHl]; [exact Hs'|].
    apply IHl. cbn [app] in Hs'. now inversion Hs'.
Qed.

(** X4. Where the measure counts of the table ascend and the rows
    that are considered begin, after the treatment of the first measure,
    with a [startRepeat], [compute_repeat_structure] returns one pair for
    every [startRepeat], in the order of the table; a pair ends no
    earlier than it begins, and the next pair begins after it. *)
Theorem repeated_spans_ascend (t : table) (df rest : list row) (h : row) :
  StronglySorted Z.lt (map (fun x => fst (fst x)) t) ->
  considered t = Ok df ->
  (List.length df <> 1)%nat ->
  implicit_start df = Ok (h :: rest) ->
  is_start h = true ->
  exists pairs,
    compute_repeat_structure t = Ok pairs
    /\ map fst pairs = map mc (filter is_start (h :: rest))
    /\ ascending_pairs (mc h - 1) pairs.
Proof.
  intros Hs Hdf Hlen Hstart Hh.
  destruct (rows_fall_into_blocks rest [] h Hh eq_refl)
    as (blocks & Hc & Hb).
  cbn [app] in Hc.
  exists (map ends blocks). split; [|split].
  - unfold compute_repeat_structure. rewrite Hdf. cbn [bind].
    destruct (Nat.eqb_spec (List.length df) 1) as [Heq | _]; [contradiction|].
    rewrite Hstart. cbn [bind].
    rewrite pair_up_masks by discriminate.
    rewrite Hc. now rewrite selected_blocks.
  - rewrite Hc. clear -Hb. induction Hb as [|b blocks (h & t & -> & Hh & Ht) _ IH];
      [reflexivity|].
    cbn [map ends fst List.concat]. rewrite filter_app.
    cbn [filter]. rewrite Hh. cbn [app map]. rewrite IH. f_equal.
    rewrite map_app. 
    assert (E : filter is_start t = []).
    { clear -Ht. induction t as [|a t IH]; [reflexivity|].
      cbn in *. apply andb_true_iff in Ht. destruct Ht as [Ha Ht].
      destruct (is_start a); [discriminate | now apply IH]. }
    now rewrite E.
  - apply blocks_ascending; [exact Hb|]. rewrite <- Hc.
    constructor.
    + eapply implicit_start_ascending; [|exact Hstart].
      eapply considered_ascending; eassumption.
    + apply Forall_forall. intros y Hy.
      assert (Hsorted : StronglySorted Z.lt (map mc (h :: rest))).
      { eapply implicit_start_ascending; [|exact Hstart].
        eapply considered_ascending; eassumption. }
      cbn [map] in *. destruct Hy as [<- | Hy]; [lia|].
      inversion Hsorted as [|z zs _ Hall]; subst.
      rewrite Forall_forall in Hall. specialize (Hall y Hy). lia.
Qed.

Lemma repeated_spans_ascend_witness :
  exists pairs,
    compute_repeat_structure docstring_table = Ok pairs
    /\ map fst pairs = [0; 19; 31]
    /\ ascending_pairs (-1) pairs.
Proof.
  apply (repeated_spans_ascend docstring_table
           (reset_index 0 docstring_table)
           (tl (List.concat docstring_blocks))
           (mk_row 0 0 (Some startRepeat) None)).
  - cbn. repeat constructor.
  - reflexivity.
  - cbn. lia.
  - reflexivity.
  - reflexivity.
Defined.

End RepeatStructureFacts.

(** ** Facts about the frames of the staves *)

Module StavesFacts.
Import Series.
Import Staves.

(** ** Staves of different length *)

Lemma nodup_two (a b : nat) (l : list nat) :
  In a l -> In b l -> a <> b -> (1 < List.length (nodup Nat.eq_dec l))%nat.
Proof.
  intros Ha Hb Hab.
  apply (nodup_In Nat.eq_dec) in Ha, Hb.
  destruct (nodup Nat.eq_dec l) as [|x [|y rest]]; cbn in *;
    [contradiction | | lia].
  destruct Ha as [<- | []], Hb as [<- | []]. congruence.
Qed.

Lemma equals_length (c1 c : series value) :
  equals c1 c = true -> List.length c1 = List.length c.
Proof.
  unfold equals. revert c; induction c1 as [|x c1 IH]; intros [|y c] H;
    cbn in *; try discriminate; [reflexivity|].
  apply andb_true_iff in H. destruct H as [_ H]. f_equal. now apply IH.
Qed.

Lemma compare_same_length (c1 c : series value) :
  List.length c1 = List.length c -> exists l, compare c1 c = (Ok tt, l).
Proof.
  intros Hlen. unfold compare, nan_eq.
  destruct (equals c1 c); [eexists; reflexivity|].
  rewrite Hlen, Nat.eqb_refl. cbn [mbind].
  destruct (existsb _ _); eexists; reflexivity.
Qed.

Lemma compare_other_length (c1 c : series value) :
  List.length c1 <> List.length c -> compare c1 c = (Raise ValueError, []).
Proof.
  intros Hlen. unfold compare, nan_eq.
  destruct (equals c1 c) eqn:Heq; [apply equals_length in Heq; contradiction|].
  apply Nat.eqb_neq in Hlen. now rewrite Hlen.
Qed.

Lemma compare_all_raises (c1 : series value) (others : list (series value)) :
  Exists (fun c => List.length c1 <> List.length c) others ->
  fst (compare_all c1 others) = Raise ValueError.
Proof.
  induction others as [|c others IH]; intros H; [inversion H|].
  cbn [compare_all].
  destruct (Nat.eq_dec (List.length c1) (List.length c)) as [Hsame | Hdiff].
  - destruct (compare_same_length c1 c Hsame) as (l & ->). cbn [mbind].
    inversion H as [? ? Hc | ? ? Hrest]; subst; [contradiction|].
    specialize (IH Hrest). destruct (compare_all c1 others) as [r l'].
    cbn in *. exact IH.
  - now rewrite (compare_other_length c1 c Hdiff).
Qed.

Lemma fst_mbind_raise {A B : Type} (m : M A) (k : A -> M B) (e : exn) :
  fst m = Raise e -> fst (mbind m k) = Raise e.
Proof.
  destruct m as [[a|e'] l]; cbn [fst mbind]; intros H; [discriminate|].
  now injection H as ->.
Qed.

Lemma check_columns_raises (mc_info : list (Z * frame)) :
  (exists s1 s2, In s1 mc_info /\ In s2 mc_info
                 /\ List.length (snd s1) <> List.length (snd s2)) ->
  fst (check_columns (map snd mc_info) cols) = Raise ValueError.
Proof.
  intros (s1 & s2 & H1 & H2 & Hlen).
  unfold cols. cbn [check_columns String.eqb Ascii.eqb Bool.eqb].
  apply fst_mbind_raise.
  destruct mc_info as [|[k0 f0] rest]; [contradiction|].
  cbn [map]. apply compare_all_raises.
  assert (Hother : exists s, In s rest
                             /\ List.length f0 <> List.length (snd s)).
  { destruct (Nat.eq_dec (List.length f0) (List.length (snd s1))) as [E1|N1].
    - exists s2. split; [|congruence].
      destruct H2 as [<- | H2]; [cbn in Hlen; congruence | exact H2].
    - exists s1. split; [|exact N1].
      destruct H1 as [<- | H1]; [cbn in N1; congruence | exact H1]. }
  destruct Hother as (s & Hin & Hdiff).
  apply Exists_exists. exists (column "keysig" (snd s)). split.
  - apply in_map_iff. exists (snd s). split; [reflexivity|].
    apply in_map_iff. now exists s.
  - unfold column. now rewrite !length_map.
Qed.

(** C8.  If two staves of the document have different measure counts,
    the constructor logs the error and does not get past the comparison
    of the columns of the staves: an exception leaves it, so that no
    score is constructed. *)
Theorem different_measure_counts_abort (mc_info : list (Z * frame)) :
  (exists s1 s2, In s1 mc_info /\ In s2 mc_info
                 /\ List.length (snd s1) <> List.length (snd s2)) ->
  (exists e, fst (check_staves mc_info) = Raise e)
  /\ In different_counts (snd (check_staves mc_info)).
Proof.
  intros Hdiff. pose proof (check_columns_raises mc_info Hdiff) as Hraise.
  destruct Hdiff as (s1 & s2 & H1 & H2 & Hlen).
  unfold check_staves.
  rewrite (proj2 (Nat.ltb_lt _ _)
             (nodup_two (List.length (snd s1)) (List.length (snd s2))
                (map (fun kv => List.length (snd kv)) mc_info)
                (in_map _ _ _ H1) (in_map _ _ _ H2) Hlen)).
  cbn [mbind].
  destruct (staff 1 mc_info) as [[|r staff1]|e]; cbn [mbind raise ret].
  - split; [eexists; reflexivity | now left].
  - destruct (check_columns (map snd mc_info) cols) as [[u|e] l];
      cbn in Hraise; [discriminate|].
    cbn. split; [eexists; reflexivity | now left].
  - split; [eexists; reflexivity | now left].
Qed.

Lemma different_measure_counts_abort_witness :
  fst (check_staves uneven_staves) = Raise ValueError
  /\ (exists e, fst (check_staves uneven_staves) = Raise e)
  /\ In different_counts (snd (check_staves uneven_staves)).
Proof.
  split; [reflexivity|].
  apply (different_measure_counts_abort uneven_staves).
  exists (1, [[("timesig"%string, VStr "4/4"); ("voices"%string, VInt 1)];
              [("voices"%string, VInt 1)]]),
         (2, [[("timesig"%string, VStr "4/4"); ("voices"%string, VInt 1)]]).
  split; [now left|]. split; [right; now left|]. cbn. lia.
Defined.

End StavesFacts.

(** ** Facts about the sections of the score *)

Module SectionsFacts.
Import Series RepeatStructure.
Import Sections.

(** ** Sorting *)

Lemma insert_perm (x : Z) (l : list Z) : Permutation (insert x l) (x :: l).
Proof.
  induction l as [|y l IH]; cbn; [reflexivity|].
  destruct (x <=? y); [reflexivity|].
  rewrite IH. apply perm_swap.
Qed.

Lemma sorted_perm (l : list Z) : Permutation (sorted l) l.
Proof.
  induction l as [|x l IH]; cbn; [reflexivity|].
  rewrite insert_perm. now constructor.
Qed.

Lemma insert_sorted (x : Z) (l : list Z) :
  StronglySorted Z.le l -> StronglySorted Z.le (insert x l).
Proof.
  induction 1 as [|y l Hs IH Hy]; cbn; [repeat constructor|].
  destruct (Z.leb_spec x y) as [Hxy | Hxy].
  - constructor; [now constructor|].
    constructor; [exact Hxy|].
    eapply Forall_impl; [|exact Hy]. cbn. intros; lia.
  - constructor; [exact IH|].
    apply Forall_forall. intros z Hz.
    apply (Permutation_in _ (insert_perm x l)) in Hz.
    destruct Hz as [<- | Hz]; [lia|].
    rewrite Forall_forall in Hy. now apply Hy.
Qed.

Lemma sorted_sorted (l : list Z) : StronglySorted Z.le (sorted l).
Proof.
  induction l as [|x l IH]; cbn; [constructor | now apply insert_sorted].
Qed.

Lemma sorted_unique (l1 l2 : list Z) :
  StronglySorted Z.le l1 -> StronglySorted Z.le l2 ->
  Permutation l1 l2 -> l1 = l2.
Proof.
  intros H1; revert l2; induction H1 as [|x l1 Hs1 IH Hx]; intros l2 H2 Hp.
  - apply Permutation_nil in Hp. now subst.
  - destruct H2 as [|y l2 Hs2 Hy].
    + apply Permutation_sym, Permutation_nil in Hp. discriminate.
    + assert (Hxy : x = y).
      { assert (Hin1 : In x (y :: l2))
          by (apply (Permutation_in _ Hp); now left).
        assert (Hin2 : In y (x :: l1))
          by (apply (Permutation_in _ (Permutation_sym Hp)); now left).
        rewrite Forall_forall in Hx, Hy.
        destruct Hin1 as [-> | Hin1]; [reflexivity|].
        destruct Hin2 as [-> | Hin2]; [reflexivity|].
        specialize (Hx _ Hin2). specialize (Hy _ Hin1). lia. }
      subst y. f_equal. apply IH; [exact Hs2|].
      now apply Permutation_cons_inv in Hp.
Qed.

Lemma sorted_eq (l l' : list Z) :
  Sorted Z.le l' -> Permutation l l' -> sorted l = l'.
Proof.
  intros Hs Hp. apply sorted_unique.
  - apply sorted_sorted.
  - apply Sorted_StronglySorted; [|exact Hs]. intros a b c; apply Z.le_trans.
  - now rewrite sorted_perm.
Qed.

Lemma tiles_app (a m b : Z) (l1 l2 : list (Z * Z)) :
  tiles a l1 m -> tiles (m + 1) l2 b -> tiles a (l1 ++ l2) b.
Proof.
  revert a; induction l1 as [|sec l1 IH]; intros a H1 H2; cbn in *.
  - subst m. now replace (a - 1 + 1) with a in H2 by lia.
  - destruct H1 as (Hf & Hle & H1). repeat split; try assumption.
    now apply IH.
Qed.

Lemma tiles_upper (a b : Z) (secs : list (Z * Z)) :
  tiles a secs b -> a - 1 <= b.
Proof.
  revert a; induction secs as [|sec secs IH]; intros a H; cbn in H.
  - lia.
  - destruct H as (_ & Hle & H). apply IH in H. lia.
Qed.

Lemma tiles_within (a b : Z) (secs : list (Z * Z)) (sec : Z * Z) (mc : Z) :
  tiles a secs b -> In sec secs -> covers sec mc -> a <= mc <= b.
Proof.
  revert a; induction secs as [|s secs IH]; intros a H Hin Hc; cbn in H.
  - contradiction.
  - destruct H as (Hf & Hle & H). pose proof (tiles_upper _ _ _ H) as Hu.
    destruct Hin as [-> | Hin].
    + unfold covers in Hc. lia.
    + specialize (IH _ H Hin Hc). lia.
Qed.

Lemma tiles_covered (a b : Z) (secs : list (Z * Z)) (mc : Z) :
  tiles a secs b -> a <= mc <= b ->
  exists k sec, nth_error secs k = Some sec /\ covers sec mc.
Proof.
  revert a; induction secs as [|s secs IH]; intros a H Hmc; cbn in H.
  - lia.
  - destruct H as (Hf & Hle & H).
    destruct (Z_le_gt_dec mc (snd s)) as [Hin | Hout].
    + exists 0%nat, s. split; [reflexivity|]. unfold covers. lia.
    + destruct (IH _ H) as (k & sec & Hk & Hc); [lia|].
      exists (S k), sec. now split.
Qed.

Lemma tiles_once (a b : Z) (secs : list (Z * Z)) (mc : Z)
  (k k' : nat) (sec sec' : Z * Z) :
  tiles a secs b ->
  nth_error secs k = Some sec -> covers sec mc ->
  nth_error secs k' = Some sec' -> covers sec' mc ->
  k = k'.
Proof.
  revert a k k'; induction secs as [|s secs IH]; intros a k k' H Hk Hc Hk' Hc';
    cbn in H.
  - destruct k; discriminate.
  - destruct H as (Hf & Hle & H).
    destruct k as [|k], k' as [|k']; cbn in Hk, Hk'.
    + reflexivity.
    + injection Hk as <-. apply nth_error_In in Hk'.
      pose proof (tiles_within _ _ _ _ _ H Hk' Hc'). unfold covers in Hc. lia.
    + injection Hk' as <-. apply nth_error_In in Hk.
      pose proof (tiles_within _ _ _ _ _ H Hk Hc). unfold covers in Hc'. lia.
    + f_equal. eapply IH; eassumption.
Qed.

Lemma within_weaken (lo lo' hi : Z) (bs : list Z) :
  lo <= lo' -> within lo' bs hi -> within lo bs hi.
Proof.
  destruct bs as [|b bs]; cbn; [trivial|]. intros Hlo [Hb Hrest].
  split; [lia | exact Hrest].
Qed.

Lemma interleave_perm (bs : list Z) :
  Permutation (bs ++ map (fun i => i + 1) bs) (interleave bs).
Proof.
  induction bs as [|b bs IH]; cbn; [reflexivity|].
  constructor. rewrite <- IH. symmetry. apply Permutation_middle.
Qed.

Lemma bounds_perm (fro to : Z) (bs : list Z) :
  Permutation ([fro; to] ++ bs ++ map (fun i => i + 1) bs)
              (fro :: interleave bs ++ [to]).
Proof.
  cbn. constructor. rewrite interleave_perm.
  apply Permutation_cons_append.
Qed.

Lemma bounds_sorted (fro to : Z) (bs : list Z) :
  fro <= to -> within fro bs to ->
  Sorted Z.le (fro :: interleave bs ++ [to]).
Proof.
  revert fro; induction bs as [|b bs IH]; intros fro Hle Hw; cbn in *.
  - repeat constructor. exact Hle.
  - destruct Hw as [Hb Hw].
    constructor; [|constructor; lia].
    constructor; [|constructor; lia].
    apply IH; [lia | exact Hw].
Qed.

Lemma pairs_of_bounds (fro to : Z) (bs : list Z) :
  pairs_of (fro :: interleave bs ++ [to]) = chain fro bs to.
Proof.
  revert fro; induction bs as [|b bs IH]; intros fro; cbn; [reflexivity|].
  f_equal. apply IH.
Qed.

Lemma chain_tiles (fro to : Z) (bs : list Z) :
  fro <= to -> within fro bs to -> tiles fro (chain fro bs to) to.
Proof.
  revert fro; induction bs as [|b bs IH]; intros fro Hle Hw; cbn in *.
  - repeat split; lia.
  - destruct Hw as [Hb Hw]. repeat split; try lia.
    apply IH; [lia | exact Hw].
Qed.

(** The split points of a call ascend strictly between [fro] and [to]. *)
Lemma split_rows_within (info : frame) (seps : list string)
  (fro to start : Z) :
  within (Z.max start (fro + 1))
    (map fst
       (flat_map
          (fun ir : Z * info_row =>
             if (fro + 1 <=? fst ir) && (fst ir <=? to - 1) then
               match info_barline (snd ir) with
               | Some b =>
                   if Features.mem_string b seps then [(fst ir, b)] else []
               | None => []
               end
             else [])
          (indexed start info)))
    to.
Proof.
  revert start; induction info as [|x info IH]; intros start; cbn;
    [trivial|].
  specialize (IH (start + 1)).
  assert (Hskip :
    within (Z.max start (fro + 1))
      (map fst
         (flat_map
            (fun ir : Z * info_row =>
               if (fro + 1 <=? fst ir) && (fst ir <=? to - 1) then
                 match info_barline (snd ir) with
                 | Some b =>
                     if Features.mem_string b seps then [(fst ir, b)] else []
                 | None => []
                 end
               else [])
            (indexed (start + 1) info)))
      to).
  { eapply within_weaken; [|exact IH]. lia. }
  destruct ((fro + 1 <=? start) && (start <=? to - 1)) eqn:Hin;
    [|exact Hskip].
  destruct (info_barline x) as [b|]; [|exact Hskip].
  destruct (Features.mem_string b seps); [|exact Hskip].
  apply andb_true_iff in Hin. destruct Hin as [H1 H2].
  apply Z.leb_le in H1, H2.
  cbn. split; [lia|].
  eapply within_weaken; [|exact IH]. lia.
Qed.

Lemma subsection_ranges_tiles (info : frame) (seps : list string)
  (fro to : Z) :
  fro <= to -> tiles fro (subsection_ranges info seps fro to) to.
Proof.
  intros Hle. unfold subsection_ranges.
  pose proof (split_rows_within info seps fro to 0) as Hw.
  fold (split_rows info seps fro to) in Hw.
  destruct (split_rows info seps fro to) as [|sp splits] eqn:Hsplit.
  - cbn. repeat split; lia.
  - remember (map fst (sp :: splits)) as bs eqn:Hbs.
    assert (Hw' : within fro bs to) by (eapply within_weaken; [|exact Hw]; lia).
    rewrite (sorted_eq _ (fro :: interleave bs ++ [to])).
    + rewrite pairs_of_bounds. now apply chain_tiles.
    + now apply bounds_sorted.
    + apply bounds_perm.
Qed.

Lemma subsection_ranges_reversed (info : frame) (seps : list string)
  (fro to : Z) :
  to < fro -> subsection_ranges info seps fro to = [(fro, to)].
Proof.
  intros Hlt. unfold subsection_ranges.
  pose proof (split_rows_within info seps fro to 0) as Hw.
  fold (split_rows info seps fro to) in Hw.
  destruct (split_rows info seps fro to) as [|sp splits]; [reflexivity|].
  cbn in Hw. lia.
Qed.

Lemma create_section_structure (info : frame) (seps : list string)
  (fro to : Z) (rep : bool) (st st' : state) :
  create_section info seps fro to rep st = Ok st' ->
  section_structure st'
  = section_structure st ++ subsection_ranges info seps fro to
  /\ last_to st' = to.
Proof.
  unfold create_section. intros H.
  destruct (repeats_at info fro); [|discriminate].
  destruct (repeats_at info to); [|discriminate].
  cbn [bind] in H. injection H as <-. split; reflexivity.
Qed.

Lemma section_column_owner (secs : list (Z * Z)) (s : Z)
  (col : list (Z * option Z)) :
  section_column secs s col
  = map (fun c => (fst c, owner secs s (fst c) (snd c))) col.
Proof.
  revert s col; induction secs as [|[fro to] secs IH]; intros s col; cbn.
  - rewrite <- (map_id col) at 1. apply map_ext. now intros [mc v].
  - rewrite IH, map_map. reflexivity.
Qed.

Lemma owner_spec (secs : list (Z * Z)) (s mc k : Z) (old : option Z) :
  owner secs s mc old = Some k ->
  (old = Some k
   /\ forall (j : nat) (sec' : Z * Z),
        nth_error secs j = Some sec' -> ~ covers sec' mc)
  \/ exists (i : nat) (sec : Z * Z),
       nth_error secs i = Some sec /\ k = s + Z.of_nat i /\ covers sec mc
       /\ forall (j : nat) (sec' : Z * Z),
            (i < j)%nat -> nth_error secs j = Some sec' -> ~ covers sec' mc.
Proof.
  revert s old; induction secs as [|[fro to] secs IH]; intros s old H; cbn in H.
  - left. split; [exact H|]. intros [|j] sec' Hj; discriminate.
  - apply IH in H.
    destruct H as [[H Hnone] | (i & sec & Hi & Hk & Hc & Hlater)].
    + destruct ((fro <=? mc) && (mc <=? to)) eqn:Hin.
      * right. exists 0%nat, (fro, to). injection H as <-.
        apply andb_true_iff in Hin. destruct Hin as [H1 H2].
        apply Z.leb_le in H1, H2.
        repeat split; cbn; try lia.
        intros [|j] sec' Hj Hnth; [lia|]. cbn in Hnth. now apply (Hnone j).
      * left. split; [exact H|].
        intros [|j] sec' Hnth; cbn in Hnth.
        -- injection Hnth as <-. unfold covers; cbn. intros [H1 H2].
           apply Z.leb_le in H1, H2. rewrite H1, H2 in Hin. discriminate.
        -- now apply (Hnone j).
    + right. exists (S i), sec.
      split; [exact Hi | split; [lia | split; [exact Hc|]]].
      intros [|j] sec' Hj Hnth; [lia|]. cbn in Hnth.
      apply (Hlater j); [lia | exact Hnth].
Qed.

Lemma range_In (start : Z) (n k : nat) :
  (k < n)%nat -> In (start + Z.of_nat k) (range start n).
Proof.
  revert start k; induction n as [|n IH]; intros start k Hk; [lia|].
  destruct k as [|k]; cbn [range].
  - left. cbn. lia.
  - right. replace (start + Z.of_nat (S k)) with (start + 1 + Z.of_nat k) by lia.
    apply IH. lia.
Qed.

Lemma checked_kept (secs : list (Z * Z)) (n : nat) :
  forallb
    (fun s =>
       existsb (holds s)
         (section_column secs 0 (map (fun mc => (mc, None)) (range 0 n))))
    (range 0 (List.length secs)) = true ->
  kept secs.
Proof.
  intros Hall k sec Hk.
  rewrite forallb_forall in Hall.
  assert (Hlt : (k < List.length secs)%nat)
    by (apply nth_error_Some; congruence).
  specialize (Hall _ (range_In 0 _ _ Hlt)).
  apply existsb_exists in Hall. destruct Hall as ([mc v] & Hin & Hholds).
  rewrite section_column_owner in Hin. apply in_map_iff in Hin.
  destruct Hin as ([mc0 v0] & Heq & Hin0). cbn in Heq.
  injection Heq as -> <-.
  apply in_map_iff in Hin0. destruct Hin0 as (mc1 & Heq1 & _).
  injection Heq1 as -> <-.
  unfold holds in Hholds. cbn in Hholds.
  destruct (owner secs 0 mc None) as [s'|] eqn:Hown; [|discriminate].
  apply Z.eqb_eq in Hholds. subst s'.
  apply owner_spec in Hown.
  destruct Hown as [[Habs _] | (i & sec0 & Hi & Hki & Hc & Hlater)];
    [discriminate|].
  assert (i = k) by lia. subst i.
  rewrite Hk in Hi. injection Hi as <-.
  exists mc. split; assumption.
Qed.

Lemma kept_nonempty (secs : list (Z * Z)) (sec : Z * Z) :
  kept secs -> In sec secs -> fst sec <= snd sec.
Proof.
  intros Hkept Hin. apply In_nth_error in Hin. destruct Hin as (k & Hk).
  destruct (Hkept _ _ Hk) as (mc & Hc & _). unfold covers in Hc. lia.
Qed.

(** ** The loop over the repeated spans *)

Lemma create_section_tiles (info : frame) (seps : list string)
  (fro to : Z) (rep : bool) (st st' : state) :
  create_section info seps fro to rep st = Ok st' ->
  (forall sec, In sec (section_structure st') -> fst sec <= snd sec) ->
  tiles 0 (section_structure st) (fro - 1) ->
  tiles 0 (section_structure st') to /\ last_to st' = to /\ fro <= to
  /\ section_structure st' <> [].
Proof.
  intros Hcreate Hnonempty Htiles.
  apply create_section_structure in Hcreate. destruct Hcreate as [Hsecs Hlast].
  assert (Hle : fro <= to).
  { destruct (Z_le_gt_dec fro to) as [Hle | Hgt]; [exact Hle|].
    rewrite subsection_ranges_reversed in Hsecs by lia.
    specialize (Hnonempty (fro, to)). cbn in Hnonempty. apply Hnonempty.
    rewrite Hsecs. apply in_or_app. right. now left. }
  pose proof (subsection_ranges_tiles info seps fro to Hle) as Hnew.
  repeat split; try assumption.
  - rewrite Hsecs. eapply tiles_app; [exact Htiles|].
    now replace (fro - 1 + 1) with fro by lia.
  - rewrite Hsecs. destruct (subsection_ranges info seps fro to);
      [cbn in Hnew; lia|].
    now destruct (section_structure st).
Qed.

Lemma repeated_sections_extends (info : frame) (seps : list string)
  (ps : list (Z * Z)) (st st' : state) :
  repeated_sections info seps ps st = Ok st' ->
  exists more, section_structure st' = section_structure st ++ more.
Proof.
  revert st; induction ps as [|[fro to] ps IH]; intros st H; cbn in H.
  - injection H as <-. exists []. now rewrite app_nil_r.
  - destruct (fro =? last_to st + 1).
    + cbn [bind] in H.
      destruct (create_section info seps fro to true st) as [st2|] eqn:H2;
        [|discriminate].
      cbn [bind] in H. apply IH in H. destruct H as (more & Hmore).
      apply create_section_structure in H2. destruct H2 as [H2 _].
      rewrite Hmore, H2, <- app_assoc. eauto.
    + destruct (create_section info seps (last_to st + 1) (fro - 1) false st)
        as [st1|] eqn:H1; [|discriminate].
      cbn [bind] in H.
      destruct (create_section info seps fro to true st1) as [st2|] eqn:H2;
        [|discriminate].
      cbn [bind] in H. apply IH in H. destruct H as (more & Hmore).
      apply create_section_structure in H1, H2.
      destruct H1 as [H1 _], H2 as [H2 _].
      rewrite Hmore, H2, H1, <- !app_assoc. eauto.
Qed.

Lemma final_to_cons (p q : Z * Z) (ps : list (Z * Z)) :
  final_to (p :: q :: ps) = final_to (q :: ps).
Proof. reflexivity. Qed.

Lemma repeated_sections_tiles (info : frame) (seps : list string)
  (ps : list (Z * Z)) (st st' : state) :
  repeated_sections info seps ps st = Ok st' ->
  (forall sec, In sec (section_structure st') -> fst sec <= snd sec) ->
  tiles 0 (section_structure st) (last_to st) ->
  tiles 0 (section_structure st') (last_to st')
  /\ (ps <> [] ->
      last_to st' = final_to ps /\ section_structure st' <> []).
Proof.
  revert st; induction ps as [|[fro to] ps IH]; intros st H Hnonempty Htiles;
    cbn in H.
  - injection H as <-. split; [exact Htiles | congruence].
  - assert (Hfirst : exists st1,
              (if fro =? last_to st + 1 then Ok st
               else create_section info seps (last_to st + 1) (fro - 1)
                                   false st) = Ok st1).
    { destruct (if fro =? last_to st + 1 then Ok st
                else create_section info seps (last_to st + 1) (fro - 1)
                                    false st) as [st1|]; [eauto | discriminate]. }
    destruct Hfirst as (st1 & H1). rewrite H1 in H. cbn [bind] in H.
    destruct (create_section info seps fro to true st1) as [st2|] eqn:H2;
      [|discriminate].
    cbn [bind] in H.
    destruct (repeated_sections_extends _ _ _ _ _ H) as (more & Hmore).
    assert (Hnonempty2 :
      forall sec, In sec (section_structure st2) -> fst sec <= snd sec).
    { intros sec Hin. apply Hnonempty. rewrite Hmore.
      apply in_or_app. now left. }
    assert (Htiles1 : tiles 0 (section_structure st1) (fro - 1)).
    { destruct (Z.eqb_spec fro (last_to st + 1)) as [Heq | Hne].
      - injection H1 as <-. now replace (fro - 1) with (last_to st) by lia.
      - assert (Hnonempty1 :
          forall sec, In sec (section_structure st1) -> fst sec <= snd sec).
        { intros sec Hin. apply Hnonempty2.
          apply create_section_structure in H2. destruct H2 as [H2 _].
          rewrite H2. apply in_or_app. now left. }
        eapply create_section_tiles in H1; [|exact Hnonempty1|].
        + tauto.
        + now replace (last_to st + 1 - 1) with (last_to st) by lia. }
    destruct (create_section_tiles _ _ _ _ _ _ _ H2 Hnonempty2 Htiles1)
      as (Htiles2 & Hlast2 & Hle & Hne2).
    rewrite <- Hlast2 in Htiles2.
    destruct (IH _ H Hnonempty Htiles2) as [Hfinal Hto].
    split; [exact Hfinal|]. intros _.
    destruct ps as [|q ps].
    + cbn in H. injection H as <-. split; [exact Hlast2 | exact Hne2].
    + rewrite final_to_cons. apply Hto. discriminate.
Qed.

(** ** The section structure of a constructed score *)

Lemma tiles_single (secs : list (Z * Z)) :
  secs <> [] -> tiles 0 secs 0 -> secs = [(0, 0)].
Proof.
  destruct secs as [|[f t] rest]; [congruence|]. intros _ H. cbn in H.
  destruct H as (Hf & Hle & H). pose proof (tiles_upper _ _ _ H) as Hu.
  assert (t = 0) by lia. subst f t.
  destruct rest as [|[f' t'] rest]; [reflexivity|].
  cbn in H. destruct H as (Hf' & Hle' & H).
  apply tiles_upper in H. lia.
Qed.

Lemma tiles_nonempty_lower (a b : Z) (secs : list (Z * Z)) :
  secs <> [] -> tiles a secs b -> a <= b.
Proof.
  destruct secs as [|sec rest]; [congruence|]. intros _ H. cbn in H.
  destruct H as (_ & Hle & H). apply tiles_upper in H. lia.
Qed.

Lemma build_sections_tiles (info : frame) (seps : list string) (st : state) :
  build_sections info seps = Ok st ->
  tiles 0 (section_structure st) (Z.of_nat (List.length info) - 1).
Proof.
  unfold build_sections. intros H.
  destruct info as [|x info']; [discriminate|].
  remember (x :: info') as info eqn:Hinfo.
  assert (Hlast : 0 <= Z.of_nat (List.length info) - 1)
    by (subst info; cbn [List.length]; lia).
  remember (Z.of_nat (List.length info) - 1) as last_node eqn:Hnode.
  destruct (compute_repeat_structure (repeats_volta info)) as [ps|];
    [|discriminate].
  cbn [bind] in H.
  destruct (repeated_sections info seps ps initial) as [st1|] eqn:Hloop;
    [|discriminate].
  cbn [bind] in H.
  destruct (if final_to ps =? last_node then Ok st1
            else create_section info seps
                   (if 0 <? final_to ps then final_to ps + 1 else 0)
                   last_node false st1) as [st2|] eqn:Htrail; [|discriminate].
  cbn [bind] in H.
  destruct (section_structure st2) as [|sec0 secs0] eqn:Hsecs; [discriminate|].
  rewrite <- Hsecs in H.
  destruct (forallb _ _) eqn:Hcheck in H; [|discriminate].
  injection H as <-.
  apply checked_kept in Hcheck.
  assert (Hnonempty2 :
    forall sec, In sec (section_structure st2) -> fst sec <= snd sec)
    by (intros sec Hin; now apply (kept_nonempty _ _ Hcheck)).
  destruct (Z.eqb_spec (final_to ps) last_node) as [Hto | Hto].
  - (* the last repeated span ends the score *)
    injection Htrail as <-.
    destruct (repeated_sections_tiles _ _ _ _ _ Hloop Hnonempty2)
      as [Htiles Hps]; [cbn; lia|].
    destruct ps as [|p ps].
    + cbn in Hloop. injection Hloop as <-. discriminate.
    + destruct Hps as [Hps _]; [discriminate|].
      now rewrite Hps, Hto in Htiles.
  - (* a last section without repeat follows *)
    pose proof (create_section_structure _ _ _ _ _ _ _ Htrail) as [Hstruct _].
    assert (Hnonempty1 :
      forall sec, In sec (section_structure st1) -> fst sec <= snd sec).
    { intros sec Hin. apply Hnonempty2. rewrite Hstruct.
      apply in_or_app. now left. }
    destruct (repeated_sections_tiles _ _ _ _ _ Hloop Hnonempty1)
      as [Htiles Hps]; [cbn; lia|].
    destruct ps as [|p ps].
    + cbn in Hloop. injection Hloop as <-.
      change (final_to []) with 0 in Htrail. cbn [Z.ltb Z.compare] in Htrail.
      eapply create_section_tiles in Htrail; [|exact Hnonempty2|cbn; lia].
      tauto.
    + destruct Hps as [Hps Hne1]; [discriminate|].
      rewrite Hps in Htiles.
      pose proof (tiles_nonempty_lower _ _ _ Hne1 Htiles) as Hge.
      destruct (Z.ltb_spec 0 (final_to (p :: ps))) as [Hpos | Hzero].
      * eapply create_section_tiles in Htrail; [|exact Hnonempty2|].
        -- tauto.
        -- now replace (final_to (p :: ps) + 1 - 1)
             with (final_to (p :: ps)) by lia.
      * (* a span that ends at measure 0: the section written over it
           keeps no measure *)
        exfalso.
        assert (Hz : final_to (p :: ps) = 0) by lia.
        rewrite Hz in Htiles.
        pose proof (tiles_single _ Hne1 Htiles) as Hone.
        pose proof (subsection_ranges_tiles info seps 0 last_node Hlast)
          as Hnew.
        rewrite Hone in Hstruct.
        destruct (subsection_ranges info seps 0 last_node)
          as [|[f t] more]; [cbn in Hnew; lia|].
        cbn in Hnew. destruct Hnew as (Hf & Hle & _). subst f.
        destruct (Hcheck 0%nat (0, 0)) as (mc & Hc & Hlater);
          [now rewrite Hstruct|].
        apply (Hlater 1%nat (0, t)); [lia | now rewrite Hstruct |].
        unfold covers in *. cbn in *. lia.
Qed.

(** C5.  When the section structure of a score is built without an
    exception, its inclusive ranges partition the measure counts from 0 to
    the last one: every measure count lies in the range of one section, in
    no range of another section, and no range holds anything else. *)
Theorem sections_partition (info : frame) (seps : list string) (st : state) :
  build_sections info seps = Ok st ->
  (forall mc : Z,
      0 <= mc <= Z.of_nat (List.length info) - 1 ->
      exists (k : nat) (sec : Z * Z),
        nth_error (section_structure st) k = Some sec /\ covers sec mc
        /\ forall (k' : nat) (sec' : Z * Z),
             nth_error (section_structure st) k' = Some sec' ->
             covers sec' mc -> k' = k)
  /\ (forall (sec : Z * Z) (mc : Z),
         In sec (section_structure st) -> covers sec mc ->
         0 <= mc <= Z.of_nat (List.length info) - 1).
Proof.
  intros H. apply build_sections_tiles in H. split.
  - intros mc Hmc.
    destruct (tiles_covered _ _ _ _ H Hmc) as (k & sec & Hk & Hc).
    exists k, sec. repeat split; try assumption; try apply Hc.
    intros k' sec' Hk' Hc'. eapply tiles_once; eassumption.
  - intros sec mc Hin Hc. eapply tiles_within; eassumption.
Qed.

Lemma sections_partition_witness :
  section_structure separated_repeat_score = [(0, 10); (11, 20)]
  /\ (forall mc : Z,
         0 <= mc <= 20 ->
         exists (k : nat) (sec : Z * Z),
           nth_error (section_structure separated_repeat_score) k = Some sec
           /\ covers sec mc
           /\ forall (k' : nat) (sec' : Z * Z),
                nth_error (section_structure separated_repeat_score) k'
                = Some sec' ->
                covers sec' mc -> k' = k)
  /\ (forall (sec : Z * Z) (mc : Z),
         In sec (section_structure separated_repeat_score) ->
         covers sec mc -> 0 <= mc <= 20).
Proof.
  split; [reflexivity|].
  apply (sections_partition separated_repeat ["double"%string]
           separated_repeat_score).
  vm_compute. reflexivity.
Defined.

(** ** The dictionaries of a constructed score *)

Import MeasureNumbersFacts.

Lemma pairs_of_length {A : Type} (m : nat) (l : list A) :
  List.length l = (2 * m)%nat -> List.length (pairs_of l) = m.
Proof.
  revert l; induction m as [|m IH]; intros l H.
  - destruct l; [reflexivity | discriminate].
  - destruct l as [|a [|b l]]; try (cbn in H; lia).
    cbn [pairs_of List.length]. f_equal. apply IH. cbn in H. lia.
Qed.

Lemma subsections_count (info : frame) (seps : list string)
  (fro to : Z) (start_reason end_reason : string) :
  List.length (subsection_ranges info seps fro to)
  = S (List.length (split_rows info seps fro to))
  /\ List.length (subsection_reasons info seps fro to start_reason end_reason)
     = S (List.length (split_rows info seps fro to)).
Proof.
  unfold subsection_ranges, subsection_reasons.
  destruct (split_rows info seps fro to) as [|s splits] eqn:E;
    [split; reflexivity|].
  set (l := s :: splits). split; apply pairs_of_length.
  - rewrite (Permutation_length (sorted_perm _)).
    rewrite !length_app, !length_map. cbn [List.length]. lia.
  - rewrite !length_app. cbn [List.length].
    assert (H : forall X (b : list X),
              List.length (flat_map (fun r => [r; r]) b)
              = (2 * List.length b)%nat).
    { intros X b. induction b as [|r b IH]; [reflexivity|].
      cbn [flat_map List.length app]. rewrite IH. lia. }
    rewrite H, length_map. lia.
Qed.

Lemma build_sections_invariant (P : state -> Prop) (info : frame)
  (seps : list string) :
  P initial ->
  (forall fro to rep st st',
      P st -> create_section info seps fro to rep st = Ok st' -> P st') ->
  forall st, build_sections info seps = Ok st -> P st.
Proof.
  intros Hinit Hstep st H. unfold build_sections in H.
  destruct info as [|r info]; [discriminate|].
  set (frame := r :: info) in *.
  destruct (compute_repeat_structure (repeats_volta frame)) as [ps|];
    [|discriminate].
  cbn [bind] in H.
  assert (Hloop : forall ps st0 st1,
            P st0 -> repeated_sections frame seps ps st0 = Ok st1 -> P st1).
  { clear -Hstep. induction ps as [|[fro to] ps IH]; intros st0 st1 H0 H;
      cbn in H.
    - now injection H as <-.
    - destruct (fro =? last_to st0 + 1).
      + cbn [bind] in H.
        destruct (create_section frame seps fro to true st0) as [st2|] eqn:H2;
          [|discriminate].
        cbn [bind] in H. eapply IH; [|exact H]. eapply Hstep; eassumption.
      + destruct (create_section frame seps (last_to st0 + 1) (fro - 1)
                                 false st0) as [st2|] eqn:H2; [|discriminate].
        cbn [bind] in H.
        destruct (create_section frame seps fro to true st2) as [st3|] eqn:H3;
          [|discriminate].
        cbn [bind] in H. eapply IH; [|exact H].
        eapply Hstep; [|exact H3]. eapply Hstep; eassumption. }
  destruct (repeated_sections frame seps ps initial) as [st1|] eqn:H1;
    [|discriminate].
  cbn [bind] in H. apply Hloop in H1; [|exact Hinit].
  destruct (final_to ps =? Z.of_nat (List.length frame) - 1).
  - cbn [bind] in H. destruct (section_structure st1); [discriminate|].
    destruct (forallb _ _); [|discriminate]. now injection H as <-.
  - destruct (create_section frame seps _ _ false st1) as [st2|] eqn:H2;
      [|discriminate].
    cbn [bind] in H. destruct (section_structure st2) eqn:E; [discriminate|].
    destruct (forallb _ _); [|discriminate]. injection H as <-.
    eapply Hstep; eassumption.
Qed.

Lemma range_app (b : Z) (n m : nat) :
  range b (n + m) = range b n ++ range (b + Z.of_nat n) m.
Proof.
  revert b; induction n as [|n IH]; intros b.
  - cbn. now rewrite Z.add_0_r.
  - cbn [Nat.add range app]. rewrite IH. do 3 f_equal. lia.
Qed.

Lemma range_length (b : Z) (n : nat) : List.length (range b n) = n.
Proof. revert b; induction n as [|n IH]; intros b; cbn; [|rewrite IH]; reflexivity. Qed.

Lemma count_occ_range (b : Z) (m : nat) (k : Z) :
  count_occ Z.eq_dec (range b m) k
  = if (b <=? k) && (k <? b + Z.of_nat m) then 1%nat else 0%nat.
Proof.
  revert b; induction m as [|m IH]; intros b.
  - cbn. destruct (Z.leb_spec b k), (Z.ltb_spec k (b + 0)); cbn; lia.
  - cbn [range count_occ]. rewrite IH.
    destruct (Z.eq_dec b k) as [-> | Hne];
      repeat match goal with
             | |- context [?x <=? ?y] => destruct (Z.leb_spec x y)
             | |- context [?x <? ?y] => destruct (Z.ltb_spec x y)
             end; cbn [andb]; lia.
Qed.

Lemma combine3_parts {A B C : Type} (a : list A) (b : list B) (c : list C) :
  List.length a = List.length b -> List.length b = List.length c ->
  map (fun x => fst (fst x)) (combine (combine a b) c) = a
  /\ map (fun x => snd (fst x)) (combine (combine a b) c) = b
  /\ List.length (combine (combine a b) c) = List.length a.
Proof.
  revert b c; induction a as [|x a IH]; intros [|y b] [|z c] H1 H2;
    try discriminate; [repeat split|].
  cbn in H1, H2. injection H1 as H1. injection H2 as H2.
  destruct (IH b c H1 H2) as (E1 & E2 & E3).
  cbn. now rewrite E1, E2, E3.
Qed.

Lemma played_count (rep : bool) (l : list Z) (k : Z) :
  count_occ Z.eq_dec (played rep l) k
  = ((if rep then 2 else 1) * count_occ Z.eq_dec l k)%nat.
Proof.
  unfold played. destruct rep; [rewrite count_occ_app|]; lia.
Qed.

Ltac at_new_state H k :=
  match goal with
  | |- context [section_at (mk_state ?a ?b ?c ?d ?e ?f) k] =>
      rewrite (H (mk_state a b c d e f) k eq_refl) by lia
  | Hs : context [section_at (mk_state ?a ?b ?c ?d ?e ?f) k] |- _ =>
      rewrite (H (mk_state a b c d e f) k eq_refl) in Hs by lia
  end.

Lemma create_section_consistent (info : frame) (seps : list string)
  (fro to : Z) (rep : bool) (st st' : state) :
  consistent st ->
  create_section info seps fro to rep st = Ok st' -> consistent st'.
Proof.
  intros [Hnum Hbnd Hgrp Hexp Hknown Hcnt Hsub] H.
  unfold create_section in H.
  destruct (repeats_at info fro) as [rep_fro|]; [|discriminate].
  destruct (repeats_at info to) as [rep_to|]; [|discriminate].
  cbn [bind] in H. cbv zeta in H.
  set (ranges := subsection_ranges info seps fro to) in *.
  set (reasons := subsection_reasons info seps fro to _ _) in *.
  set (n := List.length (sections st)).
  assert (Hlen : List.length (section_structure st) = n).
  { unfold n. now rewrite <- Hbnd, length_map. }
  rewrite Hlen in H.
  set (subs := range (Z.of_nat n) (List.length ranges)) in *.
  set (sc := Z.of_nat (List.length (super_sections st))) in *.
  set (sub_of := if 1 <? Z.of_nat (List.length subs) then Some sc else None)
    in *.
  set (created := map _ (combine (combine subs ranges) reasons)) in *.
  assert (Hm : List.length subs = List.length ranges)
    by (unfold subs; apply range_length).
  assert (Hr : List.length ranges = List.length reasons).
  { unfold ranges, reasons.
    destruct (subsections_count info seps fro to
                match rep_fro with
                | Some m => mark_name m
                | None => if rep then "startRepeat"%string
                          else "startNormal"%string
                end
                match rep_to with
                | Some m => mark_name m
                | None => if rep then "endRepeat"%string
                          else "endNormal"%string
                end) as [-> ->].
    reflexivity. }
  destruct (combine3_parts subs ranges reasons Hm Hr) as (E1 & E2 & E3).
  assert (Ci : map index created = subs).
  { unfold created. rewrite map_map. cbn [index]. exact E1. }
  assert (Cb : map bounds created = ranges).
  { unfold created. rewrite map_map. unfold bounds. cbn [first_mc last_mc].
    rewrite <- E2 at 2. apply map_ext. now intros [[a [f t]] r]. }
  assert (Cl : List.length created = List.length ranges).
  { unfold created. now rewrite length_map, E3. }
  assert (Cs : forall s, In s created ->
                         repeated s = rep /\ subsection_of s = sub_of).
  { intros s Hs. unfold created in Hs. apply in_map_iff in Hs.
    destruct Hs as (x & <- & _). split; reflexivity. }
  assert (Hat_old : forall st2 k,
            sections st2 = sections st ++ created -> k < Z.of_nat n ->
            section_at st2 k = section_at st k).
  { intros st2 k E Hk. unfold section_at. rewrite E.
    destruct (k <? 0) eqn:Hneg; [reflexivity|].
    apply Z.ltb_ge in Hneg. apply nth_error_app1. fold n. lia. }
  assert (Hat_new : forall st2 k,
            sections st2 = sections st ++ created -> Z.of_nat n <= k ->
            section_at st2 k = nth_error created (Z.to_nat k - n)).
  { intros st2 k E Hk. unfold section_at. rewrite E.
    destruct (Z.ltb_spec k 0); [lia|].
    rewrite nth_error_app2 by (fold n; lia). reflexivity. }
  assert (Hnone : forall k, Z.of_nat n <= k -> section_at st k = None).
  { intros k Hk. unfold section_at. destruct (k <? 0); [reflexivity|].
    apply nth_error_None. fold n. lia. }
  injection H as <-. constructor; cbn [sections section_structure
    section_order super_sections super_section_order].
  - rewrite map_app, Hnum, Ci, length_app, Cl. fold n. unfold subs.
    now rewrite range_app.
  - now rewrite map_app, Hbnd, Cb.
  - rewrite concat_app, Hgrp. cbn [List.concat]. rewrite app_nil_r.
    rewrite length_app, Cl. fold n. unfold subs. now rewrite range_app.
  - rewrite flat_map_app. f_equal.
    + rewrite Hexp. clear -Hknown.
      induction Hknown as [|j so Hj _ IH]; [reflexivity|].
      cbn [flat_map]. rewrite IH. f_equal.
      unfold super_section_at. cbn [super_sections].
      symmetry. apply app_nth1. lia.
    + unfold super_section_at. cbn [super_sections].
      assert (E : nth (Z.to_nat sc) (super_sections st ++ [subs]) [] = subs).
      { unfold sc. rewrite Nat2Z.id. apply nth_middle. }
      unfold played. destruct rep; cbn [flat_map app]; rewrite E;
        now rewrite ?app_nil_r.
  - apply Forall_app. split.
    + eapply Forall_impl; [|exact Hknown]. cbn. intros j Hj.
      rewrite length_app. cbn [List.length]. lia.
    + unfold played. rewrite length_app. cbn [List.length].
      destruct rep; repeat constructor; unfold sc; lia.
  - intros k. rewrite count_occ_app, Hcnt, played_count.
    unfold subs. rewrite count_occ_range.
    destruct (Z.ltb_spec k (Z.of_nat n)) as [Hk | Hk].
    + at_new_state Hat_old k.
      destruct (Z.leb_spec (Z.of_nat n) k); [lia|]. cbn [andb]. lia.
    + at_new_state Hat_new k. rewrite (Hnone k Hk).
      destruct (Z.leb_spec (Z.of_nat n) k); [|lia]. cbn [andb Nat.add].
      destruct (Z.ltb_spec k (Z.of_nat n + Z.of_nat (List.length ranges)))
        as [Hin | Hout].
      * destruct (nth_error created (Z.to_nat k - n)) as [s|] eqn:E.
        -- apply nth_error_In in E. apply Cs in E. destruct E as [E _].
           unfold times_played. rewrite E. destruct rep; reflexivity.
        -- apply nth_error_None in E. lia.
      * destruct (nth_error created (Z.to_nat k - n)) as [s|] eqn:E.
        -- assert (Z.to_nat k - n < List.length created)%nat
             by (apply nth_error_Some; congruence). lia.
        -- lia.
  - intros j group k s Hj Hk Hs.
    destruct (Nat.lt_ge_cases j (List.length (super_sections st)))
      as [Hold | Hnew].
    + rewrite nth_error_app1 in Hj by exact Hold.
      assert (Hkr : In k (range 0 n)).
      { unfold n. rewrite <- Hgrp. apply in_concat. exists group.
        split; [eapply nth_error_In; exact Hj | exact Hk]. }
      apply range_spec in Hkr.
      at_new_state Hat_old k. eapply Hsub; eassumption.
    + rewrite nth_error_app2 in Hj by exact Hnew.
      destruct (j - List.length (super_sections st))%nat as [|j'] eqn:Ej;
        [|destruct j'; discriminate].
      injection Hj as <-. unfold subs in Hk. apply range_spec in Hk.
      at_new_state Hat_new k. apply nth_error_In in Hs.
      apply Cs in Hs. destruct Hs as [_ ->]. unfold sub_of, sc.
      replace j with (List.length (super_sections st)) by lia.
      destruct (Z.ltb_spec 1 (Z.of_nat (List.length subs))),
               (Nat.ltb_spec 1 (List.length subs)); try lia; reflexivity.
Qed.

Lemma initial_consistent : consistent initial.
Proof.
  constructor; try reflexivity.
  - constructor.
  - intros k. unfold section_at. cbn.
    destruct (k <? 0); [reflexivity | now destruct (Z.to_nat k)].
  - intros [|j] group k s H; discriminate.
Qed.

Lemma build_sections_consistent (info : frame) (seps : list string)
  (st : state) :
  build_sections info seps = Ok st -> consistent st.
Proof.
  apply build_sections_invariant; [exact initial_consistent|].
  intros fro to rep st0 st1. apply create_section_consistent.
Qed.

(** X5. The dictionaries of a constructed score agree: the sections
    are numbered 0, 1, ... in the order of their creation,
    [section_structure] holds the first and the last measure count of
    every section, the super sections hold every section once and in
    order, and a section names its super section exactly if that has more
    than one subsection. *)
Theorem sections_agree_with_structure (info : frame) (seps : list string)
  (st : state) :
  build_sections info seps = Ok st ->
  map index (sections st) = range 0 (List.length (sections st))
  /\ map bounds (sections st) = section_structure st
  /\ List.concat (super_sections st) = range 0 (List.length (sections st))
  /\ forall (j : nat) (group : list Z) (k : Z) (s : section),
       nth_error (super_sections st) j = Some group ->
       In k group -> section_at st k = Some s ->
       subsection_of s
       = if (1 <? List.length group)%nat then Some (Z.of_nat j) else None.
Proof.
  intros H. apply build_sections_consistent in H.
  destruct H as [H1 H2 H3 _ _ _ H7]. auto.
Qed.

Lemma sections_agree_with_structure_witness :
  build_sections separated_repeat ["double"%string] = Ok separated_repeat_score
  /\ map index (sections separated_repeat_score) = [0; 1]
  /\ map bounds (sections separated_repeat_score) = [(0, 10); (11, 20)]
  /\ List.concat (super_sections separated_repeat_score) = [0; 1]
  /\ map subsection_of (sections separated_repeat_score) = [Some 0; Some 0].
Proof.
  assert (H : build_sections separated_repeat ["double"%string]
              = Ok separated_repeat_score) by (vm_compute; reflexivity).
  destruct (sections_agree_with_structure _ _ _ H) as (H1 & H2 & H3 & _).
  split; [exact H|]. split; [exact H1|]. split; [exact H2|].
  split; [exact H3 | reflexivity].
Defined.

(** X6. [section_order] is [super_section_order] with every super
    section replaced by its subsections. *)
Theorem section_order_expands_super_sections (info : frame)
  (seps : list string) (st : state) :
  build_sections info seps = Ok st ->
  section_order st
  = flat_map (super_section_at st) (super_section_order st).
Proof.
  intros H. apply build_sections_consistent in H. now destruct H.
Qed.

Lemma section_order_expands_super_sections_witness :
  section_order separated_repeat_score = [0; 1; 0; 1]
  /\ super_section_order separated_repeat_score = [0; 0]
  /\ section_order separated_repeat_score
     = flat_map (super_section_at separated_repeat_score)
                (super_section_order separated_repeat_score).
Proof.
  split; [reflexivity|]. split; [reflexivity|].
  apply (section_order_expands_super_sections separated_repeat
           ["double"%string]).
  vm_compute. reflexivity.
Defined.

(** X7. A section occurs in [section_order] twice if it is repeated
    and once if it is not; nothing else occurs in it. *)
Theorem sections_are_played_once_or_twice (info : frame)
  (seps : list string) (st : state) :
  build_sections info seps = Ok st ->
  forall k : Z,
    count_occ Z.eq_dec (section_order st) k
    = match section_at st k with
      | Some s => if repeated s then 2%nat else 1%nat
      | None => 0%nat
      end.
Proof.
  intros H. apply build_sections_consistent in H.
  destruct H as [_ _ _ _ _ H _]. exact H.
Qed.

Lemma sections_are_played_once_or_twice_witness :
  count_occ Z.eq_dec (section_order separated_repeat_score) 1 = 2%nat.
Proof.
  exact (sections_are_played_once_or_twice separated_repeat
           ["double"%string] separated_repeat_score eq_refl 1).
Defined.

(** ** Scores without repeats *)

Lemma considered_rows_app (l1 l2 : frame) (a b : Z) :
  reset_index a
    (map (fun ir => (fst ir, info_repeats (snd ir), info_volta (snd ir)))
         (indexed b (l1 ++ l2)))
  = reset_index a
      (map (fun ir => (fst ir, info_repeats (snd ir), info_volta (snd ir)))
           (indexed b l1))
    ++ reset_index (a + Z.of_nat (List.length l1))
         (map (fun ir => (fst ir, info_repeats (snd ir), info_volta (snd ir)))
              (indexed (b + Z.of_nat (List.length l1)) l2)).
Proof.
  revert a b; induction l1 as [|x l1 IH]; intros a b.
  - cbn. now rewrite !Z.add_0_r.
  - cbn [app indexed map reset_index fst snd List.length]. rewrite IH.
    cbn [app].
    replace (a + Z.of_nat (S (List.length l1)))
      with (a + 1 + Z.of_nat (List.length l1)) by lia.
    replace (b + Z.of_nat (S (List.length l1)))
      with (b + 1 + Z.of_nat (List.length l1)) by lia.
    reflexivity.
Qed.

Lemma unmarked_not_considered (seps : list string) (l : frame) (a b : Z) :
  Forall (unmarked seps) l ->
  filter (fun r => notna (repeats r) || notna (volta r))
    (reset_index a
       (map (fun ir => (fst ir, info_repeats (snd ir), info_volta (snd ir)))
            (indexed b l)))
  = [].
Proof.
  intros H. revert a b.
  induction H as [|x l (Hr & Hv & _) _ IH]; intros a b; [reflexivity|].
  cbn [indexed map reset_index fst snd filter repeats volta].
  rewrite Hr, Hv. cbn. apply IH.
Qed.

Lemma split_rows_app (seps : list string) (fro to : Z) (l1 l2 : frame)
  (b : Z) :
  flat_map
    (fun ir : Z * info_row =>
       if (fro + 1 <=? fst ir) && (fst ir <=? to - 1) then
         match info_barline (snd ir) with
         | Some bl =>
             if Features.mem_string bl seps then [(fst ir, bl)] else []
         | None => []
         end
       else [])
    (indexed b (l1 ++ l2))
  = flat_map
      (fun ir : Z * info_row =>
         if (fro + 1 <=? fst ir) && (fst ir <=? to - 1) then
           match info_barline (snd ir) with
           | Some bl =>
               if Features.mem_string bl seps then [(fst ir, bl)] else []
           | None => []
           end
         else [])
      (indexed b l1)
    ++ flat_map
         (fun ir : Z * info_row =>
            if (fro + 1 <=? fst ir) && (fst ir <=? to - 1) then
              match info_barline (snd ir) with
              | Some bl =>
                  if Features.mem_string bl seps then [(fst ir, bl)] else []
              | None => []
              end
            else [])
         (indexed (b + Z.of_nat (List.length l1)) l2).
Proof.
  revert b; induction l1 as [|x l1 IH]; intros b.
  - cbn. now rewrite Z.add_0_r.
  - cbn [app indexed flat_map List.length]. rewrite IH, <- app_assoc.
    replace (b + Z.of_nat (S (List.length l1)))
      with (b + 1 + Z.of_nat (List.length l1)) by lia.
    reflexivity.
Qed.

Lemma unmarked_not_split (seps : list string) (fro to : Z) (l : frame)
  (b : Z) :
  Forall (unmarked seps) l ->
  flat_map
    (fun ir : Z * info_row =>
       if (fro + 1 <=? fst ir) && (fst ir <=? to - 1) then
         match info_barline (snd ir) with
         | Some bl =>
             if Features.mem_string bl seps then [(fst ir, bl)] else []
         | None => []
         end
       else [])
    (indexed b l)
  = [].
Proof.
  intros H. revert b.
  induction H as [|x l (_ & _ & Hb) _ IH]; intros b; [reflexivity|].
  cbn [indexed flat_map fst snd]. rewrite IH, app_nil_r.
  destruct ((fro + 1 <=? b) && (b <=? to - 1)); [|reflexivity].
  destruct (info_barline x) as [bl|]; [now rewrite Hb | reflexivity].
Qed.

(** X8. A score without repeat signs, voltas and separating barlines
    between its first and its last measure is one section that is not
    repeated, from the first measure to the last. *)
Theorem score_without_repeats_is_one_section (first final : info_row)
  (middle : frame) (seps : list string) :
  info_repeats first = Some firstMeasure ->
  Forall (unmarked seps) middle ->
  info_repeats final = Some lastMeasure -> info_volta final = None ->
  let last := Z.of_nat (List.length middle) + 1 in
  build_sections (first :: middle ++ [final]) seps
  = Ok (mk_state
          [mk_section 0 last 0 false "firstMeasure" "lastMeasure" None]
          [(0, last)] [0] [[0]] [0] last).
Proof.
  intros Hfirst Hmiddle Hfinal Hvolta last.
  set (info := first :: middle ++ [final]).
  assert (Hlen : Z.of_nat (List.length info) - 1 = last).
  { unfold info, last. cbn [List.length]. rewrite length_app.
    cbn [List.length]. lia. }
  assert (Hrs : compute_repeat_structure (repeats_volta info) = Ok []).
  { unfold compute_repeat_structure, considered, repeats_volta, info.
    cbn [indexed map reset_index fst snd filter repeats volta].
    rewrite Hfirst. cbn [notna isna negb orb].
    rewrite considered_rows_app, filter_app.
    rewrite (unmarked_not_considered seps) by exact Hmiddle.
    cbn [app indexed map reset_index fst snd filter repeats volta].
    rewrite Hfinal, Hvolta. cbn. reflexivity. }
  assert (Hat0 : repeats_at info 0 = Ok (Some firstMeasure)).
  { unfold repeats_at. cbn [Z.leb Z.compare andb].
    destruct (Z.ltb_spec 0 (Z.of_nat (List.length info))); [|lia].
    cbn. now rewrite Hfirst. }
  assert (Hatl : repeats_at info last = Ok (Some lastMeasure)).
  { unfold repeats_at.
    destruct (Z.leb_spec 0 last); [|lia].
    destruct (Z.ltb_spec last (Z.of_nat (List.length info))); [|lia].
    cbn [andb]. unfold last, info.
    replace (Z.to_nat (Z.of_nat (List.length middle) + 1))
      with (S (List.length middle)) by lia.
    cbn [nth]. now rewrite nth_middle, Hfinal. }
  assert (Hsplit : split_rows info seps 0 last = []).
  { unfold split_rows, info.
    change (indexed 0 (first :: middle ++ [final]))
      with ((0, first) :: indexed (0 + 1) (middle ++ [final])).
    cbn [flat_map].
    change (0 + 1 <=? fst (0, first)) with false. cbn [andb app].
    rewrite split_rows_app.
    rewrite (unmarked_not_split seps) by exact Hmiddle.
    cbn [app indexed flat_map fst snd].
    destruct (Z.leb_spec (0 + 1 + Z.of_nat (List.length middle)) (last - 1));
      [unfold last in *; lia|].
    now rewrite andb_false_r. }
  unfold build_sections. fold info. unfold info at 1.
  rewrite Hrs. cbn [bind repeated_sections final_to List.last snd].
  rewrite Hlen.
  destruct (Z.eqb_spec 0 last); [unfold last in *; lia|].
  cbn [Z.ltb Z.compare].
  unfold create_section. rewrite Hat0, Hatl. cbn [bind mark_name].
  unfold subsection_ranges, subsection_reasons. rewrite Hsplit.
  cbn [initial sections section_structure section_order super_sections
       super_section_order List.length Z.of_nat range combine map fst snd
       app played Z.ltb Z.compare bind].
  destruct (List.length info) as [|len] eqn:E; [discriminate|].
  cbn [range map section_column fst snd forallb existsb holds].
  destruct (Z.leb_spec 0 last); [|unfold last in *; lia].
  cbn. reflexivity.
Qed.

Lemma score_without_repeats_is_one_section_witness :
  build_sections [marked firstMeasure; plain; barred "dashed"; plain;
                  marked lastMeasure] ["double"%string]
  = Ok (mk_state
          [mk_section 0 4 0 false "firstMeasure" "lastMeasure" None]
          [(0, 4)] [0] [[0]] [0] 4).
Proof.
  apply (score_without_repeats_is_one_section
           (marked firstMeasure) (marked lastMeasure)
           [plain; barred "dashed"; plain] ["double"%string]).
  - reflexivity.
  - repeat constructor.
  - reflexivity.
  - reflexivity.
Defined.

(** X9. The sections of a score of one measure cannot be built: the
    constructor raises [IndexError] or [StopIteration]. *)
Theorem one_measure_score_raises (r : info_row) (seps : list string) :
  build_sections [r] seps = Raise IndexError
  \/ build_sections [r] seps = Raise StopIteration.
Proof.
  destruct r as [[[]|] [v|] b]; cbn; auto.
Qed.

End SectionsFacts.

(** ** Facts about Python numbers *)

Module PyNumFacts.
Import PyNum.

(** ** Exact arithmetic on integers and fractions *)

Lemma exact_mul (a b : num) (x y : Q) :
  exact a = Some x -> exact b = Some y ->
  exists z, exact (mul a b) = Some z /\ (z == x * y)%Q.
Proof.
  destruct a as [u | p | f], b as [v | q | g]; cbn [exact mul];
    intros Ha Hb; try discriminate; injection Ha as <-; injection Hb as <-;
    eexists; (split; [reflexivity|]).
  - unfold inject_Z, Qmult, Qeq. cbn. lia.
  - apply Qred_correct.
  - apply Qred_correct.
  - apply Qred_correct.
Qed.

Lemma exact_add (a b : num) (x y : Q) :
  exact a = Some x -> exact b = Some y ->
  exists z, exact (add a b) = Some z /\ (z == x + y)%Q.
Proof.
  destruct a as [u | p | f], b as [v | q | g]; cbn [exact add];
    intros Ha Hb; try discriminate; injection Ha as <-; injection Hb as <-;
    eexists; (split; [reflexivity|]).
  - unfold inject_Z, Qplus, Qeq. cbn. lia.
  - apply Qred_correct.
  - apply Qred_correct.
  - apply Qred_correct.
Qed.

Lemma float_mul_left (x : spec_float) (b : num) :
  mul (Float x) b = Float (float_mul x (to_float b)).
Proof. destruct b; reflexivity. Qed.

Lemma float_add_right (a : num) (x : spec_float) :
  add a (Float x) = Float (float_add (to_float a) x).
Proof. destruct a; reflexivity. Qed.

Lemma float_add_left (x : spec_float) (b : num) :
  add (Float x) b = Float (float_add x (to_float b)).
Proof. destruct b; reflexivity. Qed.

Lemma frac2_value (n d : Z) :
  d <> 0 ->
  exists q, frac2 n d = Ok (Frac q) /\ (q == inject_Z n / inject_Z d)%Q.
Proof.
  intros Hd. destruct d as [|k|k]; [congruence| |]; cbn [frac2];
    eexists; (split; [reflexivity|]); rewrite Qred_correct.
  - rewrite Qmake_Qdiv. reflexivity.
  - rewrite Qmake_Qdiv.
    change (inject_Z (Z.neg k)) with (inject_Z (- Z.pos k)).
    rewrite !inject_Z_opp. field.
    unfold Qeq. cbn. lia.
Qed.

End PyNumFacts.

(** ** Facts about the events of a voice *)

Module WalkerFacts.
Import PyNum.
Import Walker.
Import PyNumFacts.

(** ** Facts about the walk *)

Lemma half_value : float_value (true_div 1 2) = 1 # 2.
Proof. reflexivity. Qed.

Lemma fold_left_add_exact (qs : list Q) (acc : num) (a : Q) :
  exact acc = Some a ->
  exists z,
    exact (fold_left add (map (fun q => Frac (Qred q)) qs) acc) = Some z
    /\ (z == a + fold_right Qplus 0 qs)%Q.
Proof.
  revert acc a; induction qs as [|q qs IH]; intros acc a Ha; cbn [map fold_left fold_right].
  - exists a. split; [exact Ha|]. ring.
  - destruct (exact_add acc (Frac (Qred q)) a (Qred q) Ha eq_refl)
      as (z1 & Hz1 & Heq1).
    destruct (IH _ _ Hz1) as (z & Hz & Heq).
    exists z. split; [exact Hz|].
    rewrite Heq, Heq1, Qred_correct. ring.
Qed.

Lemma dot_terms_exact (d : Z) :
  exists z, exact (sum (dot_terms d)) = Some z /\ (z == dot_sum d)%Q.
Proof.
  unfold sum, dot_terms, dot_sum, frac_pow. rewrite half_value.
  rewrite <- (map_map (fun i => Qpower (1 # 2) (Z.of_nat i))
                      (fun q => Frac (Qred q))).
  destruct (fold_left_add_exact
              (map (fun i => Qpower (1 # 2) (Z.of_nat i))
                   (seq 0 (Z.to_nat (d + 1))))
              (Int 0) (inject_Z 0) eq_refl) as (z & Hz & Heq).
  exists z. split; [exact Hz|]. rewrite Heq. ring.
Qed.

Lemma dot_sum_0 : (dot_sum 0 == 1)%Q.
Proof. reflexivity. Qed.

Lemma dotscalar_exact (dots : option Z) (sc : num) (s : Q) :
  exact sc = Some s ->
  exists z, exact (dotscalar_of dots sc) = Some z
            /\ (z == s * dot_sum (dots_value dots))%Q.
Proof.
  intros Hs. destruct dots as [d|]; cbn [dotscalar_of dots_value].
  - destruct (dot_terms_exact d) as (t & Ht & Heqt).
    destruct (exact_mul _ _ _ _ Ht Hs) as (z & Hz & Heq).
    exists z. split; [exact Hz|]. rewrite Heq, Heqt. ring.
  - exists s. split; [exact Hs|]. rewrite dot_sum_0. ring.
Qed.

Lemma event_duration_exact (name : string) (dots : option Z)
  (nominal sc : num) (n s : Q) :
  get name DURATIONS = Ok nominal ->
  exact nominal = Some n -> exact sc = Some s ->
  exists dur v,
    event_duration name dots sc = Ok dur /\ exact dur = Some v
    /\ (v == n * s * dot_sum (dots_value dots))%Q.
Proof.
  intros Hget Hn Hs. unfold event_duration. rewrite Hget. cbn [bind].
  destruct (dotscalar_exact dots sc s Hs) as (z & Hz & Heqz).
  destruct (exact_mul _ _ _ _ Hn Hz) as (v & Hv & Heqv).
  eexists; exists v. split; [reflexivity|]. split; [exact Hv|].
  rewrite Heqv, Heqz. ring.
Qed.

Lemma walk_app (ctx : context) (st : state) (l1 l2 : list event) :
  walk ctx st (l1 ++ l2) = (st1 <- walk ctx st l1 ;; walk ctx st1 l2).
Proof.
  revert st; induction l1 as [|ev l1 IH]; intros st; cbn; [reflexivity|].
  destruct (step ctx st ev); cbn; [apply IH | reflexivity].
Qed.

Lemma balanced_restores (ctx : context) (events : list event) :
  balanced events ->
  forall st st',
    walk ctx st events = Ok st' ->
    scalar st' = scalar st /\ scalar_stack st' = scalar_stack st.
Proof.
  induction 1 as [| d dots g a ns rest Hrest IH | d dots rest Hrest IH
                  | n a body rest Hbody IHbody Hrest IHrest];
    intros st st' Hwalk.
  - cbn in Hwalk. injection Hwalk as <-. now split.
  - cbn [walk step] in Hwalk.
    destruct (get d DURATIONS) as [nominal|]; [|discriminate].
    cbn [bind] in Hwalk. apply IH in Hwalk. exact Hwalk.
  - cbn [walk step] in Hwalk.
    destruct (get d DURATIONS) as [nominal|]; [|discriminate].
    cbn [bind] in Hwalk. apply IH in Hwalk. exact Hwalk.
  - cbn [walk step] in Hwalk.
    destruct (frac2 n a) as [ratio|]; [|discriminate].
    cbn [bind] in Hwalk. rewrite walk_app in Hwalk.
    destruct (walk ctx _ body) as [st1|] eqn:Hb; [|discriminate].
    cbn [bind] in Hwalk. apply IHbody in Hb. cbn in Hb.
    destruct Hb as [_ Hstack].
    cbn [walk step] in Hwalk. rewrite Hstack in Hwalk.
    cbn [bind] in Hwalk. apply IHrest in Hwalk. exact Hwalk.
Qed.

(** Tuplets and dots in the walk over the events of a voice:
    - a [Tuplet] pushes the scalar and multiplies it by
      normalNotes/actualNotes;
    - an [endTuplet] restores the value pushed last, so that after a
      [Tuplet], events in which every tuplet is closed, and the
      [endTuplet], scalar and stack are what they were;
    - a [Rest] whose duration can be computed leaves the pointer, the
      scalar, the stack and the rows as they are; a [Chord] without
      grace tag gives the duration and the current pointer as onset to
      each of its notes and advances the pointer by the duration;
    - that duration is the table's nominal duration times the scalar
      times the dots factor, multiplied as Python multiplies; when the
      nominal duration and the scalar are integers or fractions it is the
      fraction [nominal * scalar * sum_{i=0..D} (1/2)^i], [D] being the
      integer of [dots], 0 if absent;
    - for a 2:3 tuplet of three undotted eighth-note chords, the three
      notes have scalar 2/3 and duration 1/12 and the pointer ends at
      1/4. *)
Theorem tuplets_and_dots :
  (forall ctx st n a,
      a <> 0 ->
      exists ratio,
        (ratio == inject_Z n / inject_Z a)%Q
        /\ step ctx st (Tuplet n a)
           = Ok (mk_state (pointer st) (mul (scalar st) (Frac ratio))
                          (scalar st :: scalar_stack st) (rows st)))
  /\ (forall ctx st top rest,
         scalar_stack st = top :: rest ->
         step ctx st endTuplet = Ok (mk_state (pointer st) top rest (rows st)))
  /\ (forall ctx st st' n a body,
         balanced body ->
         walk ctx st (Tuplet n a :: body ++ [endTuplet]) = Ok st' ->
         scalar st' = scalar st /\ scalar_stack st' = scalar_stack st)
  /\ (forall ctx st d dots,
         step ctx st (Rest d dots)
         = (dur <- event_duration d dots (scalar st) ;; Ok st))
  /\ (forall ctx st st' d dots art notes,
         step ctx st (Chord d dots None art notes) = Ok st' ->
         exists dur new,
           event_duration d dots (scalar st) = Ok dur
           /\ pointer st' = add (pointer st) dur
           /\ rows st' = rows st ++ new
           /\ List.length new = List.length notes
           /\ Forall (fun r => duration r = dur /\ onset r = pointer st) new)
  /\ (forall d dots sc nominal,
         get d DURATIONS = Ok nominal ->
         event_duration d dots sc
         = Ok (mul nominal (match dots with
                            | Some k => mul (sum (dot_terms k)) sc
                            | None => sc
                            end)))
  /\ (forall d dots sc nominal n s,
         get d DURATIONS = Ok nominal ->
         exact nominal = Some n -> exact sc = Some s ->
         exists dur v,
           event_duration d dots sc = Ok dur /\ exact dur = Some v
           /\ (v == n * s * dot_sum (dots_value dots))%Q)
  /\ (exists st,
         walk a_context start triplet = Ok st
         /\ pointer st = Frac (1 # 4)
         /\ map (fun r => (note_scalar r, duration r)) (rows st)
            = [(Frac (2 # 3), Frac (1 # 12));
               (Frac (2 # 3), Frac (1 # 12));
               (Frac (2 # 3), Frac (1 # 12))]).
Proof.
  split; [|split; [|split; [|split; [|split; [|split; [|split]]]]]].
  - intros ctx st n a Ha.
    destruct (frac2_value n a Ha) as (q & Hq & Heq).
    exists q. split; [exact Heq|]. cbn [step]. now rewrite Hq.
  - intros ctx st top rest Hstack. cbn [step]. now rewrite Hstack.
  - intros ctx st st' n a body Hbody Hwalk.
    apply (balanced_restores ctx (Tuplet n a :: body ++ [endTuplet])).
    + apply balanced_tuplet; [exact Hbody | constructor].
    + exact Hwalk.
  - intros ctx st d dots. cbn [step]. unfold event_duration.
    destruct (get d DURATIONS); reflexivity.
  - intros ctx st st' d dots art notes Hstep. cbn [step] in Hstep.
    unfold event_duration.
    destruct (get d DURATIONS) as [nominal|]; [|discriminate].
    cbn [bind] in *. injection Hstep as <-. cbn.
    eexists; eexists. split; [reflexivity|]. split; [reflexivity|].
    split; [reflexivity|]. split; [apply length_map|].
    apply Forall_forall. intros r Hr. apply in_map_iff in Hr.
    destruct Hr as (nt & <- & _). now split.
  - intros d dots sc nominal Hget. unfold event_duration. now rewrite Hget.
  - intros d dots sc nominal n s. apply event_duration_exact.
  - eexists. split; [vm_compute; reflexivity|]. split; reflexivity.
Qed.

(** The parts of the theorem at a triplet of 2 in the time of 3 and at a
    quarter note with two dots. *)
Lemma tuplets_and_dots_witness :
  (exists ratio,
      (ratio == inject_Z 2 / inject_Z 3)%Q
      /\ step a_context start (Tuplet 2 3)
         = Ok (mk_state (Frac 0) (mul (Int 1) (Frac ratio)) [Int 1] []))
  /\ step a_context (mk_state (Frac 0) (Frac (2 # 3)) [Int 1] []) endTuplet
     = Ok (mk_state (Frac 0) (Int 1) [] [])
  /\ (exists dur v,
         event_duration "quarter" (Some 2) (Int 1) = Ok dur
         /\ exact dur = Some v
         /\ (v == (1 # 4) * inject_Z 1 * dot_sum 2)%Q).
Proof.
  destruct tuplets_and_dots as (Htuplet & Hend & _ & _ & _ & _ & Hexact & _).
  split; [|split].
  - apply (Htuplet a_context start 2 3). lia.
  - apply (Hend a_context (mk_state (Frac 0) (Frac (2 # 3)) [Int 1] [])).
    reflexivity.
  - apply (Hexact "quarter"%string (Some 2) (Int 1) (Frac (1 # 4))).
    + reflexivity.
    + reflexivity.
    + reflexivity.
Defined.

(** C1 on the code.  In a 2:3 tuplet of three whole-note chords every
    note has the nominal duration 1.0, a float, and the scalar 2/3.  The
    duration is their product as Python multiplies a float and a
    fraction: the float 6004799503160661/2^53, and not the product
    [nominal * scalar * sum_{i=0..D} (1/2)^i] = 2/3 that holds for the
    durations that are fractions. *)
Theorem whole_notes_in_a_tuplet_miss_the_product :
  exists st x,
    walk a_context start whole_note_triplet = Ok st
    /\ map (fun r => (nominal_duration r, note_scalar r, duration r))
           (rows st)
       = [(Float (float_of_Z 1), Frac (2 # 3), Float x);
          (Float (float_of_Z 1), Frac (2 # 3), Float x);
          (Float (float_of_Z 1), Frac (2 # 3), Float x)]
    /\ float_value x = 6004799503160661 # 9007199254740992
    /\ ~ (float_value x == 1 * (2 # 3) * dot_sum (dots_value None))%Q.
Proof.
  eexists; eexists. split; [vm_compute; reflexivity|].
  split; [reflexivity|]. split; [reflexivity|].
  intros Heq. vm_compute in Heq. discriminate.
Qed.

(** A rest does not move the pointer: the chord after a quarter rest
    begins at 0, and the pointer ends at 1/4. *)
Example rest_leaves_the_pointer :
  exists st,
    walk a_context start rest_then_chord = Ok st
    /\ map onset (rows st) = [Frac 0]
    /\ pointer st = Frac (1 # 4).
Proof. eexists. split; [vm_compute; reflexivity|]. split; reflexivity. Qed.

Lemma rational_mul (a b : num) : rational a -> rational b -> rational (mul a b).
Proof.
  intros [x Hx] [y Hy]. destruct (exact_mul a b x y Hx Hy) as (z & Hz & _).
  now exists z.
Qed.

Lemma rational_add (a b : num) : rational a -> rational b -> rational (add a b).
Proof.
  intros [x Hx] [y Hy]. destruct (exact_add a b x y Hx Hy) as (z & Hz & _).
  now exists z.
Qed.

Lemma rational_dotscalar (dots : option Z) (sc : num) :
  rational sc -> rational (dotscalar_of dots sc).
Proof.
  intros [s Hs]. destruct (dotscalar_exact dots sc s Hs) as (z & Hz & _).
  now exists z.
Qed.

Lemma fraction_token_rational (name : string) :
  fraction_token name = true ->
  exists q, get name DURATIONS = Ok (Frac q).
Proof.
  unfold fraction_token. intros H. apply existsb_exists in H.
  destruct H as (k & Hk & Heq). apply String.eqb_eq in Heq. subst k.
  cbn in Hk.
  repeat (destruct Hk as [<- | Hk]; [eexists; vm_compute; reflexivity|]).
  contradiction.
Qed.

Lemma step_rational (ctx : context) (st st' : state) (ev : event) :
  fraction_tokens ev = true -> rational_state st ->
  step ctx st ev = Ok st' -> rational_state st'.
Proof.
  intros Htok (Hp & Hs & Hstack & Hrows) Hstep.
  destruct ev as [n a | | d dots g art ns | d dots]; cbn [step] in Hstep.
  - assert (Hratio : exists q, frac2 n a = Ok (Frac q)).
    { destruct a as [|k|k]; cbn [frac2] in *;
        [discriminate | eexists; reflexivity | eexists; reflexivity]. }
    destruct Hratio as (q & Hq). rewrite Hq in Hstep. cbn [bind] in Hstep.
    injection Hstep as <-.
    split; [exact Hp|]. split; [|split; [|exact Hrows]]; fields.
    + apply rational_mul; [exact Hs | eexists; reflexivity].
    + now constructor.
  - destruct (scalar_stack st) as [|top rest]; [discriminate|].
    injection Hstep as <-. inversion Hstack; subst.
    split; [exact Hp|]. split; [assumption|]. split; assumption.
  - destruct (fraction_token_rational d Htok) as (q & Hq).
    rewrite Hq in Hstep. cbn [bind] in Hstep. injection Hstep as <-.
    assert (Hnom : rational (Frac q)) by (eexists; reflexivity).
    assert (Hdot : rational (dotscalar_of dots (scalar st)))
      by now apply rational_dotscalar.
    assert (Hdur : rational (mul (Frac q) (dotscalar_of dots (scalar st))))
      by now apply rational_mul.
    split; [|split; [exact Hs|split; [exact Hstack|]]]; fields.
    + destruct g; [assumption | now apply rational_add].
    + apply Forall_app. split; [assumption|].
      apply Forall_forall. intros r Hr. apply in_map_iff in Hr.
      destruct Hr as (nt & <- & _).
      split; [exact Hp|]. split; [|split; assumption]. fields.
      destruct g; [eexists; reflexivity | assumption].
  - destruct (fraction_token_rational d Htok) as (q & Hq).
    rewrite Hq in Hstep. cbn [bind] in Hstep.
    injection Hstep as <-.
    split; [exact Hp|split; [exact Hs|split; [exact Hstack|exact Hrows]]].
Qed.

(** Without the keys [measure], [breve] and [whole], every onset,
    duration and scalar of the walk is an integer or a fraction. *)
Lemma walk_rational (ctx : context) (events : list event) :
  forallb fraction_tokens events = true ->
  forall st st',
    rational_state st -> walk ctx st events = Ok st' -> rational_state st'.
Proof.
  induction events as [|ev events IH]; intros Htok st st' Hst Hwalk.
  - cbn in Hwalk. now injection Hwalk as <-.
  - cbn [forallb] in Htok. apply andb_true_iff in Htok.
    destruct Htok as [Hev Hrest]. cbn [walk] in Hwalk.
    destruct (step ctx st ev) as [st1|] eqn:Hstep; [|discriminate].
    cbn [bind] in Hwalk.
    eapply IH; [exact Hrest | | exact Hwalk].
    eapply step_rational; eassumption.
Qed.

(** C2 on the code.  The keys [half] to [128th] of [DURATIONS] hold the
    fractions that the specification states; the keys [measure], [breve]
    and [whole] hold the floats 1.0, 2.0 and 1.0.  A whole-note chord
    therefore gets a float as duration, the pointer becomes a float, and
    the next note has a float as onset.  In a 2:3 tuplet the duration of
    a whole note is the float nearest to 2/3, which is not 2/3. *)
Theorem whole_note_durations_are_floats :
  map (fun name => get name DURATIONS) ["measure"; "breve"; "whole"]%string
  = [Ok (Float (float_of_Z 1)); Ok (Float (float_of_Z 2));
     Ok (Float (float_of_Z 1))]
  /\ map (fun nq => get (fst nq) DURATIONS) (skipn 3 stated_durations)
     = map (fun nq => Ok (Frac (snd nq))) (skipn 3 stated_durations)
  /\ (exists st,
         walk a_context start whole_then_quarter = Ok st
         /\ map (fun r => (is_float (onset r), is_float (duration r)))
                (rows st)
            = [(false, true); (true, false)]
         /\ is_float (pointer st) = true)
  /\ (exists st x,
         walk a_context start whole_in_triplet = Ok st
         /\ map duration (rows st) = [Float x]
         /\ float_value x = 6004799503160661 # 9007199254740992
         /\ ~ (float_value x == 2 # 3)%Q).
Proof.
  split; [reflexivity|]. split; [reflexivity|]. split.
  - eexists. split; [vm_compute; reflexivity|]. split; reflexivity.
  - eexists; eexists. split; [vm_compute; reflexivity|].
    split; [reflexivity|]. split; [reflexivity|].
    intros Heq. vm_compute in Heq. discriminate.
Qed.

(** ** Voices that are walked to their end *)

Lemma balanced_walk (ctx : context) (events : list event) :
  balanced events -> forallb readable events = true ->
  forall st, exists st', walk ctx st events = Ok st'.
Proof.
  induction 1 as [| d dots g a ns rest Hrest IH | d dots rest Hrest IH
                  | n a body rest Hbody IHbody Hrest IHrest];
    intros Hread st.
  - now exists st.
  - cbn [forallb readable] in Hread. apply andb_true_iff in Hread.
    destruct Hread as [Hd Hr]. cbn [walk step].
    destruct (get d DURATIONS) as [nominal|]; [|discriminate].
    cbn [bind]. apply IH, Hr.
  - cbn [forallb readable] in Hread. apply andb_true_iff in Hread.
    destruct Hread as [Hd Hr]. cbn [walk step].
    destruct (get d DURATIONS) as [nominal|]; [|discriminate].
    cbn [bind]. apply IH, Hr.
  - cbn [forallb readable] in Hread. apply andb_true_iff in Hread.
    destruct Hread as [Ha Hr]. rewrite forallb_app in Hr.
    apply andb_true_iff in Hr. destruct Hr as [Hb Hr].
    cbn [forallb readable] in Hr.
    apply negb_true_iff, Z.eqb_neq in Ha.
    cbn [walk step].
    destruct (frac2_value n a Ha) as (q & Hq & _). rewrite Hq. cbn [bind].
    rewrite walk_app.
    destruct (IHbody Hb (mk_state (pointer st) (mul (scalar st) (Frac q))
                           (scalar st :: scalar_stack st) (rows st)))
      as (st1 & H1).
    rewrite H1. cbn [bind walk step].
    destruct (balanced_restores ctx body Hbody _ _ H1) as [_ Hstack].
    cbn in Hstack. rewrite Hstack. cbn [bind]. apply IHrest, Hr.
Qed.

(** X10. A voice whose tuplets are all closed and whose events can be
    read is walked to its end without an exception; the scalar and the
    stack of scalars are afterwards what they were before. *)
Theorem balanced_events_are_walked (ctx : context) (events : list event) :
  balanced events -> forallb readable events = true ->
  forall st, exists st',
    walk ctx st events = Ok st'
    /\ scalar st' = scalar st /\ scalar_stack st' = scalar_stack st.
Proof.
  intros Hb Hr st. destruct (balanced_walk ctx events Hb Hr st) as (st' & H).
  exists st'. split; [exact H|]. now apply (balanced_restores ctx events Hb).
Qed.

Lemma balanced_events_are_walked_witness :
  exists st',
    walk a_context start triplet = Ok st'
    /\ scalar st' = Int 1 /\ scalar_stack st' = [].
Proof.
  apply (balanced_events_are_walked a_context triplet).
  - apply (balanced_tuplet 2 3 [Chord "eighth" None None None [a_note];
                                Chord "eighth" None None None [a_note];
                                Chord "eighth" None None None [a_note]] []);
      repeat constructor.
  - reflexivity.
Defined.

(** X11. An [endTuplet] that closes no open tuplet raises
    [IndexError]. *)
Theorem unmatched_endTuplet_raises (ctx : context) (pre rest : list event) :
  balanced pre -> forallb readable pre = true ->
  walk ctx start (pre ++ endTuplet :: rest) = Raise IndexError.
Proof.
  intros Hb Hr. rewrite walk_app.
  destruct (balanced_walk ctx pre Hb Hr start) as (st1 & H1).
  rewrite H1. cbn [bind walk step].
  destruct (balanced_restores ctx pre Hb _ _ H1) as [_ Hstack].
  cbn in Hstack. now rewrite Hstack.
Qed.

Lemma unmatched_endTuplet_raises_witness :
  walk a_context start (triplet ++ [endTuplet; Rest "quarter" None])
  = Raise IndexError.
Proof.
  apply (unmatched_endTuplet_raises a_context triplet).
  - apply (balanced_tuplet 2 3 [Chord "eighth" None None None [a_note];
                                Chord "eighth" None None None [a_note];
                                Chord "eighth" None None None [a_note]] []);
      repeat constructor.
  - reflexivity.
Defined.

Lemma walk_rows (ctx : context) (events : list event)
  (st st' : state) :
  walk ctx st events = Ok st' ->
  exists new,
    rows st' = rows st ++ new
    /\ map midi new = map pitch_text (flat_map notes_of events)
    /\ map tpc new = map (fun n => tpc_text n - 14) (flat_map notes_of events)
    /\ map tied new = map (fun n => tied_of (tie n)) (flat_map notes_of events)
    /\ Forall (fun r => mc r = ctx_mc ctx /\ mn r = ctx_mn ctx
                        /\ staff r = ctx_staff ctx /\ voice r = ctx_voice ctx
                        /\ volta r = ctx_volta ctx) new.
Proof.
  revert st; induction events as [|ev events IH]; intros st H.
  - injection H as <-. exists []. rewrite app_nil_r. repeat split.
    constructor.
  - cbn [walk] in H.
    destruct (step ctx st ev) as [st1|] eqn:Hstep; [|discriminate].
    cbn [bind] in H. destruct (IH st1 H) as (new & Hrows & Hm & Ht & Hd & Hc).
    assert (Hone : exists added,
               rows st1 = rows st ++ added
               /\ map midi added = map pitch_text (notes_of ev)
               /\ map tpc added = map (fun n => tpc_text n - 14) (notes_of ev)
               /\ map tied added = map (fun n => tied_of (tie n)) (notes_of ev)
               /\ Forall (fun r => mc r = ctx_mc ctx /\ mn r = ctx_mn ctx
                                   /\ staff r = ctx_staff ctx
                                   /\ voice r = ctx_voice ctx
                                   /\ volta r = ctx_volta ctx) added).
    { destruct ev as [n a | | d dots g art ns | d dots]; cbn [step] in Hstep.
      - destruct (frac2 n a); [|discriminate]. injection Hstep as <-.
        exists []. cbn. rewrite app_nil_r. repeat split. constructor.
      - destruct (scalar_stack st); [discriminate|]. injection Hstep as <-.
        exists []. cbn. rewrite app_nil_r. repeat split. constructor.
      - destruct (get d DURATIONS); [|discriminate]. cbn [bind] in Hstep.
        injection Hstep as <-. eexists. cbn [rows]. split; [reflexivity|].
        rewrite !map_map. cbn [midi tpc tied notes_of].
        repeat split. apply Forall_forall. intros r Hr.
        apply in_map_iff in Hr. destruct Hr as (nt & <- & _).
        repeat split.
      - destruct (get d DURATIONS); [|discriminate]. cbn [bind] in Hstep.
        injection Hstep as <-.
        exists []. cbn. rewrite app_nil_r. repeat split. constructor. }
    destruct Hone as (added & Ha & Hm1 & Ht1 & Hd1 & Hc1).
    exists (added ++ new). cbn [flat_map]. rewrite !map_app.
    rewrite Hrows, Ha, <- app_assoc, Hm, Ht, Hd, Hm1, Ht1, Hd1.
    repeat split. now apply Forall_app.
Qed.

(** X12. The walk appends one row for every [Note] element, in
    document order and after the rows that were there: with the pitch,
    the tonal pitch class less 14 and the tie of the element, and with
    the measure count, measure number, staff, voice and volta of the
    voice. *)
Theorem walk_appends_one_row_per_note (ctx : context) (events : list event)
  (st st' : state) :
  walk ctx st events = Ok st' ->
  exists new,
    rows st' = rows st ++ new
    /\ map midi new = map pitch_text (flat_map notes_of events)
    /\ map tpc new = map (fun n => tpc_text n - 14) (flat_map notes_of events)
    /\ map tied new = map (fun n => tied_of (tie n)) (flat_map notes_of events)
    /\ Forall (fun r => mc r = ctx_mc ctx /\ mn r = ctx_mn ctx
                        /\ staff r = ctx_staff ctx /\ voice r = ctx_voice ctx
                        /\ volta r = ctx_volta ctx) new.
Proof. apply walk_rows. Qed.

Lemma walk_appends_one_row_per_note_witness :
  exists st' new,
    walk a_context start triplet = Ok st'
    /\ rows st' = rows start ++ new
    /\ map midi new = [60; 60; 60]
    /\ map tpc new = [0; 0; 0].
Proof.
  destruct (walk a_context start triplet) as [st'|] eqn:H;
    [|vm_compute in H; discriminate].
  destruct (walk_appends_one_row_per_note a_context triplet start st' H)
    as (new & H1 & H2 & H3 & _).
  exists st', new. repeat split; assumption.
Defined.

(** ** The pointer bounds the notes *)

Lemma dot_sum_nonneg (d : Z) : (0 <= dot_sum d)%Q.
Proof.
  unfold dot_sum. generalize (seq 0 (Z.to_nat (d + 1))). intros l.
  induction l as [|i l IH]; cbn [map fold_right]; [lra|].
  assert (0 <= Qpower (1 # 2) (Z.of_nat i))%Q
    by (apply Qpower_0_le; lra).
  lra.
Qed.

Lemma fraction_token_positive (name : string) :
  fraction_token name = true ->
  exists q, get name DURATIONS = Ok (Frac q) /\ (0 < q)%Q.
Proof.
  unfold fraction_token. intros H. apply existsb_exists in H.
  destruct H as (k & Hk & Heq). apply String.eqb_eq in Heq. subst k.
  cbn in Hk.
  repeat (destruct Hk as [<- | Hk];
          [eexists; split; [vm_compute; reflexivity | reflexivity]|]).
  contradiction.
Qed.

Lemma StronglySorted_app {A : Type} (R : A -> A -> Prop) (l1 l2 : list A) :
  StronglySorted R l1 -> StronglySorted R l2 ->
  (forall x y, In x l1 -> In y l2 -> R x y) ->
  StronglySorted R (l1 ++ l2).
Proof.
  induction 1 as [|x l1 Hs IH Hall]; intros H2 Hcross; [exact H2|].
  cbn [app]. constructor.
  - apply IH; [exact H2|]. intros a b Ha Hb. apply Hcross; [now right|exact Hb].
  - apply Forall_app. split; [exact Hall|].
    apply Forall_forall. intros y Hy. apply Hcross; [now left | exact Hy].
Qed.

Lemma ends_by_later (P P' : Q) (r : note) :
  (P <= P')%Q -> ends_by P r -> ends_by P' r.
Proof.
  intros Hle (o & d & Ho & Hd & H0 & H1 & H2).
  exists o, d. repeat split; try assumption. lra.
Qed.

Lemma event_duration_nonneg (name : string) (dots : option Z) (sc : num) :
  fraction_token name = true -> nonneg sc ->
  exists nominal v,
    get name DURATIONS = Ok nominal
    /\ exact (mul nominal (dotscalar_of dots sc)) = Some v /\ (0 <= v)%Q.
Proof.
  intros Htok (s & Hs & Hs0).
  destruct (fraction_token_positive name Htok) as (q & Hq & Hq0).
  destruct (dotscalar_exact dots sc s Hs) as (z & Hz & Hzv).
  destruct (exact_mul (Frac q) (dotscalar_of dots sc) q z eq_refl Hz)
    as (v & Hv & Hvv).
  exists (Frac q), v. repeat split; try assumption.
  pose proof (dot_sum_nonneg (dots_value dots)) as Hd.
  rewrite Hvv, Hzv.
  apply Qmult_le_0_compat; [lra|]. now apply Qmult_le_0_compat.
Qed.

Lemma same_onset_sorted (f : note_tag -> note) (ns : list note_tag)
  (p : num) (P : Q) :
  (forall n, onset (f n) = p) -> exact p = Some P ->
  StronglySorted onset_le (map f ns).
Proof.
  intros Hf Hp. induction ns as [|nt ns IH]; cbn [map]; constructor;
    [exact IH|].
  apply Forall_forall. intros r Hr. apply in_map_iff in Hr.
  destruct Hr as (nt' & <- & _). exists P, P. rewrite !Hf.
  repeat split; try assumption. lra.
Qed.

Lemma step_bounded (ctx : context) (st st' : state) (ev : event) :
  fraction_tokens ev = true -> positive_ratio ev = true ->
  bounded st -> step ctx st ev = Ok st' -> bounded st'.
Proof.
  intros Htok Hpos (P & HP & HP0 & Hsc & Hstack & Hrows & Hsorted) Hstep.
  destruct ev as [n a | | d dots g art ns | d dots]; cbn [step] in Hstep.
  - cbn [positive_ratio] in Hpos. apply andb_true_iff in Hpos.
    destruct Hpos as [Hn Ha]. apply Z.ltb_lt in Hn, Ha.
    destruct (frac2_value n a ltac:(lia)) as (q & Hq & Hqv).
    rewrite Hq in Hstep. cbn [bind] in Hstep. injection Hstep as <-.
    exists P. fields. repeat split; try assumption.
    + destruct Hsc as (s & Hs & Hs0).
      destruct (exact_mul (scalar st) (Frac q) s q Hs eq_refl)
        as (z & Hz & Hzv).
      exists z. split; [exact Hz|]. rewrite Hzv, Hqv.
      apply Qmult_le_0_compat; [exact Hs0|].
      apply Qle_shift_div_l.
      * change 0%Q with (inject_Z 0). rewrite <- Zlt_Qlt. exact Ha.
      * rewrite Qmult_0_l. change 0%Q with (inject_Z 0).
        rewrite <- Zle_Qle. lia.
    + now constructor.
  - destruct (scalar_stack st) as [|top rest]; [discriminate|].
    injection Hstep as <-. inversion Hstack; subst.
    exists P. fields. repeat split; assumption.
  - cbn [fraction_tokens] in Htok.
    destruct (event_duration_nonneg d dots (scalar st) Htok Hsc)
      as (nominal & v & Hget & Hv & Hv0).
    rewrite Hget in Hstep. cbn [bind] in Hstep. injection Hstep as <-.
    set (dur := mul nominal (dotscalar_of dots (scalar st))) in *.
    destruct (exact_add (pointer st) dur P v HP Hv) as (P' & HP' & HPv).
    assert (Hold : forall r, In r (rows st) -> onset_le r
                     (mk_note (ctx_mc ctx) (ctx_mn ctx) (pointer st)
                        (Int 0) None nominal nominal None 0 0 0 0 None None)).
    { intros r Hr. rewrite Forall_forall in Hrows.
      destruct (Hrows r Hr) as (o & dd & Ho & _ & Ho0 & Hd0 & Hle).
      exists o, P. repeat split; try assumption. cbn [onset]. lra. }
    destruct g as [grace|].
    + exists P. fields. repeat split; try assumption.
      * apply Forall_app. split; [exact Hrows|].
        apply Forall_forall. intros r Hr. apply in_map_iff in Hr.
        destruct Hr as (nt & <- & _). exists P, 0%Q. fields.
        repeat split; try assumption; try reflexivity; lra.
      * apply StronglySorted_app; [exact Hsorted | |].
        -- apply (same_onset_sorted _ ns (pointer st) P); [|exact HP].
           reflexivity.
        -- intros x y Hx Hy. apply in_map_iff in Hy.
           destruct Hy as (nt & <- & _).
           destruct (Hold x Hx) as (o1 & o2 & H1 & H2 & H3).
           exists o1, o2. fields. repeat split; assumption.
    + exists P'. fields. repeat split; try assumption.
      * lra.
      * apply Forall_app. split.
        -- eapply Forall_impl; [|exact Hrows]. intros r.
           apply ends_by_later. lra.
        -- apply Forall_forall. intros r Hr. apply in_map_iff in Hr.
           destruct Hr as (nt & <- & _). exists P, v. fields.
           repeat split; try assumption. lra.
      * apply StronglySorted_app; [exact Hsorted | |].
        -- apply (same_onset_sorted _ ns (pointer st) P); [|exact HP].
           reflexivity.
        -- intros x y Hx Hy. apply in_map_iff in Hy.
           destruct Hy as (nt & <- & _).
           destruct (Hold x Hx) as (o1 & o2 & H1 & H2 & H3).
           exists o1, o2. fields. repeat split; assumption.
  - destruct (get d DURATIONS) as [nominal|]; [|discriminate].
    cbn [bind] in Hstep. injection Hstep as <-.
    exists P. repeat split; assumption.
Qed.

Lemma walk_bounded (ctx : context) (events : list event) :
  forallb fraction_tokens events = true ->
  forallb positive_ratio events = true ->
  forall st st', bounded st -> walk ctx st events = Ok st' -> bounded st'.
Proof.
  induction events as [|ev events IH]; intros Htok Hpos st st' Hst Hwalk.
  - cbn in Hwalk. now injection Hwalk as <-.
  - cbn [forallb] in Htok, Hpos. apply andb_true_iff in Htok, Hpos.
    destruct Htok as [Hev Hrest], Hpos as [Hp Hprest]. cbn [walk] in Hwalk.
    destruct (step ctx st ev) as [st1|] eqn:Hstep; [|discriminate].
    cbn [bind] in Hwalk.
    eapply IH; [exact Hrest | exact Hprest | | exact Hwalk].
    eapply step_bounded; eassumption.
Qed.

Lemma start_bounded : bounded start.
Proof.
  exists 0%Q. cbn. repeat split; try lra; try constructor.
  exists 1%Q. split; [reflexivity | lra].
Qed.

(** X13. Where the durations are fractions of a whole note and the
    tuplets have positive numbers of notes, the onsets of the rows do
    not decrease, and every note begins at or after 0 and ends at or
    before the position that the pointer has reached. *)
Theorem notes_end_by_the_pointer (ctx : context) (events : list event)
  (st' : state) :
  forallb fraction_tokens events = true ->
  forallb positive_ratio events = true ->
  walk ctx start events = Ok st' ->
  exists P,
    exact (pointer st') = Some P
    /\ Forall (ends_by P) (rows st')
    /\ StronglySorted onset_le (rows st').
Proof.
  intros Htok Hpos H.
  destruct (walk_bounded ctx events Htok Hpos start st' start_bounded H)
    as (P & HP & _ & _ & _ & Hrows & Hs).
  now exists P.
Qed.

Lemma notes_end_by_the_pointer_witness :
  exists st' P,
    walk a_context start triplet = Ok st'
    /\ exact (pointer st') = Some P
    /\ Forall (ends_by P) (rows st')
    /\ StronglySorted onset_le (rows st').
Proof.
  destruct (walk a_context start triplet) as [st'|] eqn:H;
    [|vm_compute in H; discriminate].
  destruct (notes_end_by_the_pointer a_context triplet st' eq_refl eq_refl H)
    as (P & H1 & H2 & H3).
  now exists st', P.
Defined.

End WalkerFacts.

(** ** Facts about [treat_section_index] and [Score.get_notes] *)

Module GetNotesFacts.
Import PyNum Series.
Import GetNotes.

Lemma treat_int (n i : Z) :
  treat_section_index n (IInt i)
  = (Ok (TInt (normalize n i)), warnings_for n [i]).
Proof.
  unfold warnings_for, normalize. cbn [treat_section_index flat_map].
  destruct (i <? 0); [destruct (i <? - n) | destruct (n - 1 <? i)];
    reflexivity.
Qed.

Lemma treat_list (n : Z) (l : list index) :
  treat_section_index n (IList l) = (ts <~ treat_all n l ;; ret (TList ts)).
Proof.
  cbn [treat_section_index]. f_equal.
  induction l as [|e l IH]; [reflexivity|].
  cbn [treat_all]. rewrite <- IH. reflexivity.
Qed.

Lemma treat_tuple (n : Z) (l : list index) :
  treat_section_index n (ITuple l) = (ts <~ treat_all n l ;; ret (TTuple ts)).
Proof.
  cbn [treat_section_index]. f_equal.
  induction l as [|e l IH]; [reflexivity|].
  cbn [treat_all]. rewrite <- IH. reflexivity.
Qed.

Lemma treat_all_ints (n : Z) (l : list Z) :
  treat_all n (map IInt l)
  = (Ok (map (fun i => TInt (normalize n i)) l), warnings_for n l).
Proof.
  induction l as [|i l IH]; [reflexivity|].
  cbn [map treat_all]. rewrite treat_int. cbn [mbind]. rewrite IH.
  unfold ret. cbn [mbind]. unfold warnings_for. cbn [flat_map].
  now rewrite !app_nil_r.
Qed.

Lemma treat_int_list (n : Z) (l : list Z) :
  treat_section_index n (IList (map IInt l))
  = (Ok (TList (map (fun i => TInt (normalize n i)) l)), warnings_for n l).
Proof.
  rewrite treat_list, treat_all_ints. unfold ret. cbn [mbind].
  now rewrite app_nil_r.
Qed.

Lemma section_numbers_ints (n : Z) (l : list Z) :
  section_numbers (map (fun i => TInt (normalize n i)) l)
  = (Ok (valid_sections n l), []).
Proof.
  induction l as [|i l IH]; [reflexivity|].
  cbn [map section_numbers]. unfold valid_sections. cbn [flat_map].
  destruct (normalize n i) as [s|].
  - rewrite IH. reflexivity.
  - exact IH.
Qed.






Section Outcomes.

Variable beat_label : Q -> num -> cell.

(** Without keyword arguments and without [beatsize], all that
    [get_notes] does after the selection is the postprocessing. *)
Lemma get_notes_plain (S : score) (section : option index)
  (multiindex : bool) :
  get_notes beat_label S section multiindex BNone []
  = (keys <~ select_sections (Z.of_nat (List.length (section_notes S)))
                             section ;;
     match keys with
     | None => ret None
     | Some keys =>
         df <~ postprocess multiindex (concat_notes S keys) ;;
         ret (Some df)
     end).
Proof.
  unfold get_notes.
  destruct (select_sections _ section) as [[[keys|]|e] l]; cbn [mbind];
    try reflexivity.
  cbn [activate initial_features]. unfold ret at 1. cbn [mbind].
  unfold add_features. cbn. destruct (postprocess _ _) as [[df'|e'] l'];
    reflexivity.
Qed.

End Outcomes.

(** ** Facts about keyword arguments *)

Lemma activate_ignores_values (cols : list string)
  (kwargs kwargs' : list (string * selector)) :
  map fst kwargs = map fst kwargs' ->
  forall features, activate cols features kwargs = activate cols features kwargs'.
Proof.
  revert kwargs'; induction kwargs as [|[f v] kwargs IH];
    intros [|[f' v'] kwargs'] Heq features; try discriminate; [reflexivity|].
  cbn in Heq. injection Heq as <- Heq. cbn [activate].
  destruct (Features.mem_string f cols); [now apply IH|].
  destruct (Features.mem_string f (map fst features)); cbn [mbind ret warning];
    rewrite (IH kwargs' Heq); reflexivity.
Qed.

Lemma available_not_base (f : string) (art : bool) :
  In f available_features -> Features.mem_string f (base_columns art) = false.
Proof.
  intros Hf. cbn in Hf.
  repeat (destruct Hf as [<- | Hf]; [now destruct art|]). contradiction.
Qed.

Lemma available_initial (f : string) (beatsize : beatsize_arg) :
  In f available_features ->
  Features.mem_string f (map fst (initial_features beatsize)) = true.
Proof.
  intros Hf. cbn in Hf.
  repeat (destruct Hf as [<- | Hf]; [now destruct beatsize|]). contradiction.
Qed.

Lemma active_update (f : string) (features : list (string * bool)) :
  active (update features f true) f = true.
Proof.
  unfold active. induction features as [|[k v] features IH]; cbn.
  - now rewrite String.eqb_refl.
  - destruct (String.eqb k f) eqn:Hk; cbn; rewrite Hk; [reflexivity|].
    exact IH.
Qed.

(** ** Valid section numbers *)

Lemma normalize_in_range (n i : Z) :
  normalize n i = if in_range n i then Some (i mod n) else None.
Proof.
  unfold normalize, in_range.
  destruct (Z.ltb_spec i 0), (Z.leb_spec (- n) i), (Z.ltb_spec i n);
    cbn [andb];
    repeat match goal with
           | |- context [?a <? ?b] => destruct (Z.ltb_spec a b)
           end; try lia; try reflexivity; f_equal.
  - apply Z.mod_unique with (q := -1); lia.
  - symmetry. apply Z.mod_small. lia.
Qed.

Lemma normalize_some (n i s : Z) :
  normalize n i = Some s -> 0 <= s < n /\ s = (if i <? 0 then n + i else i).
Proof.
  unfold normalize.
  destruct (Z.ltb_spec i 0); [destruct (Z.ltb_spec i (- n))
                             | destruct (Z.ltb_spec (n - 1) i)];
    intros H'; try discriminate; injection H' as <-; lia.
Qed.

Lemma normalize_valid (n s : Z) : 0 <= s < n -> normalize n s = Some s.
Proof.
  intros H. unfold normalize.
  destruct (Z.ltb_spec s 0); [lia|].
  destruct (Z.ltb_spec (n - 1) s); [lia|reflexivity].
Qed.

(** X14. An integer that [treat_section_index] accepts comes back as
    the number of a section: the integer itself, or the number of
    sections more where it is negative, without a log record; treating
    the result once more changes nothing. *)
Theorem treated_index_is_valid (n i s : Z) (l : log) :
  treat_section_index n (IInt i) = (Ok (TInt (Some s)), l) ->
  0 <= s < n
  /\ s = (if i <? 0 then n + i else i)
  /\ l = []
  /\ treat_section_index n (IInt s) = (Ok (TInt (Some s)), []).
Proof.
  rewrite treat_int. intros H. injection H as Hs Hl.
  destruct (normalize_some _ _ _ Hs) as [Hr He].
  repeat split; try lia; try assumption.
  - subst l. unfold warnings_for. cbn [flat_map]. now rewrite Hs.
  - rewrite treat_int, (normalize_valid _ _ Hr). unfold warnings_for.
    cbn [flat_map]. now rewrite (normalize_valid _ _ Hr).
Qed.

Lemma treated_index_is_valid_witness :
  treat_section_index 3 (IInt (-1)) = (Ok (TInt (Some 2)), [])
  /\ 0 <= 2 < 3
  /\ treat_section_index 3 (IInt 2) = (Ok (TInt (Some 2)), []).
Proof.
  assert (H : treat_section_index 3 (IInt (-1)) = (Ok (TInt (Some 2)), []))
    by reflexivity.
  destruct (treated_index_is_valid 3 (-1) 2 [] H) as (Hr & _ & _ & Hf).
  exact (conj H (conj Hr Hf)).
Defined.

(** ** Keys *)

Lemma count_of_cons (s x : Z) (l : list Z) :
  count_of s (x :: l) = ((if (s =? x)%Z then 1 else 0) + count_of s l)%nat.
Proof. unfold count_of. cbn [filter]. destruct (s =? x); reflexivity. Qed.

Lemma count_of_app (s : Z) (l1 l2 : list Z) :
  count_of s (l1 ++ l2) = (count_of s l1 + count_of s l2)%nat.
Proof. unfold count_of. now rewrite filter_app, length_app. Qed.

Lemma count_of_In (s : Z) (l : list Z) : In s l -> (0 < count_of s l)%nat.
Proof.
  induction l as [|x l IH]; [contradiction|].
  rewrite count_of_cons. intros [-> | H].
  - rewrite Z.eqb_refl. lia.
  - apply IH in H. lia.
Qed.

Lemma count_of_NoDup (s : Z) (l : list Z) : NoDup l -> (count_of s l <= 1)%nat.
Proof.
  induction 1 as [|x l Hx Hl IH]; [cbn; lia|].
  rewrite count_of_cons. destruct (Z.eqb_spec s x) as [-> | Hne]; [|lia].
  destruct (count_of x l) eqn:E; [lia|].
  exfalso. apply Hx. unfold count_of in E.
  destruct (filter (Z.eqb x) l) as [|y t] eqn:F; [discriminate|].
  assert (Hy : In y (filter (Z.eqb x) l)) by (rewrite F; now left).
  apply filter_In in Hy. destruct Hy as [Hy Heq].
  apply Z.eqb_eq in Heq. now subst.
Qed.

Lemma keys_from_fst (treated seen all : list Z) :
  map fst (keys_from treated seen all) = treated.
Proof.
  revert seen; induction treated as [|s rest IH]; intros seen;
    [reflexivity|].
  cbn [keys_from map fst]. now rewrite IH.
Qed.

Lemma keys_from_plain (treated seen all : list Z) :
  (forall s, In s treated -> (count_of s all <= 1)%nat) ->
  keys_from treated seen all = map (fun s => (s, None)) treated.
Proof.
  revert seen; induction treated as [|s rest IH]; intros seen H;
    [reflexivity|].
  cbn [keys_from map]. rewrite IH by (intros; apply H; now right).
  destruct (Nat.ltb_spec 1 (count_of s all)) as [Hc|Hc]; [|reflexivity].
  specialize (H s (or_introl eq_refl)). lia.
Qed.

Lemma keys_of_NoDup (l : list Z) :
  NoDup l -> keys_of l = map (fun s => (s, None)) l.
Proof.
  intros H. apply keys_from_plain. intros s _. now apply count_of_NoDup.
Qed.

(** The letters of the keys that follow are those of later occurrences. *)
Lemma keys_from_letters (treated seen all : list Z) (s : Z) (c : option ascii) :
  In (s, c) (keys_from treated seen all) ->
  In s treated
  /\ (c = None /\ (count_of s all <= 1)%nat
      \/ exists k, c = Some (ascii_of_nat (97 + k))
                   /\ (count_of s seen <= k < count_of s seen + count_of s treated)%nat).
Proof.
  revert seen; induction treated as [|x rest IH]; intros seen H;
    [contradiction|].
  cbn [keys_from] in H. destruct H as [H | H].
  - injection H as -> <-. split; [now left|].
    destruct (Nat.ltb_spec 1 (count_of s all)); [right|left; split; auto].
    exists (count_of s seen). split; [reflexivity|].
    rewrite count_of_cons, Z.eqb_refl. lia.
  - apply IH in H. destruct H as [Hin [H | (k & -> & Hk)]].
    + split; [now right | now left].
    + split; [now right|]. right. exists k. split; [reflexivity|].
      rewrite !count_of_cons in *. destruct (s =? x); lia.
Qed.

Lemma ascii_of_nat_inj (a b : nat) :
  (a < 256)%nat -> (b < 256)%nat -> ascii_of_nat a = ascii_of_nat b -> a = b.
Proof.
  intros Ha Hb H.
  rewrite <- (nat_ascii_embedding a Ha), <- (nat_ascii_embedding b Hb).
  now rewrite H.
Qed.

Lemma keys_from_distinct (treated seen all : list Z) :
  (forall s, In s treated ->
             (count_of s seen + count_of s treated <= count_of s all)%nat
             /\ (count_of s all < 160)%nat) ->
  NoDup (keys_from treated seen all).
Proof.
  revert seen; induction treated as [|x rest IH]; intros seen H;
    [constructor|].
  cbn [keys_from]. constructor.
  - intros Hin. apply keys_from_letters in Hin.
    destruct Hin as [Hx Hc].
    destruct (H x (or_introl eq_refl)) as [Hle Hb].
    rewrite count_of_cons, Z.eqb_refl in Hle.
    pose proof (count_of_In _ _ Hx) as Hpos.
    destruct (Nat.ltb_spec 1 (count_of x all)) as [Hgt|Hgt]; [|lia].
    destruct Hc as [[Hc _] | (k & Hc & Hk)]; [discriminate|].
    rewrite count_of_cons, Z.eqb_refl in Hk.
    injection Hc as Hc. apply ascii_of_nat_inj in Hc; lia.
  - apply IH. intros s Hs.
    destruct (H s (or_intror Hs)) as [Hle Hb]. split; [|exact Hb].
    rewrite !count_of_cons in *. destruct (s =? x); lia.
Qed.

(** X15. The keys of the selected sections name the sections in the
    order of the selection, and no key occurs twice: the occurrences of
    a section that is selected more than once differ in their letters,
    which stay within one byte for up to 159 occurrences. *)
Theorem repeated_sections_get_distinct_keys (ss : list Z) :
  (forall s, (count_of s ss < 160)%nat) ->
  map fst (keys_of ss) = ss /\ NoDup (keys_of ss).
Proof.
  intros H. split; [apply keys_from_fst|].
  apply keys_from_distinct. intros s _. split; [cbn; lia | apply H].
Qed.

Lemma In_count (s : Z) (l : list Z) : (0 < count_of s l)%nat -> In s l.
Proof.
  induction l as [|x l IH]; [cbn; lia|].
  rewrite count_of_cons. destruct (Z.eqb_spec s x); [now left|].
  intros Hc. right. apply IH. lia.
Qed.

Lemma repeated_sections_get_distinct_keys_witness :
  keys_of [0; 2; 0; 1; 0]
  = [(0, Some "a"%char); (2, None); (0, Some "b"%char); (1, None);
     (0, Some "c"%char)]
  /\ map fst (keys_of [0; 2; 0; 1; 0]) = [0; 2; 0; 1; 0]
  /\ NoDup (keys_of [0; 2; 0; 1; 0]).
Proof.
  split; [reflexivity|].
  apply (repeated_sections_get_distinct_keys [0; 2; 0; 1; 0]).
  intros s. 
  assert (count_of s [0; 2; 0; 1; 0]%Z <= 5)%nat; [|lia].
  unfold count_of. 
  etransitivity; [apply (filter_length_le (Z.eqb s))|]. cbn. lia.
Defined.

(** ** Pairs of section indices *)

Lemma range_bounds (b : Z) (k : nat) (x : Z) :
  In x (range b k) -> b <= x < b + Z.of_nat k.
Proof.
  revert b; induction k as [|k IH]; cbn [range]; intros b H;
    [contradiction|].
  destruct H as [<- | H]; [lia | apply IH in H; lia].
Qed.

Lemma range_NoDup (b : Z) (k : nat) : NoDup (range b k).
Proof.
  revert b; induction k as [|k IH]; intros b; cbn [range]; constructor.
  - intros H. apply range_bounds in H. lia.
  - apply IH.
Qed.

Lemma span_bounds (fro to x : Z) :
  In x (span fro to) -> Z.min fro to <= x <= Z.max fro to.
Proof.
  unfold span. destruct (Z.leb_spec fro to); intros Hx.
  - apply range_bounds in Hx. lia.
  - apply in_rev in Hx. apply range_bounds in Hx. lia.
Qed.

Lemma span_NoDup (fro to : Z) : NoDup (span fro to).
Proof.
  unfold span. destruct (fro <=? to).
  - apply range_NoDup.
  - apply NoDup_rev, range_NoDup.
Qed.

Lemma span_nonempty (fro to : Z) : span fro to <> [].
Proof.
  unfold span. destruct (Z.leb_spec fro to).
  - destruct (Z.to_nat (to + 1 - fro)) eqn:E; [lia | discriminate].
  - destruct (Z.to_nat (fro + 1 - to)) eqn:E; [lia|].
    cbn [range rev]. intros Hx. now apply app_eq_nil in Hx as [_ Hx].
Qed.

Lemma valid_all (n : Z) (l : list Z) :
  (forall s, In s l -> 0 <= s < n) ->
  valid_sections n l = l /\ warnings_for n l = [].
Proof.
  unfold valid_sections, warnings_for.
  induction l as [|s l IH]; intros H; [split; reflexivity|].
  cbn [flat_map]. rewrite (normalize_valid n s) by (apply H; now left).
  destruct IH as [-> ->]; [intros; apply H; now right|]. split; reflexivity.
Qed.

(** The selection for a pair of integers. *)
Lemma select_pair (n a b : Z) :
  0 < n ->
  select_sections n (Some (ITuple [IInt a; IInt b]))
  = (Ok (Some (map (fun s => (s, None))
                   (span (if in_range n a then a mod n else 0)
                         (if in_range n b then b mod n else n - 1)))),
     pair_warnings n a b).
Proof.
  intros Hn. unfold pair_warnings, select_sections.
  assert (Htuple :
    treat_section_index n (ITuple [IInt a; IInt b])
    = (Ok (TTuple [TInt (normalize n a); TInt (normalize n b)]),
       warnings_for n [a; b])).
  { rewrite treat_tuple. change [IInt a; IInt b] with (map IInt [a; b]).
    rewrite treat_all_ints. unfold ret. cbn [mbind map].
    now rewrite app_nil_r. }
  rewrite Htuple. cbn [mbind]. unfold warnings_for. cbn [flat_map].
  rewrite !normalize_in_range.
  assert (Hspan : forall fro to, 0 <= fro < n -> 0 <= to < n ->
            treat_section_index n
              (IList (map IInt
                 (if fro <=? to then range fro (Z.to_nat (to + 1 - fro))
                  else rev (range to (Z.to_nat (fro + 1 - to))))))
            = (Ok (TList (map (fun i => TInt (normalize n i)) (span fro to))),
               [])
            /\ section_numbers
                 (map (fun i => TInt (normalize n i)) (span fro to))
               = (Ok (span fro to), [])
            /\ exists s rest, span fro to = s :: rest
                              /\ keys_of (span fro to)
                                 = map (fun s => (s, None)) (span fro to)).
  { intros fro to Hf Ht. fold (span fro to).
    destruct (valid_all n (span fro to)) as [Hv Hw].
    { intros s Hs. apply span_bounds in Hs. lia. }
    rewrite treat_int_list, section_numbers_ints, Hv, Hw.
    repeat split.
    pose proof (span_nonempty fro to).
    destruct (span fro to) as [|s rest] eqn:E; [contradiction|].
    exists s, rest. split; [reflexivity|].
    rewrite <- E. apply keys_of_NoDup, span_NoDup. }
  assert (Ha : 0 <= a mod n < n) by (apply Z.mod_pos_bound; lia).
  assert (Hb : 0 <= b mod n < n) by (apply Z.mod_pos_bound; lia).
  destruct (in_range n a), (in_range n b); unfold ret, warning;
    cbn [mbind app];
    match goal with
    | |- context [treat_section_index n (IList (map IInt
                    (if ?f <=? ?t then _ else _)))] =>
        destruct (Hspan f t) as (H1 & H2 & s & rest & H3 & H4); try lia;
        rewrite H1; cbn [mbind]; rewrite H2; cbn [mbind];
        rewrite <- H4; rewrite H3; reflexivity
    end.
Qed.

(** X16. A pair of integers selects the sections from the first to the
    second, in descending order where the second is the smaller one; an
    integer that is no section of the score is replaced by the first
    section in first place and by the last section in second place, with
    two warnings each. *)
Theorem pair_selects_span (n a b : Z) :
  0 < n ->
  select_sections n (Some (ITuple [IInt a; IInt b]))
  = (Ok (Some (map (fun s => (s, None))
                   (span (if in_range n a then a mod n else 0)
                         (if in_range n b then b mod n else n - 1)))),
     (if in_range n a then [] else [(WARNING, does_not_exist)])
     ++ (if in_range n b then [] else [(WARNING, does_not_exist)])
     ++ (if in_range n a then []
         else [(WARNING, "Replaced by first section 0."%string)])
     ++ (if in_range n b then []
         else [(WARNING, "Replaced by last section."%string)])).
Proof. apply select_pair. Qed.

Lemma pair_selects_span_witness :
  select_sections 4 (Some (ITuple [IInt 3; IInt 0]))
  = (Ok (Some [(3, None); (2, None); (1, None); (0, None)]), [])
  /\ select_sections 4 (Some (ITuple [IInt (-4); IInt (-1)]))
     = (Ok (Some [(0, None); (1, None); (2, None); (3, None)]), []).
Proof.
  split.
  - exact (pair_selects_span 4 3 0 eq_refl).
  - exact (pair_selects_span 4 (-4) (-1) eq_refl).
Defined.

(** ** The notes of all sections *)

Lemma indexed_snd {A : Type} (start : Z) (l : list A) :
  map snd (Sections.indexed start l) = l.
Proof.
  revert start; induction l as [|x l IH]; intros start; [reflexivity|].
  cbn. now rewrite IH.
Qed.

Lemma indexed_fst {A : Type} (start : Z) (l : list A) :
  map fst (Sections.indexed start l) = range start (List.length l).
Proof.
  revert start; induction l as [|x l IH]; intros start; [reflexivity|].
  cbn. now rewrite IH.
Qed.

Lemma indexed_length {A : Type} (start : Z) (l : list A) :
  List.length (Sections.indexed start l) = List.length l.
Proof.
  revert start; induction l as [|x l IH]; intros start; [reflexivity|].
  cbn. now rewrite IH.
Qed.

Lemma flat_map_sections {A B : Type} (g : list A -> list B)
  (pre l : list (list A)) :
  flat_map (fun k : key => g (nth (Z.to_nat (fst k)) (pre ++ l) []))
           (map (fun s => (s, None))
                (range (Z.of_nat (List.length pre)) (List.length l)))
  = flat_map g l.
Proof.
  revert pre; induction l as [|x l IH]; intros pre; [reflexivity|].
  cbn [List.length range map flat_map fst].
  rewrite Nat2Z.id, nth_middle. f_equal.
  specialize (IH (pre ++ [x])).
  rewrite <- app_assoc, length_app, Nat2Z.inj_add in IH. exact IH.
Qed.

Lemma concat_notes_cells (S : score) (keys : list key) :
  map cells (body (concat_notes S keys))
  = flat_map (fun k : key =>
                map (cells_of (with_articulation S))
                    (nth (Z.to_nat (fst k)) (section_notes S) []))
             keys.
Proof.
  unfold concat_notes. cbn [body].
  induction keys as [|k keys IH]; [reflexivity|].
  cbn [flat_map]. rewrite map_app, IH. f_equal.
  rewrite map_map. cbn [cells].
  rewrite <- (map_map snd (cells_of (with_articulation S))).
  now rewrite indexed_snd.
Qed.

Lemma concat_all_notes (S : score) :
  map cells
    (body (concat_notes S
             (map (fun s => (s, None))
                  (range 0 (List.length (section_notes S))))))
  = map (cells_of (with_articulation S)) (List.concat (section_notes S)).
Proof.
  rewrite concat_notes_cells.
  pose proof (flat_map_sections (map (cells_of (with_articulation S))) []
                (section_notes S)) as H.
  cbn [app List.length Z.of_nat] in H. rewrite H.
  rewrite flat_map_concat_map. now rewrite concat_map.
Qed.

Lemma drop_n_columns (df : frame) :
  Features.mem_string "n" (columns (drop_n df)) = false.
Proof.
  unfold drop_n.
  destruct (Features.mem_string "n" (columns df)) eqn:E; [|exact E].
  cbn [columns]. unfold Features.mem_string. clear E.
  induction (columns df) as [|c cs IH]; [reflexivity|].
  cbn [filter]. destruct (String.eqb_spec c "n") as [-> | Hne]; cbn [negb].
  - apply IH.
  - cbn [existsb]. rewrite IH, orb_false_r.
    apply String.eqb_neq. congruence.
Qed.

Lemma drop_n_absent (df : frame) :
  Features.mem_string "n" (columns df) = false -> drop_n df = df.
Proof. unfold drop_n. now intros ->. Qed.

Lemma reset_rows (df : frame) :
  map row_ix (body (reset df)) = range 0 (List.length (body df))
  /\ Forall (fun r => row_key r = None) (body (reset df))
  /\ map cells (body (reset df)) = map cells (body df)
  /\ columns (reset df) = columns df
  /\ two_levels (reset df) = false.
Proof.
  unfold reset. cbn [body columns two_levels]. repeat split.
  - rewrite map_map. cbn [row_ix]. rewrite <- indexed_fst.
    reflexivity.
  - apply Forall_forall. intros r Hr. apply in_map_iff in Hr.
    destruct Hr as (ir & <- & _). reflexivity.
  - rewrite map_map. cbn [cells].
    rewrite <- (map_map snd cells). now rewrite indexed_snd.
Qed.

Section Results.

Variable beat_label : Q -> num -> cell.

(** X17. Without a selection and without keywords, [get_notes]
    returns the notes of all sections in the order of the sections, with
    the columns and the values of the note lists; it logs a record only
    where there is no note. *)
Theorem get_notes_returns_every_note (S : score) (multiindex : bool) :
  exists df,
    get_notes beat_label S None multiindex BNone []
    = (Ok (Some df),
       match List.concat (section_notes S) with
       | [] => [(INFO, "No notes exist for this selection."%string)]
       | _ => []
       end)
    /\ columns df = base_columns (with_articulation S)
    /\ map cells (body df)
       = map (cells_of (with_articulation S)) (List.concat (section_notes S)).
Proof.
  rewrite get_notes_plain. unfold select_sections, ret. cbn [mbind].
  rewrite Nat2Z.id.
  set (df0 := concat_notes S _).
  assert (Hc : map cells (body df0)
               = map (cells_of (with_articulation S))
                     (List.concat (section_notes S)))
    by apply concat_all_notes.
  assert (Hn : Features.mem_string "n" (columns df0) = false)
    by (cbn; now destruct (with_articulation S)).
  unfold postprocess. rewrite (drop_n_absent _ Hn).
  exists (if multiindex then df0 else reset df0).
  split.
  - destruct (body df0), (List.concat (section_notes S));
      try discriminate; reflexivity.
  - destruct multiindex.
    + split; [reflexivity | exact Hc].
    + destruct (reset_rows df0) as (_ & _ & H3 & H4 & _).
      split; [exact H4 | now rewrite H3].
Qed.

Lemma get_notes_postprocessed (S : score) (section : option index)
  (multiindex : bool) (beatsize : beatsize_arg)
  (kwargs : list (string * selector)) (df : frame) (l : log) :
  get_notes beat_label S section multiindex beatsize kwargs
  = (Ok (Some df), l) ->
  exists d, df = if multiindex then drop_n d else reset (drop_n d).
Proof.
  unfold get_notes, lift, postprocess, ret.
  destruct (select_sections _ section) as [[[keys|]|e] l0]; cbn [mbind];
    try discriminate.
  destruct (activate _ _ kwargs) as [[features|e] l1]; cbn [mbind];
    try discriminate.
  destruct (add_features _ _ _ _ _) as [d1|e]; cbn [mbind]; try discriminate.
  destruct (apply_filters d1 kwargs) as [d2|e]; cbn [mbind];
    try discriminate.
  destruct (body d2); cbn [mbind]; intros H; injection H as <- _;
    now exists d2.
Qed.

(** X18. A frame that [get_notes] returns never has a column [n];
    with [multiindex=False] its index is 0, 1, ... and holds no section
    keys. *)
Theorem get_notes_index_and_columns (S : score) (section : option index)
  (multiindex : bool) (beatsize : beatsize_arg)
  (kwargs : list (string * selector)) (df : frame) (l : log) :
  get_notes beat_label S section multiindex beatsize kwargs
  = (Ok (Some df), l) ->
  Features.mem_string "n" (columns df) = false
  /\ (multiindex = false ->
      map row_ix (body df) = range 0 (List.length (body df))
      /\ Forall (fun r => row_key r = None) (body df)
      /\ two_levels df = false).
Proof.
  intros H. apply get_notes_postprocessed in H. destruct H as [d ->].
  destruct multiindex.
  - split; [apply drop_n_columns | discriminate].
  - destruct (reset_rows (drop_n d)) as (H1 & H2 & _ & H4 & H5).
    split; [rewrite H4; apply drop_n_columns|].
    intros _. rewrite H1. repeat split; try assumption.
    unfold reset. cbn [body]. now rewrite length_map, indexed_length.
Qed.

End Results.

Lemma get_notes_index_and_columns_witness :
  exists df,
    get_notes unlabelled three_sections (Some (IList [IInt 2; IInt 0])) false
              BNone [("n"%string, SelRange 0 5)]
    = (Ok (Some df), [])
    /\ Features.mem_string "n" (columns df) = false
    /\ map row_ix (body df) = [0; 1].
Proof.
  eexists. split; [reflexivity|].
  match goal with
  | |- Features.mem_string _ (columns ?d) = _ /\ _ =>
      destruct (get_notes_index_and_columns unlabelled three_sections
                  (Some (IList [IInt 2; IInt 0])) false BNone
                  [("n"%string, SelRange 0 5)] d [] eq_refl) as [H1 H2]
  end.
  split; [exact H1|].
  destruct (H2 eq_refl) as [H3 _]. exact H3.
Defined.


(** ** Filters *)

Lemma filter_rows_passes (feature : string) (sel : selector)
  (rows rows' : list df_row) :
  sel <> SelBool false ->
  filter_rows feature sel rows = Ok rows' ->
  rows' = filter (fun r => passes r (feature, sel)) rows.
Proof.
  intros Hsel. revert rows'; induction rows as [|r rows IH]; intros rows' H.
  - now injection H as <-.
  - cbn [filter_rows bind] in H. cbn [filter].
    assert (Hp : passes r (feature, sel)
                 = match cell_of feature (cells r) with
                   | Ok c => match selects feature sel c with
                             | Ok b => b
                             | Raise _ => false
                             end
                   | Raise _ => false
                   end).
    { destruct sel as [a | [|] | lo hi | a b others]; try reflexivity.
      exfalso. now apply Hsel. }
    rewrite Hp.
    destruct (cell_of feature (cells r)) as [c|e]; cbn [bind] in H;
      [|discriminate].
    destruct (selects feature sel c) as [keep|e]; cbn [bind] in H;
      [|discriminate].
    destruct (filter_rows feature sel rows) as [rest|e]; cbn [bind] in H;
      [|discriminate].
    injection H as <-. now rewrite <- (IH rest eq_refl).
Qed.

Lemma filter_filter {A : Type} (p q : A -> bool) (l : list A) :
  filter q (filter p l) = filter (fun x => p x && q x) l.
Proof.
  induction l as [|x l IH]; [reflexivity|].
  cbn [filter]. destruct (p x); cbn [filter andb]; now rewrite IH.
Qed.

Lemma apply_filters_body (kwargs : list (string * selector)) (df df' : frame) :
  apply_filters df kwargs = Ok df' ->
  columns df' = columns df
  /\ two_levels df' = two_levels df
  /\ body df' = filter (fun r => forallb (passes r) kwargs) (body df).
Proof.
  revert df; induction kwargs as [|[feature sel] rest IH]; intros df H.
  - injection H as <-. repeat split.
    cbn [forallb]. induction (body df) as [|r l IHl]; [reflexivity|].
    cbn [filter]. now rewrite <- IHl.
  - assert (Hskip : sel = SelBool false \/ sel <> SelBool false).
    { destruct sel as [a | [|] | lo hi | a b others];
        (now left) || (right; discriminate). }
    destruct Hskip as [-> | Hsel].
    + cbn [apply_filters] in H. apply IH in H.
      destruct H as (H1 & H2 & H3). repeat split; assumption.
    + assert (Hstep :
        apply_filters df ((feature, sel) :: rest)
        = if Features.mem_string feature (columns df) then
            rows <- filter_rows feature sel (body df) ;;
            apply_filters (mk_frame (columns df) rows (two_levels df)) rest
          else Raise KeyError).
      { destruct sel as [a | [|] | lo hi | a b others]; try reflexivity.
        exfalso. now apply Hsel. }
      rewrite Hstep in H.
      destruct (Features.mem_string feature (columns df)); [|discriminate].
      destruct (filter_rows feature sel (body df)) as [rows|e] eqn:Hr;
        cbn [bind] in H; [|discriminate].
      apply IH in H. cbn [columns two_levels body] in H.
      destruct H as (H1 & H2 & H3). repeat split; try assumption.
      rewrite H3, (filter_rows_passes _ _ _ _ Hsel Hr), filter_filter.
      apply filter_ext. intros r. reflexivity.
Qed.

Lemma forallb_permutation {A : Type} (p : A -> bool) (l l' : list A) :
  Permutation l l' -> forallb p l = forallb p l'.
Proof.
  induction 1 as [| x l l' _ IH | x y l | l l' l'' _ IH1 _ IH2];
    cbn [forallb].
  - reflexivity.
  - now rewrite IH.
  - destruct (p x), (p y); reflexivity.
  - now rewrite IH1.
Qed.

(** X19. The filters of the keywords keep the columns and select, in
    their order, exactly the rows that pass every filter; the order of
    the keywords makes no difference to the result. *)
Theorem filters_select_the_rows_that_pass_all
  (kwargs : list (string * selector)) (df df' : frame) :
  apply_filters df kwargs = Ok df' ->
  columns df' = columns df
  /\ body df' = filter (fun r => forallb (passes r) kwargs) (body df)
  /\ forall kwargs' df'',
       Permutation kwargs kwargs' ->
       apply_filters df kwargs' = Ok df'' -> df'' = df'.
Proof.
  intros H. destruct (apply_filters_body _ _ _ H) as (H1 & H2 & H3).
  repeat split; try assumption.
  intros kwargs' df'' Hp H'.
  destruct (apply_filters_body _ _ _ H') as (H1' & H2' & H3').
  destruct df' as [c b t], df'' as [c' b' t'].
  cbn [columns body two_levels] in *. subst. f_equal.
  apply filter_ext. intros r. symmetry. now apply forallb_permutation.
Qed.


Lemma filters_select_the_rows_that_pass_all_witness :
  exists df',
    apply_filters two_notes
      [("mc"%string, SelRange 1 5); ("midi"%string, SelValue (AInt 60))]
    = Ok df'
    /\ List.length (body df') = 1%nat
    /\ apply_filters two_notes
         [("midi"%string, SelValue (AInt 60)); ("mc"%string, SelRange 1 5)]
       = Ok df'.
Proof.
  eexists. split; [reflexivity|]. split; [reflexivity|].
  match goal with
  | |- _ = Ok ?d =>
      destruct (filters_select_the_rows_that_pass_all
                  [("mc"%string, SelRange 1 5);
                   ("midi"%string, SelValue (AInt 60))]
                  two_notes d eq_refl) as (_ & _ & H)
  end.
  rewrite <- (H [("midi"%string, SelValue (AInt 60));
                 ("mc"%string, SelRange 1 5)] _
                (perm_swap _ _ _) eq_refl).
  reflexivity.
Defined.

Lemma mem_string_In (c : string) (l : list string) :
  Features.mem_string c l = true <-> In c l.
Proof.
  unfold Features.mem_string. rewrite existsb_exists. split.
  - intros (k & Hk & Heq). apply String.eqb_eq in Heq. now subst.
  - intros H. exists c. split; [exact H | apply String.eqb_refl].
Qed.

Lemma mem_string_app (c : string) (l l' : list string) :
  Features.mem_string c (l ++ l')
  = Features.mem_string c l || Features.mem_string c l'.
Proof. apply existsb_app. Qed.

Lemma cell_of_raises (c : string) (cs : list (string * cell)) (e : exn) :
  cell_of c cs = Raise e -> e = KeyError.
Proof.
  induction cs as [|[k v] cs IH]; cbn [cell_of]; [congruence|].
  destruct (String.eqb k c); [discriminate | exact IH].
Qed.

Lemma cell_of_app (c : string) (cs more : list (string * cell)) :
  cell_of c (cs ++ more)
  = match cell_of c cs with
    | Ok v => Ok v
    | Raise _ => cell_of c more
    end.
Proof.
  induction cs as [|[k v] cs IH]; [reflexivity|].
  cbn [app cell_of]. destruct (String.eqb k c); [reflexivity | exact IH].
Qed.

Lemma cell_of_other (c name : string) (v : cell) (cs : list (string * cell)) :
  name <> c -> cell_of c (cs ++ [(name, v)]) = cell_of c cs.
Proof.
  intros Hne. rewrite cell_of_app.
  destruct (cell_of c cs) as [x|e] eqn:E; [reflexivity|].
  cbn [cell_of]. destruct (String.eqb_spec name c); [contradiction|].
  now rewrite (cell_of_raises _ _ _ E).
Qed.

Lemma cells_of_filled (art : bool) (k : option key) (i : Z)
  (r : Walker.note) :
  filled (base_columns art) (mk_df_row k i (cells_of art r)).
Proof.
  split.
  - intros c Hc. apply mem_string_In in Hc. cbn [cells].
    destruct art; cbn in Hc;
      repeat (destruct Hc as [<- | Hc]; [reflexivity|]); contradiction.
  - intros c s Hc. apply mem_string_In in Hc. cbn [cells].
    cbn in Hc.
    repeat (destruct Hc as [<- | Hc];
            [destruct art; cbn;
             destruct (Walker.tied r), (Walker.volta r); discriminate|]).
    contradiction.
Qed.

Lemma concat_notes_filled (S : score) (keys : list key) :
  Forall (filled (base_columns (with_articulation S)))
         (body (concat_notes S keys)).
Proof.
  unfold concat_notes. cbn [body]. apply Forall_forall. intros r Hr.
  apply in_flat_map in Hr. destruct Hr as (k & _ & Hr).
  apply in_map_iff in Hr. destruct Hr as (ir & <- & _).
  apply cells_of_filled.
Qed.

(** ** Features that are active *)



(** ** Frames with a cell for every column *)

Lemma filled_append (cols : list string) (r : df_row) (name : string)
  (v : cell) :
  filled cols r ->
  (Features.mem_string name number_columns = true -> forall s, v <> Str s) ->
  filled (cols ++ [name])
         (mk_df_row (row_key r) (row_ix r) (cells r ++ [(name, v)])).
Proof.
  intros [Hall Hnum] Hv. split.
  - intros c Hc. cbn [cells]. rewrite cell_of_app.
    rewrite mem_string_app in Hc.
    destruct (cell_of c (cells r)) as [x|e] eqn:E; [reflexivity|].
    destruct (Features.mem_string c cols) eqn:Hcols.
    + specialize (Hall c Hcols). rewrite E in Hall. discriminate.
    + cbn [orb] in Hc. apply mem_string_In in Hc.
      destruct Hc as [<- | []]. cbn [cell_of].
      now rewrite String.eqb_refl.
  - intros c s Hc. cbn [cells]. rewrite cell_of_app.
    destruct (cell_of c (cells r)) as [x|e] eqn:E.
    + rewrite <- E. now apply Hnum.
    + cbn [cell_of]. destruct (String.eqb_spec name c) as [-> | Hne];
        [|discriminate].
      intros H. injection H as H. exact (Hv Hc s H).
Qed.

Lemma filled_cons (cols : list string) (r : df_row) (name : string)
  (a : num) :
  filled cols r ->
  filled (name :: cols)
         (mk_df_row (row_key r) (row_ix r) ((name, Num a) :: cells r)).
Proof.
  intros [Hall Hnum]. split.
  - intros c Hc. cbn [cells cell_of].
    destruct (String.eqb_spec name c) as [-> | Hne]; [reflexivity|].
    apply Hall. unfold Features.mem_string in *. cbn [existsb] in Hc.
    apply orb_true_iff in Hc. destruct Hc as [Hc | Hc]; [|exact Hc].
    apply String.eqb_eq in Hc. congruence.
  - intros c s Hc. cbn [cells cell_of].
    destruct (String.eqb name c); [discriminate | now apply Hnum].
Qed.

Lemma extends_refl (df : frame) :
  Forall (filled (columns df)) (body df) -> extends df df.
Proof. intros H. split; [exact H|]. split; [auto | reflexivity]. Qed.

Lemma extends_trans (df1 df2 df3 : frame) :
  extends df1 df2 -> extends df2 df3 -> extends df1 df3.
Proof.
  intros (_ & Hc1 & Hk1) (Hf & Hc2 & Hk2).
  split; [exact Hf|]. split; [auto | congruence].
Qed.

Lemma appended_extends (df : frame) (name : string) (h : df_row -> cell) :
  Forall (filled (columns df)) (body df) ->
  (Features.mem_string name number_columns = true ->
   forall r s, h r <> Str s) ->
  let df' :=
    mk_frame (columns df ++ [name])
      (map (fun r => mk_df_row (row_key r) (row_ix r)
                       (cells r ++ [(name, h r)]))
           (body df))
      (two_levels df) in
  extends df df' /\ Features.mem_string name (columns df') = true.
Proof.
  intros Hf Hh df'. split; [split; [|split]|].
  - cbn [df' columns body]. apply Forall_forall. intros r' Hr'.
    apply in_map_iff in Hr'. destruct Hr' as (r & <- & Hr).
    rewrite Forall_forall in Hf. apply filled_append; [now apply Hf|].
    intros Hn s. now apply Hh.
  - intros c Hc. cbn [df' columns]. rewrite mem_string_app, Hc. reflexivity.
  - cbn [df' body]. rewrite map_map. reflexivity.
  - cbn [df' columns]. rewrite mem_string_app.
    apply orb_true_iff. right. apply mem_string_In. now left.
Qed.

Lemma add_column_extends (name source : string) (f : cell -> cell)
  (df : frame) :
  Forall (filled (columns df)) (body df) ->
  Features.mem_string source (columns df) = true ->
  (Features.mem_string name number_columns = true ->
   forall c s, f c <> Str s) ->
  exists df',
    add_column name source f df = Ok df'
    /\ extends df df' /\ Features.mem_string name (columns df') = true.
Proof.
  intros Hf Hsource Hnum. unfold add_column. rewrite Hsource.
  eexists. split; [reflexivity|].
  apply (appended_extends df name
           (fun r => match cell_of source (cells r) with
                     | Ok c => f c
                     | Raise _ => NaN
                     end) Hf).
  intros Hn r s. destruct (cell_of source (cells r)); [now apply Hnum|].
  discriminate.
Qed.

Lemma octave_cell_number (c : cell) (s : string) : octave_cell c <> Str s.
Proof. unfold octave_cell. destruct (int_cell c); discriminate. Qed.

Lemma pc_cell_number (c : cell) (s : string) : pc_cell c <> Str s.
Proof. unfold pc_cell. destruct (int_cell c); discriminate. Qed.

Lemma usable_beatsizedict (beatsize : beatsize_arg) :
  usable_beatsize beatsize = true ->
  exists size_of, beatsizedict beatsize = Ok size_of.
Proof.
  destruct beatsize as [| b | d | q | [q|]]; intros H;
    try discriminate; cbn [beatsizedict]; eauto.
Qed.

Section Additions.

Variable beat_label : Q -> num -> cell.

Lemma beats_column_extends (S : score) (beatsize : beatsize_arg)
  (df : frame) :
  Forall (filled (columns df)) (body df) ->
  usable_beatsize beatsize = true ->
  exists df',
    beats_column beat_label S beatsize df = Ok df'
    /\ extends df df' /\ Features.mem_string "beats" (columns df') = true.
Proof.
  intros Hf Hb. destruct (usable_beatsizedict beatsize Hb) as (size_of & Hs).
  unfold beats_column. rewrite Hs. cbn [bind].
  eexists. split; [reflexivity|].
  match goal with
  | |- extends df (mk_frame _ (map (fun r => mk_df_row _ _ (_ ++ [(_, ?h)]))
                                   _) _) /\ _ =>
      apply (appended_extends df "beats" (fun r => h) Hf)
  end.
  discriminate.
Qed.

Lemma n_column_extends (df : frame) :
  Forall (filled (columns df)) (body df) ->
  extends df (n_column df)
  /\ Features.mem_string "n" (columns (n_column df)) = true.
Proof.
  intros Hf. unfold n_column. split; [split; [|split]|].
  - cbn [columns body]. apply Forall_forall. intros r' Hr'.
    apply in_map_iff in Hr'. destruct Hr' as (r & <- & Hr).
    rewrite Forall_forall in Hf. apply filled_cons. now apply Hf.
  - intros c Hc. cbn [columns]. unfold Features.mem_string in *.
    cbn [existsb]. rewrite Hc. apply orb_true_r.
  - cbn [body]. rewrite map_map. reflexivity.
  - reflexivity.
Qed.

(** With a beat size that can be used, the columns of the features are
    added without an exception: the frame keeps its rows and columns and
    has a column for every active feature. *)
Lemma add_features_returns (S : score) (beatsize : beatsize_arg)
  (features : list (string * bool)) (df : frame) :
  Forall (filled (columns df)) (body df) ->
  Features.mem_string "midi" (columns df) = true ->
  Features.mem_string "tpc" (columns df) = true ->
  usable_beatsize beatsize = true ->
  exists df',
    add_features beat_label S beatsize features df = Ok df'
    /\ extends df df'
    /\ forall f, In f available_features -> active features f = true ->
                 Features.mem_string f (columns df') = true.
Proof.
  intros Hf Hmidi Htpc Hb. unfold add_features.
  assert (H1 : exists d1,
    (if active features "octaves"
     then add_column "octaves" "midi" octave_cell df else Ok df) = Ok d1
    /\ extends df d1
    /\ (active features "octaves" = true
        -> Features.mem_string "octaves" (columns d1) = true)).
  { destruct (active features "octaves").
    - destruct (add_column_extends "octaves" "midi" octave_cell df Hf Hmidi)
        as (d1 & E & Hx & Hc).
      { intros _. apply octave_cell_number. }
      exists d1. auto.
    - exists df. split; [reflexivity|]. split; [now apply extends_refl|].
      discriminate. }
  destruct H1 as (d1 & -> & Hx1 & Hc1). cbn [bind].
  assert (H2 : exists d2,
    (if active features "note_names"
     then add_column "note_names" "tpc" name_cell d1 else Ok d1) = Ok d2
    /\ extends d1 d2
    /\ (active features "note_names" = true
        -> Features.mem_string "note_names" (columns d2) = true)).
  { destruct (active features "note_names").
    - destruct (add_column_extends "note_names" "tpc" name_cell d1)
        as (d2 & E & Hx & Hc).
      { apply Hx1. }
      { now apply Hx1. }
      { discriminate. }
      exists d2. auto.
    - exists d1. split; [reflexivity|].
      split; [apply extends_refl, Hx1 | discriminate]. }
  destruct H2 as (d2 & -> & Hx2 & Hc2). cbn [bind].
  assert (H3 : exists d3,
    (if active features "beats"
     then beats_column beat_label S beatsize d2 else Ok d2) = Ok d3
    /\ extends d2 d3
    /\ (active features "beats" = true
        -> Features.mem_string "beats" (columns d3) = true)).
  { destruct (active features "beats").
    - destruct (beats_column_extends S beatsize d2) as (d3 & E & Hx & Hc);
        [apply Hx2 | exact Hb |].
      exists d3. auto.
    - exists d2. split; [reflexivity|].
      split; [apply extends_refl, Hx2 | discriminate]. }
  destruct H3 as (d3 & -> & Hx3 & Hc3). cbn [bind].
  assert (H4 : exists d4,
    (if active features "pcs"
     then add_column "pcs" "midi" pc_cell d3 else Ok d3) = Ok d4
    /\ extends d3 d4
    /\ (active features "pcs" = true
        -> Features.mem_string "pcs" (columns d4) = true)).
  { destruct (active features "pcs").
    - destruct (add_column_extends "pcs" "midi" pc_cell d3)
        as (d4 & E & Hx & Hc).
      { apply Hx3. }
      { apply Hx3, Hx2. now apply Hx1. }
      { intros _. apply pc_cell_number. }
      exists d4. auto.
    - exists d3. split; [reflexivity|].
      split; [apply extends_refl, Hx3 | discriminate]. }
  destruct H4 as (d4 & -> & Hx4 & Hc4). cbn [bind].
  assert (H5 : extends d4 (if active features "n" then n_column d4 else d4)
               /\ (active features "n" = true ->
                   Features.mem_string "n"
                     (columns (if active features "n"
                               then n_column d4 else d4)) = true)).
  { destruct (active features "n").
    - destruct (n_column_extends d4) as [Hx Hc]; [apply Hx4|]. auto.
    - split; [apply extends_refl, Hx4 | discriminate]. }
  destruct H5 as [Hx5 Hc5].
  eexists. split; [reflexivity|]. split.
  - eapply extends_trans; [|exact Hx5].
    eapply extends_trans; [|exact Hx4].
    eapply extends_trans; [|exact Hx3].
    eapply extends_trans; [exact Hx1 | exact Hx2].
  - intros f Hin Hact. cbn in Hin.
    destruct Hin as [<- | [<- | [<- | [<- | [<- | []]]]]].
    + apply Hx5, Hx4, Hx3, Hx2. now apply Hc1.
    + apply Hx5, Hx4, Hx3. now apply Hc2.
    + apply Hx5, Hx4. now apply Hc3.
    + apply Hx5. now apply Hc4.
    + now apply Hc5.
Qed.

End Additions.

(** ** Filters that raise nothing *)




Section Calls.

Variable beat_label : Q -> num -> cell.


End Calls.

(** ** The outcomes of the selection of sections *)



Section Selectors.

Variable beat_label : Q -> num -> cell.


End Selectors.



(** ** The column of a feature that is passed as [False] *)

Section Added.

Variable beat_label : Q -> num -> cell.

Lemma feature_column_added (S : score) (beatsize : beatsize_arg)
  (f : string) (keys : list key) (df' : frame) :
  In f available_features ->
  add_features beat_label S beatsize
    (update (initial_features beatsize) f true) (concat_notes S keys)
  = Ok df' ->
  Features.mem_string f (columns df') = true
  /\ (f <> "n"%string -> Features.mem_string "n" (columns df') = false)
  /\ map (fun r => (row_key r, row_ix r)) (body df')
     = map (fun r => (row_key r, row_ix r)) (body (concat_notes S keys))
  /\ forall size_of,
       beatsizedict beatsize = Ok size_of ->
       Forall (fun r => cell_of f (cells r)
                        = Ok (feature_cell beat_label S size_of f r))
              (body df').
Proof.
  intros Hf H. destruct S as [art notes ts].
  cbn in Hf.
  destruct Hf as [<- | [<- | [<- | [<- | [<- | []]]]]];
    destruct beatsize as [| b | d | q | [q|]], art;
    cbn in H; try discriminate; injection H as <-;
    unfold n_column; cbn [columns body];
    (split; [reflexivity|]);
    (split; [intros Hn; reflexivity || now elim Hn|]);
    (split; [cbn [body]; rewrite ?map_map; reflexivity|]);
    intros size_of Hsize; cbn in Hsize; injection Hsize as <-;
    cbn [body]; apply Forall_forall; intros r Hr;
    repeat (apply in_map_iff in Hr; destruct Hr as (r0 & <- & Hr); 
            rename r0 into r);
    unfold concat_notes in Hr; cbn [body] in Hr;
    apply in_flat_map in Hr; destruct Hr as (k & _ & Hr);
    apply in_map_iff in Hr; destruct Hr as (ir & <- & _);
    reflexivity.
Qed.

Lemma feature_cell_cells (S : score) (size_of : string -> Q) (f : string)
  (r r' : df_row) :
  f <> "n"%string -> In f available_features -> cells r = cells r' ->
  feature_cell beat_label S size_of f r
  = feature_cell beat_label S size_of f r'.
Proof.
  intros Hn Hf Hc. cbn in Hf.
  destruct Hf as [<- | [<- | [<- | [<- | [<- | []]]]]];
    unfold feature_cell; cbn; rewrite ?Hc; try reflexivity.
  now elim Hn.
Qed.

Lemma drop_n_length (df : frame) :
  List.length (body (drop_n df)) = List.length (body df).
Proof.
  unfold drop_n. destruct (Features.mem_string "n" (columns df));
    [|reflexivity].
  cbn [body]. apply length_map.
Qed.

Lemma reset_length (df : frame) :
  List.length (body (reset df)) = List.length (body df).
Proof.
  unfold reset. cbn [body]. now rewrite length_map, indexed_length.
Qed.

Lemma postprocess_frame (multiindex : bool) (df : frame) :
  postprocess multiindex df
  = (Ok (if multiindex then drop_n df else reset (drop_n df)),
     match body df with
     | [] => [(INFO, "No notes exist for this selection."%string)]
     | _ => []
     end).
Proof. unfold postprocess. destruct (body df); reflexivity. Qed.

(** C10.  For a keyword [f] among [octaves], [note_names], [beats],
    [pcs] and [n]:
    - the loop that activates features gives the same dictionary and the
      same log whether [f] is passed as [False] or as [True], among any
      other keywords;
    - with [f = False] alone the feature [f] is active afterwards;
    - the loop that filters skips a selector [False], whatever the frame
      and the keywords after it;
    - so [get_notes] with [f = False] alone adds the columns of the
      features with [f] active to the notes of the selected sections and
      goes on to the postprocessing with all their rows; with [f = True]
      alone it adds the same columns and then filters on [f];
    - the frame with the added columns has the column [f]; it has the
      rows of the notes of the selected sections, and every row holds in
      the column [f] what the feature computes for it;
    - where the score has a section and the beat size can be used,
      [get_notes] with [f = False] alone returns a frame with as many
      rows as the selected sections have notes; but for [n], which the
      postprocessing drops again, the frame has the column [f], with
      these values. *)
Theorem false_keyword_activates_feature (S : score) (section : option index)
  (multiindex : bool) (beatsize : beatsize_arg) (f : string) :
  In f available_features ->
  (forall cols features kw1 kw2,
      activate cols features (kw1 ++ (f, SelBool false) :: kw2)
      = activate cols features (kw1 ++ (f, SelBool true) :: kw2))
  /\ activate (base_columns (with_articulation S)) (initial_features beatsize)
              [(f, SelBool false)]
     = ret (update (initial_features beatsize) f true)
  /\ active (update (initial_features beatsize) f true) f = true
  /\ (forall df rest,
         apply_filters df ((f, SelBool false) :: rest) = apply_filters df rest)
  /\ get_notes beat_label S section multiindex beatsize [(f, SelBool false)]
     = (keys <~ select_sections (Z.of_nat (List.length (section_notes S)))
                                section ;;
        match keys with
        | None => ret None
        | Some keys =>
            df <~ lift (add_features beat_label S beatsize
                          (update (initial_features beatsize) f true)
                          (concat_notes S keys)) ;;
            df <~ postprocess multiindex df ;;
            ret (Some df)
        end)
  /\ get_notes beat_label S section multiindex beatsize [(f, SelBool true)]
     = (keys <~ select_sections (Z.of_nat (List.length (section_notes S)))
                                section ;;
        match keys with
        | None => ret None
        | Some keys =>
            df <~ lift (add_features beat_label S beatsize
                          (update (initial_features beatsize) f true)
                          (concat_notes S keys)) ;;
            df <~ lift (apply_filters df [(f, SelBool true)]) ;;
            df <~ postprocess multiindex df ;;
            ret (Some df)
        end)
  /\ (forall keys df',
         add_features beat_label S beatsize
           (update (initial_features beatsize) f true) (concat_notes S keys)
         = Ok df' ->
         Features.mem_string f (columns df') = true
         /\ map (fun r => (row_key r, row_ix r)) (body df')
            = map (fun r => (row_key r, row_ix r))
                  (body (concat_notes S keys))
         /\ forall size_of,
              beatsizedict beatsize = Ok size_of ->
              Forall (fun r => cell_of f (cells r)
                               = Ok (feature_cell beat_label S size_of f r))
                     (body df'))
  /\ (0 < Z.of_nat (List.length (section_notes S)) ->
      usable_beatsize beatsize = true ->
      forall keys l,
        select_sections (Z.of_nat (List.length (section_notes S))) section
        = (Ok (Some keys), l) ->
        exists df l',
          get_notes beat_label S section multiindex beatsize
                    [(f, SelBool false)]
          = (Ok (Some df), l ++ l')
          /\ List.length (body df)
             = List.length (body (concat_notes S keys))
          /\ (f <> "n"%string ->
              Features.mem_string f (columns df) = true
              /\ forall size_of,
                   beatsizedict beatsize = Ok size_of ->
                   Forall (fun r =>
                             cell_of f (cells r)
                             = Ok (feature_cell beat_label S size_of f r))
                          (body df))).
Proof.
  intros Hf.
  assert (Hact :
    activate (base_columns (with_articulation S)) (initial_features beatsize)
             [(f, SelBool false)]
    = ret (update (initial_features beatsize) f true)).
  { cbn [activate]. rewrite (available_not_base f _ Hf).
    rewrite (available_initial f beatsize Hf). reflexivity. }
  assert (Hfalse :
    get_notes beat_label S section multiindex beatsize [(f, SelBool false)]
    = (keys <~ select_sections (Z.of_nat (List.length (section_notes S)))
                               section ;;
       match keys with
       | None => ret None
       | Some keys =>
           df <~ lift (add_features beat_label S beatsize
                         (update (initial_features beatsize) f true)
                         (concat_notes S keys)) ;;
           df <~ postprocess multiindex df ;;
           ret (Some df)
       end)).
  { unfold get_notes.
    destruct (select_sections _ section) as [[[keys|]|e] l]; cbn [mbind];
      try reflexivity.
    change (columns (concat_notes S keys))
      with (base_columns (with_articulation S)).
    rewrite Hact. unfold ret at 1. cbn [mbind].
    destruct (add_features beat_label S beatsize
                (update (initial_features beatsize) f true)
                (concat_notes S keys)) as [df|e]; cbn [lift mbind];
      [|reflexivity].
    cbn [apply_filters]. destruct (postprocess multiindex df) as [[df'|e'] l'];
      reflexivity. }
  split; [|split; [|split; [|split; [|split; [|split; [|split]]]]]].
  - intros cols features kw1 kw2. apply activate_ignores_values.
    rewrite !map_app. reflexivity.
  - exact Hact.
  - apply active_update.
  - intros df rest. reflexivity.
  - exact Hfalse.
  - unfold get_notes.
    destruct (select_sections _ section) as [[[keys|]|e] l]; cbn [mbind];
      try reflexivity.
    change (columns (concat_notes S keys))
      with (base_columns (with_articulation S)).
    rewrite <- (activate_ignores_values _ [(f, SelBool false)]
                  [(f, SelBool true)] eq_refl).
    rewrite Hact. unfold ret at 1. cbn [mbind].
    destruct (add_features beat_label S beatsize
                (update (initial_features beatsize) f true)
                (concat_notes S keys)) as [df|e]; cbn [lift mbind];
      [|reflexivity].
    destruct (apply_filters df [(f, SelBool true)]) as [df0|e0];
      cbn [mbind]; [|reflexivity].
    destruct (postprocess multiindex df0) as [[df'|e'] l']; reflexivity.
  - intros keys df' Hadd.
    destruct (feature_column_added S beatsize f keys df' Hf Hadd)
      as (H1 & _ & H3 & H4).
    split; [exact H1|]. split; [exact H3 | exact H4].
  - intros _ Hb keys l Hsel. rewrite Hfalse, Hsel. cbn [mbind].
    destruct (add_features_returns beat_label S beatsize
                (update (initial_features beatsize) f true)
                (concat_notes S keys)) as (df' & Hadd & _ & _);
      try exact Hb.
    { apply concat_notes_filled. }
    { cbn. now destruct (with_articulation S). }
    { cbn. now destruct (with_articulation S). }
    rewrite Hadd. cbn [lift mbind].
    destruct (feature_column_added S beatsize f keys df' Hf Hadd)
      as (H1 & H2 & H3 & H4).
    assert (Hlen : List.length (body df')
                   = List.length (body (concat_notes S keys))).
    { rewrite <- (length_map (fun r => (row_key r, row_ix r)) (body df')),
        H3. apply length_map. }
    rewrite postprocess_frame. cbn [mbind ret].
    exists (if multiindex then drop_n df' else reset (drop_n df')).
    eexists. split; [reflexivity|].
    split.
    { destruct multiindex; rewrite ?reset_length, drop_n_length;
        exact Hlen. }
    intros Hn. rewrite (drop_n_absent df' (H2 Hn)).
    destruct multiindex; [split; assumption|].
    destruct (reset_rows df') as (_ & _ & Hcells & Hcols & _).
    split; [now rewrite Hcols|].
    intros size_of Hsize. specialize (H4 size_of Hsize).
    rewrite Forall_forall in H4. apply Forall_forall. intros r Hr.
    unfold reset in Hr. cbn [body] in Hr. apply in_map_iff in Hr.
    destruct Hr as ([i r0] & <- & Hin). cbn [fst snd cells].
    assert (Hr0 : In r0 (body df')).
    { rewrite <- (indexed_snd 0 (body df')).
      apply in_map_iff. now exists (i, r0). }
    rewrite (feature_cell_cells S size_of f (mk_df_row None i (cells r0)) r0
               Hn Hf eq_refl).
    now apply H4.
Qed.

End Added.

(** The keywords [n = False] and [octaves = False] on a score of three
    sections: the column [n] is added to the notes of a section, and
    with [octaves = False] the three notes are returned with their
    octaves. *)
Lemma false_keyword_activates_feature_witness :
  (exists df',
      add_features unlabelled three_sections BNone
        (update (initial_features BNone) "n" true)
        (concat_notes three_sections [(0, None)]) = Ok df'
      /\ Features.mem_string "n" (columns df') = true)
  /\ (exists df l,
         get_notes unlabelled three_sections None true BNone
                   [("octaves"%string, SelBool false)]
         = (Ok (Some df), l)
         /\ Features.mem_string "octaves" (columns df) = true
         /\ List.length (body df) = 3%nat).
Proof.
  split.
  - eexists. split; [reflexivity|].
    destruct (false_keyword_activates_feature unlabelled three_sections None
                true BNone "n"%string) as (_ & _ & _ & _ & _ & _ & Hadd & _).
    + cbn. tauto.
    + apply (Hadd [(0, None)] _ eq_refl).
  - destruct (false_keyword_activates_feature unlabelled three_sections None
                true BNone "octaves"%string)
      as (_ & _ & _ & _ & _ & _ & _ & Hget).
    + cbn. tauto.
    + destruct (Hget eq_refl eq_refl _ [] eq_refl)
        as (df & l & Hcall & Hlen & Hcol).
      exists df, l. split; [exact Hcall|]. split.
      * apply Hcol. discriminate.
      * exact Hlen.
Defined.

End GetNotesFacts.

(** ** Facts about [check_measure_boundaries] *)

Module BoundariesFacts.
Import PyNum Walker PyNumFacts WalkerFacts.
Import Boundaries.

Lemma check_rows_log (measure_durations : list num) (notes : list note)
  (OK : bool) :
  Forall (fun r => 0 <= mc r < Z.of_nat (List.length measure_durations))
         notes ->
  check_rows measure_durations notes OK
  = (Ok (OK && forallb (fun r => negb (too_long measure_durations r)) notes),
     map (fun _ => surpassing) (filter (too_long measure_durations) notes)).
Proof.
  intros H. revert OK. induction H as [|r notes Hr _ IH]; intros OK.
  - cbn. now rewrite andb_true_r.
  - cbn [check_rows forallb filter]. unfold too_long at 1 3, surpasses, loc.
    destruct (Z.leb_spec 0 (mc r)); [|lia].
    destruct (Z.ltb_spec (mc r) (Z.of_nat (List.length measure_durations)));
      [|lia].
    cbn [andb bind mbind]. 
    destruct (gt _ _); cbn [mbind negb andb app map].
    + rewrite IH. cbn. now rewrite andb_false_r.
    + rewrite IH. reflexivity.
Qed.

Lemma boundaries_log (notes : list note)
  (measure_durations : list num) :
  Forall (fun r => 0 <= mc r < Z.of_nat (List.length measure_durations))
         notes ->
  check_measure_boundaries notes measure_durations
  = (Ok tt,
     match filter (too_long measure_durations) notes with
     | [] => [no_errors]
     | late => map (fun _ => surpassing) late
     end).
Proof.
  intros H. unfold check_measure_boundaries.
  rewrite (check_rows_log _ _ true H). cbn [andb mbind].
  induction notes as [|r notes IH]; [reflexivity|].
  cbn [forallb filter].
  destruct (too_long measure_durations r); cbn [negb andb].
  - cbn. now rewrite app_nil_r.
  - inversion H; subst. now apply IH.
Qed.

(** X20. Where the measure counts of the notes are in the index of
    the durations, [check_measure_boundaries] returns with one warning
    for every note that ends after its measure, in the order of the
    notes, and with the debug record exactly if there is no such
    note. *)
Theorem boundaries_are_checked_note_by_note (notes : list note)
  (measure_durations : list num) :
  Forall (fun r => 0 <= mc r < Z.of_nat (List.length measure_durations))
         notes ->
  check_measure_boundaries notes measure_durations
  = (Ok tt,
     match filter (too_long measure_durations) notes with
     | [] => [no_errors]
     | late => map (fun _ => surpassing) late
     end).
Proof. apply boundaries_log. Qed.


Lemma boundaries_are_checked_note_by_note_witness :
  check_measure_boundaries [GetNotes.one_note 0; long_note] [Frac 1]
  = (Ok tt, [surpassing]).
Proof.
  apply (boundaries_are_checked_note_by_note
           [GetNotes.one_note 0; long_note] [Frac 1]).
  repeat constructor; cbn; lia.
Defined.




End BoundariesFacts.

(** ** Facts about [get_volta_structure] *)

Module VoltasFacts.
Import Series.
Import Voltas MeasureNumbersFacts SectionsFacts.

Lemma turn_structure (df : frame) (st st' : state) (v : Z * Z) (l : log) :
  turn df st v = (Ok st', l) ->
  place (volta_structure st) (fst v) (nxt st)
        (volta_range df (fst v) (snd v)) = Ok (volta_structure st')
  /\ nxt st' = fst v + Z.of_nat (List.length (volta_range df (fst v) (snd v))).
Proof.
  unfold turn.
  destruct (overlaps df (fst v) (snd v)); unfold ret, warning;
    cbn [mbind];
    (destruct (place _ _ _ _) as [structure|]; cbn [mbind];
     [|discriminate]);
    (destruct (loc _ _) as [marks|]; cbn [mbind]; [|discriminate]);
    destruct (existsb is_startRepeat marks); intros H; injection H as <- _;
    split; reflexivity.
Qed.

Lemma concat_extend {A : Type} (s : list (list (list A))) (r : list A) :
  s <> [] ->
  List.concat (removelast s ++ [last s [] ++ [r]]) = List.concat s ++ [r].
Proof.
  intros H.
  replace (List.concat s) with (List.concat (removelast s ++ [last s []]))
    by (now rewrite <- app_removelast_last).
  rewrite !concat_app. cbn [List.concat]. now rewrite !app_nil_r, app_assoc.
Qed.

Lemma place_ranges (s s' : list (list (list Z))) (i n : Z) (r : list Z) :
  place s i n r = Ok s' ->
  List.concat s' = List.concat s ++ [r]
  /\ (Forall (fun g => g <> []) s -> Forall (fun g => g <> []) s')
  /\ s' <> [].
Proof.
  unfold place. destruct (negb (i =? n)).
  - intros H; injection H as <-. rewrite concat_app. cbn. repeat split.
    + intros Hs. apply Forall_app. split; [exact Hs|].
      repeat constructor. discriminate.
    + intros E. now apply app_eq_nil in E as [_ E].
  - destruct s as [|g s]; [discriminate|].
    remember (g :: s) as s0 eqn:E0.
    assert (Hne : s0 <> []) by (subst; discriminate).
    intros H. assert (E : s' = removelast s0 ++ [last s0 [] ++ [r]])
      by congruence.
    subst s'. clear H.
    split; [now apply concat_extend|]. split.
    + intros Hs. apply Forall_app. split.
      * apply RepeatStructureFacts.Forall_removelast. exact Hs.
      * repeat constructor. intros E. now apply app_eq_nil in E as [_ E].
    + intros E. now apply app_eq_nil in E as [_ E].
Qed.

Lemma first_loop_ranges (df : frame) (vs : list (Z * Z)) (st st' : state)
  (l : log) :
  first_loop df st vs = (Ok st', l) ->
  List.concat (volta_structure st')
  = List.concat (volta_structure st)
    ++ map (fun v => volta_range df (fst v) (snd v)) vs
  /\ (Forall (fun g => g <> []) (volta_structure st) ->
      Forall (fun g => g <> []) (volta_structure st')).
Proof.
  revert st l; induction vs as [|v vs IH]; intros st l H.
  - injection H as <- _. rewrite app_nil_r. now split.
  - cbn [first_loop] in H.
    destruct (turn df st v) as [[st1|] l1] eqn:Hturn; cbn [mbind] in H;
      [|discriminate].
    destruct (first_loop df st1 vs) as [[st2|] l2] eqn:Hrest; [|discriminate].
    injection H as <- _.
    destruct (turn_structure _ _ _ _ _ Hturn) as [Hplace _].
    destruct (place_ranges _ _ _ _ _ Hplace) as (Hc & Hne & _).
    destruct (IH _ _ Hrest) as [Hc2 Hne2].
    split; [|auto]. rewrite Hc2, Hc, <- app_assoc. reflexivity.
Qed.

Lemma get_volta_structure_first_loop (df : frame)
  (vs : list (list (list Z))) (l : log) :
  get_volta_structure df = (Ok vs, l) ->
  exists st l1,
    first_loop df (mk_state [] (-1) true) (voltas df) = (Ok st, l1)
    /\ volta_structure st = vs.
Proof.
  unfold get_volta_structure.
  destruct (first_loop df _ (voltas df)) as [[st|] l1]; cbn [mbind];
    [|discriminate].
  destruct (second_loop df _ _) as [[ok|] l2]; cbn [mbind]; [|discriminate].
  destruct ok; unfold ret; cbn [mbind]; intros H; injection H as <- _;
    now exists st, l1.
Qed.

(** X22. The structure that [get_volta_structure] returns holds, in
    the order of the score, one range for every volta: its measures less
    those in which a later volta begins; no group is empty. *)
Theorem every_volta_has_its_range (df : frame) (vs : list (list (list Z)))
  (l : log) :
  get_volta_structure df = (Ok vs, l) ->
  List.concat vs = map (fun v => volta_range df (fst v) (snd v)) (voltas df)
  /\ Forall (fun group => group <> []) vs.
Proof.
  intros H. destruct (get_volta_structure_first_loop _ _ _ H)
    as (st & l1 & Hloop & <-).
  destruct (first_loop_ranges _ _ _ _ _ Hloop) as [Hc Hne].
  split; [exact Hc | apply Hne; constructor].
Qed.

Lemma every_volta_has_its_range_witness :
  get_volta_structure two_voltas
  = (Ok [[[2; 3]; [4]]],
     [(DEBUG, "Volta structure OK."%string)])
  /\ List.concat [[[2; 3]; [4]]]
     = map (fun v => volta_range two_voltas (fst v) (snd v))
           (voltas two_voltas).
Proof.
  assert (H : get_volta_structure two_voltas
              = (Ok [[[2; 3]; [4]]],
                 [(DEBUG, "Volta structure OK."%string)]))
    by reflexivity.
  split; [exact H|].
  exact (proj1 (every_volta_has_its_range two_voltas _ _ H)).
Defined.

(** ** Voltas that follow one another *)

Lemma last_app_single {A : Type} (l : list A) (x d : A) :
  last (l ++ [x]) d = x.
Proof.
  induction l as [|y l IH]; [reflexivity|].
  cbn [app]. rewrite RepeatStructureFacts.last_cons.
  destruct l; [reflexivity|]. cbn [app] in *.
  now rewrite RepeatStructureFacts.last_cons in IH |- *.
Qed.

Lemma first_loop_consecutive (df : frame) (vs : list (Z * Z))
  (st st' : state) (l : log) :
  Forall (fun v => overlaps df (fst v) (snd v) = []) vs ->
  Forall consecutive (volta_structure st) ->
  (volta_structure st <> [] ->
   exists a, List.concat (last (volta_structure st) [])
             = range a (List.length
                          (List.concat (last (volta_structure st) [])))
             /\ nxt st
                = a + Z.of_nat (List.length
                                  (List.concat (last (volta_structure st) [])))) ->
  first_loop df st vs = (Ok st', l) ->
  Forall consecutive (volta_structure st').
Proof.
  intros Hsep. revert st l.
  induction Hsep as [|v vs Hv _ IH]; intros st l Hall Hlast H.
  - now injection H as <- _.
  - cbn [first_loop] in H.
    destruct (turn df st v) as [[st1|] l1] eqn:Hturn; cbn [mbind] in H;
      [|discriminate].
    destruct (first_loop df st1 vs) as [[st2|] l2] eqn:Hrest; [|discriminate].
    injection H as <- _.
    destruct (turn_structure _ _ _ _ _ Hturn) as [Hplace Hnxt].
    unfold volta_range in Hplace, Hnxt. rewrite Hv in Hplace, Hnxt.
    set (r := range (fst v) (Z.to_nat (snd v))) in *.
    unfold place in Hplace.
    destruct (Z.eqb_spec (fst v) (nxt st)) as [Heq | Hne]; cbn [negb] in Hplace.
    + destruct (volta_structure st) as [|g s] eqn:Es; [discriminate|].
      remember (g :: s) as s0 eqn:E0.
      assert (Hs0 : s0 <> []) by (subst; discriminate).
      assert (E : volta_structure st1 = removelast s0 ++ [last s0 [] ++ [r]])
        by congruence.
      destruct (Hlast Hs0) as (a & Ha & Hn).
      assert (Hnew : List.concat (last s0 [] ++ [r])
                     = range a (List.length (List.concat (last s0 [] ++ [r])))).
      { rewrite concat_app. cbn [List.concat]. rewrite app_nil_r.
        rewrite length_app, range_app, <- Ha. f_equal. unfold r.
        rewrite range_length. f_equal. lia. }
      apply (IH st1 l2); [| |exact Hrest].
      * rewrite E. apply Forall_app. split.
        -- apply RepeatStructureFacts.Forall_removelast. exact Hall.
        -- repeat constructor. now exists a.
      * intros _. rewrite E, last_app_single. exists a.
        split; [exact Hnew|]. rewrite Hnxt.
        rewrite concat_app. cbn [List.concat].
        rewrite app_nil_r, length_app. lia.
    + assert (E : volta_structure st1 = volta_structure st ++ [[r]])
        by congruence.
      apply (IH st1 l2); [| |exact Hrest].
      * rewrite E. apply Forall_app. split; [exact Hall|].
        repeat constructor. exists (fst v). cbn [List.concat].
        rewrite app_nil_r. unfold r. now rewrite range_length.
      * intros _. rewrite E, last_app_single. exists (fst v).
        cbn [List.concat]. rewrite app_nil_r. split.
        -- unfold r. now rewrite range_length.
        -- exact Hnxt.
Qed.

(** X23. Where no volta begins within the range of an earlier one,
    the measures of a volta group follow one another without a gap. *)
Theorem volta_groups_are_consecutive (df : frame)
  (vs : list (list (list Z))) (l : log) :
  separate df ->
  get_volta_structure df = (Ok vs, l) ->
  Forall consecutive vs.
Proof.
  intros Hsep H. destruct (get_volta_structure_first_loop _ _ _ H)
    as (st & l1 & Hloop & <-).
  eapply first_loop_consecutive; [exact Hsep | | | exact Hloop].
  - constructor.
  - intros Hne. now elim Hne.
Qed.

Lemma volta_groups_are_consecutive_witness :
  get_volta_structure two_voltas
  = (Ok [[[2; 3]; [4]]], [(DEBUG, "Volta structure OK."%string)])
  /\ Forall consecutive [[[2; 3]; [4]]].
Proof.
  assert (H : get_volta_structure two_voltas
              = (Ok [[[2; 3]; [4]]], [(DEBUG, "Volta structure OK."%string)]))
    by reflexivity.
  split; [exact H|].
  apply (volta_groups_are_consecutive two_voltas _ _ (ltac:(repeat constructor)) H).
Defined.

(** ** Voltas that fit into the score *)

Lemma indexed_labels {A : Type} (start : Z) (l : list A) (i : Z) (x : A) :
  In (i, x) (Sections.indexed start l) ->
  start <= i < start + Z.of_nat (List.length l).
Proof.
  revert start; induction l as [|y l IH]; intros start H; [contradiction|].
  cbn [Sections.indexed List.length] in *. destruct H as [H | H].
  - injection H as <- _. lia.
  - apply IH in H. lia.
Qed.

Lemma voltas_labels (df : frame) (i length : Z) :
  In (i, length) (voltas df) -> 0 <= i < Z.of_nat (List.length df).
Proof.
  unfold voltas. intros H. apply in_flat_map in H.
  destruct H as ([k m] & Hin & H). apply indexed_labels in Hin.
  cbn [fst snd] in H. destruct (m_volta m); [|contradiction].
  destruct H as [H | []]. injection H as <- _. lia.
Qed.

Lemma volta_range_within (df : frame) (i length mc : Z) :
  In mc (volta_range df i length) -> i <= mc < i + length.
Proof.
  unfold volta_range. intros H.
  assert (Hr : In mc (range i (Z.to_nat length))).
  { destruct (overlaps df i length); [exact H|].
    apply filter_In in H. tauto. }
  apply range_spec in Hr. lia.
Qed.

Lemma loc_returns {A : Type} (s : list A) (labels : list Z) :
  Forall (fun mc => 0 <= mc < Z.of_nat (List.length s)) labels ->
  exists vs, loc s labels = Ok vs.
Proof.
  induction 1 as [|mc labels Hmc _ (vs & IH)]; [now exists []|].
  cbn [loc]. destruct (Z.leb_spec 0 mc); [|lia].
  destruct (Z.ltb_spec mc (Z.of_nat (List.length s))); [|lia].
  cbn [andb]. destruct (nth_error s (Z.to_nat mc)) as [x|] eqn:E.
  - rewrite IH. cbn [bind]. now eexists.
  - apply nth_error_None in E. lia.
Qed.

Lemma turn_returns (df : frame) (st : state) (v : Z * Z) :
  In v (voltas df) ->
  fst v + snd v <= Z.of_nat (List.length df) ->
  (volta_structure st = [] -> nxt st = -1) ->
  exists st' l, turn df st v = (Ok st', l).
Proof.
  intros Hin Hfit Hempty. destruct v as [i length]. cbn [fst snd] in *.
  pose proof (voltas_labels _ _ _ Hin) as Hi.
  assert (Hplace : exists s, place (volta_structure st) i (nxt st)
                               (volta_range df i length) = Ok s).
  { unfold place. destruct (Z.eqb_spec i (nxt st)) as [Heq | Hne];
      cbn [negb]; [|now eexists].
    destruct (volta_structure st); [|now eexists].
    specialize (Hempty eq_refl). lia. }
  destruct Hplace as (s & Hs).
  destruct (loc_returns (map m_repeats df) (volta_range df i length))
    as (marks & Hm).
  { apply Forall_forall. intros mc Hmc. apply volta_range_within in Hmc.
    rewrite length_map. lia. }
  unfold turn. cbn [fst snd].
  destruct (overlaps df i length); unfold ret, warning; cbn [mbind];
    rewrite Hs; cbn [mbind]; rewrite Hm; cbn [mbind];
    destruct (existsb is_startRepeat marks); eauto.
Qed.

Lemma first_loop_returns (df : frame) (vs : list (Z * Z)) (st : state) :
  Forall (fun v => In v (voltas df)
                   /\ fst v + snd v <= Z.of_nat (List.length df)) vs ->
  (volta_structure st = [] -> nxt st = -1) ->
  exists st' l, first_loop df st vs = (Ok st', l).
Proof.
  intros H. revert st. induction H as [|v vs [Hin Hfit] _ IH];
    intros st Hempty; [now exists st, []|].
  cbn [first_loop].
  destruct (turn_returns df st v Hin Hfit Hempty) as (st1 & l1 & H1).
  rewrite H1. cbn [mbind].
  destruct (turn_structure _ _ _ _ _ H1) as [Hplace _].
  destruct (place_ranges _ _ _ _ _ Hplace) as (_ & _ & Hne).
  destruct (IH st1) as (st2 & l2 & H2); [intros E; now elim Hne|].
  rewrite H2. eauto.
Qed.

Lemma second_loop_returns (df : frame) (groups : list (list (list Z)))
  (ok : bool) :
  Forall (fun g => g <> []) groups ->
  Forall (fun r => Forall (fun mc => 0 <= mc < Z.of_nat (List.length df)) r)
         (List.concat groups) ->
  exists ok' l, second_loop df groups ok = (Ok ok', l).
Proof.
  intros H. revert ok. induction H as [|g groups Hg _ IH]; intros ok Hin;
    [now exists ok, []|].
  cbn [second_loop List.concat] in *. apply Forall_app in Hin.
  destruct Hin as [Hing Hin].
  destruct g as [|first others]; [now elim Hg|].
  assert (Hgroup : exists ok1 l1,
             check_group df (first :: others) ok = (Ok ok1, l1)).
  { cbn [check_group]. destruct (forallb _ others); [now eexists _, _|].
    destruct (loc_returns (map m_dont_count df) (List.concat others))
      as (ex & Hex).
    { inversion Hing as [|x l _ Ho]; subst. clear -Ho.
      induction Ho as [|r others Hr _ IH]; [constructor|].
      cbn [List.concat]. apply Forall_app. split; [|exact IH].
      eapply Forall_impl; [|exact Hr]. cbn. intros mc Hmc.
      rewrite length_map. lia. }
    rewrite Hex. cbn [mbind]. destruct (existsb isna ex); now eexists _, _. }
  destruct Hgroup as (ok1 & l1 & H1). rewrite H1. cbn [mbind].
  destruct (IH ok1 Hin) as (ok2 & l2 & H2). rewrite H2. eauto.
Qed.

(** X24. [get_volta_structure] raises no exception where every volta
    ends within the score. *)
Theorem fitting_voltas_are_structured (df : frame) :
  fitting df -> exists vs l, get_volta_structure df = (Ok vs, l).
Proof.
  intros Hfit. unfold get_volta_structure.
  destruct (first_loop_returns df (voltas df) (mk_state [] (-1) true))
    as (st & l1 & H1).
  { unfold fitting in Hfit. rewrite Forall_forall in *.
    intros v Hv. split; [exact Hv | now apply Hfit]. }
  { reflexivity. }
  rewrite H1. cbn [mbind].
  destruct (first_loop_ranges _ _ _ _ _ H1) as [Hc Hne].
  destruct (second_loop_returns df (volta_structure st) (OK st))
    as (ok & l2 & H2).
  { apply Hne. constructor. }
  { rewrite Hc. cbn [volta_structure List.concat app].
    apply Forall_forall. intros r Hr. apply in_map_iff in Hr.
    destruct Hr as ([i length] & <- & Hv). cbn [fst snd].
    apply Forall_forall. intros mc Hmc. apply volta_range_within in Hmc.
    pose proof (voltas_labels _ _ _ Hv).
    unfold fitting in Hfit. rewrite Forall_forall in Hfit.
    specialize (Hfit _ Hv). cbn [fst snd] in Hfit. lia. }
  rewrite H2. cbn [mbind]. destruct ok; unfold ret; cbn [mbind]; eauto.
Qed.

Lemma fitting_voltas_are_structured_witness :
  exists vs l, get_volta_structure two_voltas = (Ok vs, l).
Proof.
  apply (fitting_voltas_are_structured two_voltas).
  repeat constructor; cbn; lia.
Defined.

(** ** The numbers of the voltas *)

Lemma mem_In (x : Z) (l : list Z) : mem x l = true <-> In x l.
Proof.
  unfold mem. rewrite existsb_exists. split.
  - intros (y & Hy & E). apply Z.eqb_eq in E. now subst.
  - intros H. exists x. split; [exact H | apply Z.eqb_refl].
Qed.

Lemma assign_value (col col' : series Z) (labels : list Z) (v : Z) :
  assign col labels v = Ok col' ->
  List.length col' = List.length col
  /\ forall mc, 0 <= mc < Z.of_nat (List.length col) ->
       nth (Z.to_nat mc) col' None
       = if mem mc labels then Some v else nth (Z.to_nat mc) col None.
Proof.
  unfold assign. destruct (forallb _ labels); [|discriminate].
  intros H; injection H as <-. split.
  - now rewrite length_map, GetNotesFacts.indexed_length.
  - intros mc Hmc.
    assert (G : forall (l : series Z) start k,
              (k < List.length l)%nat ->
              nth k (map (fun ix : Z * option Z =>
                            if mem (fst ix) labels then Some v else snd ix)
                         (Sections.indexed start l)) None
              = if mem (start + Z.of_nat k) labels then Some v
                else nth k l None).
    { induction l as [|x l IH]; intros start k Hk; [cbn in Hk; lia|].
      destruct k as [|k].
      - cbn. now rewrite Z.add_0_r.
      - cbn [Sections.indexed map nth]. rewrite IH by (cbn in Hk; lia).
        replace (start + 1 + Z.of_nat k) with (start + Z.of_nat (S k)) by lia.
        reflexivity. }
    rewrite G by lia. now rewrite Z.add_0_l, Z2Nat.id by lia.
Qed.

Lemma assign_returns (col : series Z) (labels : list Z) (v : Z) :
  Forall (fun mc => 0 <= mc < Z.of_nat (List.length col)) labels ->
  exists col', assign col labels v = Ok col'.
Proof.
  intros H. unfold assign.
  assert (E : forallb (fun mc => (0 <=? mc)
                                 && (mc <? Z.of_nat (List.length col)))
                      labels = true).
  { apply forallb_forall. intros mc Hmc. rewrite Forall_forall in H.
    specialize (H mc Hmc).
    destruct (Z.leb_spec 0 mc), (Z.ltb_spec mc (Z.of_nat (List.length col)));
      (reflexivity || lia). }
  rewrite E. now eexists.
Qed.

(** The assignments of a structure, one after the other. *)
Lemma number_group_values (group : list (list Z)) (col : series Z) (i : Z) :
  Forall (fun r => Forall (fun mc => 0 <= mc < Z.of_nat (List.length col)) r)
         group ->
  StronglySorted before group ->
  exists col',
    number_group col i group = Ok col'
    /\ List.length col' = List.length col
    /\ forall mc, 0 <= mc < Z.of_nat (List.length col) ->
         (forall (k : nat) r, nth_error group k = Some r -> In mc r ->
            nth (Z.to_nat mc) col' None = Some (i + Z.of_nat k + 1))
         /\ ((forall r, In r group -> ~ In mc r) ->
             nth (Z.to_nat mc) col' None = nth (Z.to_nat mc) col None).
Proof.
  revert col i; induction group as [|r group IH]; intros col i Hfit Hs.
  - exists col. split; [reflexivity|]. split; [reflexivity|].
    intros mc Hmc. split; [intros [|k] r Hk; discriminate | reflexivity].
  - inversion Hfit as [|x l Hr Hrest]; subst.
    inversion Hs as [|x l Hs' Hbefore]; subst.
    destruct (assign_returns col r (i + 1) Hr) as (col1 & H1).
    destruct (assign_value _ _ _ _ H1) as [Hlen1 Hval1].
    destruct (IH col1 (i + 1)) as (col' & H2 & Hlen2 & Hval2).
    { rewrite Hlen1. exact Hrest. }
    { exact Hs'. }
    exists col'. cbn [number_group]. rewrite H1. cbn [bind].
    split; [exact H2|]. split; [congruence|].
    intros mc Hmc. rewrite <- Hlen1 in Hmc.
    destruct (Hval2 mc Hmc) as [Hin Hout]. rewrite Hlen1 in Hmc.
    split.
    + intros [|k] r' Hk Hmcr.
      * injection Hk as <-.
        rewrite Hout, (Hval1 mc Hmc).
        -- rewrite (proj2 (mem_In mc r) Hmcr). f_equal. lia.
        -- intros r' Hr' Hmc'. rewrite Forall_forall in Hbefore.
           specialize (Hbefore r' Hr' mc mc Hmcr Hmc'). lia.
      * cbn [nth_error] in Hk. rewrite (Hin k r' Hk Hmcr). f_equal. lia.
    + intros Hnone. rewrite Hout, (Hval1 mc Hmc).
      * destruct (mem mc r) eqn:E; [|reflexivity].
        apply mem_In in E. exfalso. apply (Hnone r); [now left | exact E].
      * intros r' Hr'. apply Hnone. now right.
Qed.

Lemma spread_values (vs : list (list (list Z))) (col : series Z) :
  Forall (fun r => Forall (fun mc => 0 <= mc < Z.of_nat (List.length col)) r)
         (List.concat vs) ->
  StronglySorted before (List.concat vs) ->
  exists col',
    spread col vs = Ok col'
    /\ List.length col' = List.length col
    /\ forall mc, 0 <= mc < Z.of_nat (List.length col) ->
         (forall group (k : nat) r,
            In group vs -> nth_error group k = Some r -> In mc r ->
            nth (Z.to_nat mc) col' None = Some (Z.of_nat k + 1))
         /\ ((forall r, In r (List.concat vs) -> ~ In mc r) ->
             nth (Z.to_nat mc) col' None = nth (Z.to_nat mc) col None).
Proof.
  revert col; induction vs as [|g vs IH]; intros col Hfit Hs.
  - exists col. split; [reflexivity|]. split; [reflexivity|].
    intros mc Hmc. split; [intros group k r [] | reflexivity].
  - cbn [List.concat] in Hfit, Hs. apply Forall_app in Hfit.
    destruct Hfit as [Hfg Hfit].
    assert (Hsg : StronglySorted before g /\ StronglySorted before (List.concat vs)
                  /\ forall r1 r2, In r1 g -> In r2 (List.concat vs) ->
                                   before r1 r2).
    { clear -Hs. induction g as [|r g IHg]; cbn [app] in Hs.
      - repeat split; [constructor | exact Hs | intros r1 r2 []].
      - inversion Hs as [|x l Hs' Hall]; subst.
        destruct (IHg Hs') as (H1 & H2 & H3).
        rewrite Forall_forall in Hall. repeat split.
        + constructor; [exact H1|]. apply Forall_forall. intros x Hx.
          apply Hall. apply in_or_app. now left.
        + exact H2.
        + intros r1 r2 [<- | Hr1] Hr2.
          * apply Hall. apply in_or_app. now right.
          * now apply H3. }
    destruct Hsg as (Hsg & Hsv & Hcross).
    destruct (number_group_values g col 0 Hfg Hsg) as (col1 & H1 & Hlen1 & Hval1).
    destruct (IH col1) as (col' & H2 & Hlen2 & Hval2).
    { rewrite Hlen1. exact Hfit. }
    { exact Hsv. }
    exists col'. cbn [spread]. rewrite H1. cbn [bind].
    split; [exact H2|]. split; [congruence|].
    intros mc Hmc. rewrite <- Hlen1 in Hmc.
    destruct (Hval2 mc Hmc) as [Hin Hout]. rewrite Hlen1 in Hmc.
    destruct (Hval1 mc Hmc) as [Hin1 Hout1].
    split.
    + intros group k r [<- | Hg] Hk Hr.
      * rewrite Hout, (Hin1 k r Hk Hr); [f_equal; lia|].
        intros r' Hr' Hmc'.
        specialize (Hcross r r' (nth_error_In _ _ Hk) Hr' mc mc Hr Hmc'). lia.
      * exact (Hin group k r Hg Hk Hr).
    + intros Hnone. rewrite Hout, Hout1; [reflexivity | |].
      * intros r Hr. apply Hnone. apply in_or_app. now left.
      * intros r Hr. apply Hnone. apply in_or_app. now right.
Qed.

Lemma indexed_ascending {A : Type} (start : Z) (l : list A) :
  StronglySorted (fun a b => fst a < fst b) (Sections.indexed start l).
Proof.
  revert start; induction l as [|x l IH]; intros start; constructor;
    [apply IH|].
  apply Forall_forall. intros [i y] H. apply indexed_labels in H. cbn. lia.
Qed.

Lemma voltas_ascending (df : frame) :
  StronglySorted (fun a b => fst a < fst b) (voltas df).
Proof.
  unfold voltas. generalize (indexed_ascending 0 df).
  induction (Sections.indexed 0 df) as [|[i m] l IH]; intros H;
    [constructor|].
  inversion H as [|x xs Hs Hall]; subst. cbn [flat_map fst snd].
  destruct (m_volta m) as [length|]; cbn [app]; [|now apply IH].
  constructor; [now apply IH|].
  apply Forall_forall. intros [k len] Hk. apply in_flat_map in Hk.
  destruct Hk as ([j m'] & Hj & Hk). cbn [fst snd] in Hk.
  destruct (m_volta m'); [|contradiction]. destruct Hk as [Hk | []].
  injection Hk as <- _. rewrite Forall_forall in Hall.
  exact (Hall _ Hj).
Qed.

Lemma separate_ranges_before (df : frame) :
  separate df ->
  StronglySorted before
    (map (fun v => volta_range df (fst v) (snd v)) (voltas df)).
Proof.
  intros Hsep. unfold separate in Hsep.
  assert (Hlater : forall v w, In v (voltas df) -> In w (voltas df) ->
            fst v < fst w ->
            before (volta_range df (fst v) (snd v))
                   (volta_range df (fst w) (snd w))).
  { intros [i li] [j lj] Hv Hw Hlt a b Ha Hb. cbn [fst snd] in *.
    apply volta_range_within in Hb.
    rewrite Forall_forall in Hsep. specialize (Hsep _ Hv).
    cbn [fst snd] in Hsep. unfold volta_range in Ha. rewrite Hsep in Ha.
    apply range_spec in Ha.
    destruct (Z_lt_ge_dec j (i + li)) as [Hin | Hout]; [|lia].
    exfalso.
    assert (Ho : In j (overlaps df i li)).
    { unfold overlaps. apply filter_In. split.
      - apply range_spec. lia.
      - apply mem_In. unfold later_voltas. apply filter_In. split.
        + apply in_map_iff. exists (j, lj). now split.
        + apply Z.ltb_lt. exact Hlt. }
    now rewrite Hsep in Ho. }
  pose proof (voltas_ascending df) as Hasc.
  assert (Hsub : forall v, In v (voltas df) -> In v (voltas df)) by auto.
  revert Hasc Hsub. generalize (voltas df) at 1 2 4. intros l Hasc Hsub.
  induction Hasc as [|v l Hs IH Hall]; [constructor|].
  cbn [map]. constructor.
  - apply IH. intros w Hw. apply Hsub. now right.
  - apply Forall_forall. intros r Hr. apply in_map_iff in Hr.
    destruct Hr as (w & <- & Hw). rewrite Forall_forall in Hall.
    apply Hlater; [apply Hsub; now left | apply Hsub; now right | now apply Hall].
Qed.

(** X25. Where the voltas are separate and end within the score,
    spreading the structure over the column [volta] writes the number
    of a volta within its group, counted from 1, on every measure of the
    volta, and leaves every other measure as it was. *)
Theorem voltas_are_numbered_within_groups (df : frame) (col : series Z)
  (vs : list (list (list Z))) (l : log) :
  separate df -> fitting df -> List.length col = List.length df ->
  get_volta_structure df = (Ok vs, l) ->
  exists col',
    spread col vs = Ok col'
    /\ List.length col' = List.length col
    /\ forall mc, 0 <= mc < Z.of_nat (List.length col) ->
         (forall group (k : nat) r,
            In group vs -> nth_error group k = Some r -> In mc r ->
            nth (Z.to_nat mc) col' None = Some (Z.of_nat k + 1))
         /\ ((forall r, In r (List.concat vs) -> ~ In mc r) ->
             nth (Z.to_nat mc) col' None = nth (Z.to_nat mc) col None).
Proof.
  intros Hsep Hfit Hlen H.
  destruct (get_volta_structure_first_loop _ _ _ H) as (st & l1 & Hloop & <-).
  destruct (first_loop_ranges _ _ _ _ _ Hloop) as [Hc _].
  cbn [volta_structure List.concat app] in Hc.
  apply spread_values; rewrite Hc.
  - apply Forall_forall. intros r Hr. apply in_map_iff in Hr.
    destruct Hr as ([i length] & <- & Hv). cbn [fst snd].
    apply Forall_forall. intros mc Hmc. apply volta_range_within in Hmc.
    pose proof (voltas_labels _ _ _ Hv).
    unfold fitting in Hfit. rewrite Forall_forall in Hfit.
    specialize (Hfit _ Hv). cbn [fst snd] in Hfit. lia.
  - now apply separate_ranges_before.
Qed.

Lemma voltas_are_numbered_within_groups_witness :
  exists col',
    spread (map m_volta two_voltas) [[[2; 3]; [4]]] = Ok col'
    /\ col' = [None; None; Some 1; Some 1; Some 2; None].
Proof.
  assert (H : get_volta_structure two_voltas
              = (Ok [[[2; 3]; [4]]], [(DEBUG, "Volta structure OK."%string)]))
    by reflexivity.
  destruct (voltas_are_numbered_within_groups two_voltas
              (map m_volta two_voltas) _ _
              ltac:(repeat constructor)
              ltac:(repeat constructor; cbn; lia)
              eq_refl H) as (col' & H1 & _).
  exists col'. split; [exact H1|].
  cbn in H1. now injection H1 as <-.
Defined.

End VoltasFacts.

(** ** Facts about [search_in_list_of_tuples] and [sort_dict] *)

Module HelpersFacts.
Import Helpers.
Import MeasureNumbersFacts SectionsFacts.

Section Tuples.

Variable A : Type.
Variable eqb : A -> A -> bool.
Hypothesis eqb_eq : forall x y, eqb x y = true <-> x = y.

Lemma search_from_spec (L : list (list A)) (pos : Z) (search : A)
  (add i : Z) (found : list Z) :
  search_from A eqb i L pos search add = Ok found ->
  Forall (fun k => i + add <= k) found
  /\ StronglySorted Z.lt found
  /\ forall k, In k found
               <-> exists (j : nat) item,
                     nth_error L j = Some item
                     /\ getitem A item pos = Ok search
                     /\ k = i + Z.of_nat j + add.
Proof.
  revert i found; induction L as [|item L IH]; intros i found H.
  - injection H as <-. repeat split; try constructor; try contradiction.
    intros (j & it & Hj & _). now destruct j.
  - cbn [search_from] in H.
    destruct (getitem A item pos) as [x|] eqn:Hx; [|discriminate].
    cbn [bind] in H.
    destruct (search_from A eqb (i + 1) L pos search add) as [rest|] eqn:Hr;
      [|discriminate].
    cbn [bind] in H. injection H as <-.
    destruct (IH _ _ Hr) as (Hlow & Hs & Hin).
    assert (Hlow' : Forall (fun k => i + add <= k) rest).
    { eapply Forall_impl; [|exact Hlow]. cbn. intros; lia. }
    assert (Hlater : forall k,
              In k rest
              <-> exists (j : nat) it,
                    nth_error (item :: L) (S j) = Some it
                    /\ getitem A it pos = Ok search
                    /\ k = i + Z.of_nat (S j) + add).
    { intros k. rewrite Hin. split; intros (j & it & Hj & Hg & ->);
        exists j, it; repeat split; try assumption; lia. }
    destruct (eqb x search) eqn:E.
    + apply eqb_eq in E. subst x. repeat split.
      * constructor; [lia | exact Hlow'].
      * constructor; [exact Hs|].
        eapply Forall_impl; [|exact Hlow]. cbn. intros; lia.
      * intros [<- | Hk].
        -- exists 0%nat, item. repeat split; [exact Hx | lia].
        -- apply Hlater in Hk. destruct Hk as (j & it & Hk).
           now exists (S j), it.
      * intros ([|j] & it & Hj & Hg & ->).
        -- left. lia.
        -- right. apply Hlater. now exists j, it.
    + repeat split; try assumption.
      * intros Hk. apply Hlater in Hk. destruct Hk as (j & it & Hk).
        now exists (S j), it.
      * intros ([|j] & it & Hj & Hg & ->).
        -- exfalso. cbn in Hj. injection Hj as <-.
           rewrite Hg in Hx. injection Hx as <-.
           assert (eqb search search = true) by now apply eqb_eq.
           congruence.
        -- apply Hlater. now exists j, it.
Qed.

Lemma search_from_returns (L : list (list A)) (pos : Z) (search : A)
  (add i : Z) :
  (exists found, search_from A eqb i L pos search add = Ok found)
  <-> Forall (fun item => exists x, getitem A item pos = Ok x) L.
Proof.
  revert i; induction L as [|item L IH]; intros i.
  - split; [constructor | now exists []].
  - cbn [search_from]. split.
    + intros (found & H).
      destruct (getitem A item pos) as [x|] eqn:Hx; [|discriminate].
      cbn [bind] in H.
      destruct (search_from A eqb (i + 1) L pos search add) as [rest|] eqn:Hr;
        [|discriminate].
      constructor; [now exists x|]. apply (IH (i + 1)). now exists rest.
    + intros H. inversion H as [|it l (x & Hx) Hrest]; subst.
      rewrite Hx. cbn [bind].
      apply (IH (i + 1)) in Hrest. destruct Hrest as (rest & ->).
      cbn [bind]. now eexists.
Qed.

(** X26. [search_in_list_of_tuples] returns a list exactly if every
    tuple has the position; the list then holds, in ascending order, the
    indices (with [add] added) of the tuples that hold the value at the
    position, and nothing else. *)
Theorem search_finds_the_positions (L : list (list A)) (pos : Z)
  (search : A) (add : Z) :
  ((exists found, search_in_list_of_tuples A eqb L pos search add = Ok found)
   <-> Forall (fun item => exists x, getitem A item pos = Ok x) L)
  /\ forall found,
       search_in_list_of_tuples A eqb L pos search add = Ok found ->
       StronglySorted Z.lt found
       /\ forall k, In k found
                    <-> exists (j : nat) item,
                          nth_error L j = Some item
                          /\ getitem A item pos = Ok search
                          /\ k = Z.of_nat j + add.
Proof.
  split; [apply search_from_returns|].
  intros found H. destruct (search_from_spec _ _ _ _ _ _ H) as (_ & Hs & Hin).
  split; [exact Hs|]. intros k. rewrite Hin.
  split; intros (j & it & Hj & Hg & ->); exists j, it;
    repeat split; try assumption; lia.
Qed.

End Tuples.

Lemma search_finds_the_positions_witness :
  search_in_list_of_tuples Z Z.eqb [[1; 7]; [2; 8]; [3; 7]] (-1) 7 10
  = Ok [10; 12]
  /\ StronglySorted Z.lt [10; 12]
  /\ search_in_list_of_tuples Z Z.eqb [[1; 7]; [2]] 1 7 0 = Raise IndexError.
Proof.
  assert (H : search_in_list_of_tuples Z Z.eqb [[1; 7]; [2; 8]; [3; 7]]
                (-1) 7 10 = Ok [10; 12]) by reflexivity.
  split; [exact H|]. split; [|reflexivity].
  destruct (search_finds_the_positions Z Z.eqb Z.eqb_eq
              [[1; 7]; [2; 8]; [3; 7]] (-1) 7 10) as [_ Hspec].
  exact (proj1 (Hspec _ H)).
Defined.

Section Dictionaries.

Variable V : Type.

Lemma lookup_In (D : dict V) (k : Z) (v : V) :
  NoDup (map fst D) -> (In (k, v) D <-> lookup V D k = Ok v).
Proof.
  induction D as [|[k' v'] D IH]; intros Hnd; cbn [lookup In].
  - split; [contradiction | discriminate].
  - cbn [map fst] in Hnd. inversion Hnd as [|x l Hnotin Hnd']; subst.
    destruct (Z.eqb_spec k' k) as [-> | Hne].
    + split.
      * intros [H | H]; [now injection H as <- | ].
        exfalso. apply Hnotin. apply in_map_iff. now exists (k, v).
      * intros H; injection H as <-. now left.
    + rewrite <- (IH Hnd'). split.
      * intros [H | H]; [injection H as E _; contradiction | exact H].
      * intros H. now right.
Qed.

Lemma comprehension_items (D : dict V) (keys : list Z) :
  (forall k, In k keys -> In k (map fst D)) ->
  exists items,
    comprehension V D keys = Ok items
    /\ map fst items = keys
    /\ forall k v, In (k, v) items -> lookup V D k = Ok v.
Proof.
  induction keys as [|k keys IH]; intros Hsub.
  - exists []. repeat split. intros k v [].
  - destruct IH as (items & Hc & Hk & Hv);
      [intros; apply Hsub; now right|].
    assert (Hl : exists v, lookup V D k = Ok v).
    { specialize (Hsub k (or_introl eq_refl)). clear -Hsub.
      induction D as [|[k' v'] D IH]; [contradiction|].
      cbn [lookup]. destruct (Z.eqb_spec k' k); [now eexists|].
      apply IH. destruct Hsub as [E | H]; [cbn in E; contradiction | exact H]. }
    destruct Hl as (v & Hl). exists ((k, v) :: items).
    cbn [comprehension]. rewrite Hl, Hc. cbn [bind map fst].
    rewrite Hk. repeat split.
    intros k0 v0 [H | H]; [now injection H as <- <- | now apply Hv].
Qed.

(** X27. [sort_dict] returns a dictionary of the same items whose keys
    ascend; every key is looked up as before. *)
Theorem sort_dict_sorts_the_keys (D : dict V) :
  NoDup (map fst D) ->
  exists D',
    sort_dict V D = Ok D'
    /\ StronglySorted Z.lt (map fst D')
    /\ Permutation D D'
    /\ forall k, lookup V D' k = lookup V D k.
Proof.
  intros Hnd. unfold sort_dict.
  pose proof (sorted_perm (map fst D)) as Hperm.
  destruct (comprehension_items D (Sections.sorted (map fst D)))
    as (D' & Hc & Hk & Hv).
  { intros k Hk. eapply Permutation_in; [exact Hperm | exact Hk]. }
  assert (Hnd' : NoDup (map fst D')).
  { rewrite Hk. eapply Permutation_NoDup; [symmetry; exact Hperm | exact Hnd]. }
  assert (Hitems : forall kv, In kv D <-> In kv D').
  { intros [k v]. rewrite (lookup_In D k v Hnd). split.
    - intros Hl.
      assert (Hin : In k (map fst D')).
      { rewrite Hk. eapply Permutation_in; [symmetry; exact Hperm|].
        apply in_map_iff. exists (k, v). split; [reflexivity|].
        now apply lookup_In. }
      apply in_map_iff in Hin. destruct Hin as ([k0 v0] & E & Hin).
      cbn in E. subst k0. rewrite (Hv _ _ Hin) in Hl.
      now injection Hl as <-.
    - apply Hv. }
  exists D'. split; [exact Hc|]. split; [|split].
  - rewrite Hk. pose proof (sorted_sorted (map fst D)) as Hs.
    rewrite <- Hk in Hs |- *. clear -Hs Hnd'.
    induction (map fst D') as [|x l IH]; [constructor|].
    inversion Hs as [|a b Hs' Hall]; subst.
    inversion Hnd' as [|a b Hx Hn]; subst.
    constructor; [now apply IH|].
    rewrite Forall_forall in *. intros y Hy. specialize (Hall y Hy).
    assert (x <> y) by (intros ->; contradiction). lia.
  - apply NoDup_Permutation; try assumption.
    + eapply NoDup_map_inv. exact Hnd.
    + eapply NoDup_map_inv. exact Hnd'.
  - intros k. destruct (lookup V D k) as [v|e] eqn:E.
    + apply lookup_In; [exact Hnd'|]. apply Hitems. now apply lookup_In.
    + destruct (lookup V D' k) as [v|e'] eqn:E'.
      * apply lookup_In in E'; [|exact Hnd']. apply Hitems in E'.
        apply lookup_In in E'; [|exact Hnd]. congruence.
      * clear -E E'.
        assert (G : forall (X : dict V) e0, lookup V X k = Raise e0
                                            -> e0 = KeyError).
        { induction X as [|[k' v'] X IH]; cbn; intros e0 H0;
            [congruence|].
          destruct (k' =? k); [discriminate | now apply IH]. }
        rewrite (G _ _ E), (G _ _ E'). reflexivity.
Qed.

End Dictionaries.

Lemma sort_dict_sorts_the_keys_witness :
  exists D',
    sort_dict string [(3, "c"); (1, "a"); (2, "b")]%string = Ok D'
    /\ D' = [(1, "a"); (2, "b"); (3, "c")]%string
    /\ StronglySorted Z.lt (map fst D').
Proof.
  destruct (sort_dict_sorts_the_keys string
              [(3, "c"); (1, "a"); (2, "b")]%string) as (D' & H1 & H2 & _).
  - repeat constructor; cbn; intuition lia.
  - exists D'. split; [exact H1|]. split; [|exact H2].
    cbn in H1. now injection H1 as <-.
Defined.

End HelpersFacts.

(** ** Facts about the columns [octaves] and [pcs] *)

Module ColumnsFacts.
Import PyNum Series GetNotes GetNotesFacts Helpers Columns.

Lemma cell_of_found (k : string) (cs more : list (string * cell)) (v : cell) :
  cell_of k cs = Ok v -> cell_of k (cs ++ more) = Ok v.
Proof.
  induction cs as [|[k' v'] cs IH]; [discriminate|].
  cbn [cell_of app]. destruct (String.eqb k' k); [auto | exact IH].
Qed.

Lemma cell_of_missing (k : string) (cs : list (string * cell)) (e : exn) :
  cell_of k cs = Raise e ->
  forall k' v,
    cell_of k (cs ++ [(k', v)])
    = if String.eqb k' k then Ok v else Raise KeyError.
Proof.
  induction cs as [|[k0 v0] cs IH]; intros H k' v.
  - reflexivity.
  - cbn [cell_of app] in *. destruct (String.eqb k0 k); [discriminate|].
    now apply IH.
Qed.

Lemma add_column_rows (name source : string) (f : cell -> cell)
  (df df' : frame) (P Q : df_row -> Prop) :
  (forall r, P r ->
     Q (mk_df_row (row_key r) (row_ix r)
          (cells r ++ [(name, match cell_of source (cells r) with
                              | Ok c => f c
                              | Raise _ => NaN
                              end)]))) ->
  Forall P (body df) ->
  add_column name source f df = Ok df' -> Forall Q (body df').
Proof.
  intros Hstep HP. unfold add_column.
  destruct (Features.mem_string source (columns df)); [|discriminate].
  intros H; injection H as <-. cbn [body].
  induction HP as [|r rows Hr _ IH]; cbn [map]; constructor; auto.
Qed.

Section Columns.

Variable beat_label : Q -> num -> cell.

(** X28. Where the columns [octaves] and [pcs] are asked for, every
    row holds the octave and the pitch class of its pitch, and the two
    give the pitch back: it is 12 times the octave plus one, plus the
    pitch class, which lies between 0 and 11. *)
Theorem octaves_and_pcs_recompose_midi (S : score) (keys : list key)
  (beatsize : beatsize_arg) (features : list (string * bool)) (df : frame) :
  active features "octaves" = true -> active features "pcs" = true ->
  add_features beat_label S beatsize features (concat_notes S keys) = Ok df ->
  Forall decomposed (body df)
  /\ forall m, m = 12 * (midi2octave m + 1) + m mod 12 /\ 0 <= m mod 12 < 12.
Proof.
  intros Ho Hp H. split.
  2:{ intros m. unfold midi2octave.
      pose proof (Z.div_mod m 12 ltac:(lia)).
      pose proof (Z.mod_pos_bound m 12 ltac:(lia)). lia. }
  unfold add_features in H. rewrite Ho, Hp in H.
  set (P0 := fun r : df_row =>
               exists m, cell_of "midi" (cells r) = Ok (Num (Int m))
                         /\ cell_of "octaves" (cells r) = Raise KeyError
                         /\ cell_of "pcs" (cells r) = Raise KeyError).
  set (P1 := fun r : df_row =>
               exists m, cell_of "midi" (cells r) = Ok (Num (Int m))
                         /\ cell_of "octaves" (cells r)
                            = Ok (Num (Int (midi2octave m)))
                         /\ cell_of "pcs" (cells r) = Raise KeyError).
  assert (H0 : Forall P0 (body (concat_notes S keys))).
  { unfold concat_notes. cbn [body]. apply Forall_forall. intros r Hr.
    apply in_flat_map in Hr. destruct Hr as (k & _ & Hr).
    apply in_map_iff in Hr. destruct Hr as (ir & <- & _).
    exists (Walker.midi (snd ir)). cbn [cells].
    destruct (with_articulation S); repeat split. }
  destruct (add_column "octaves" "midi" octave_cell (concat_notes S keys))
    as [d1|] eqn:E1; [|discriminate].
  cbn [bind] in H.
  assert (H1 : Forall P1 (body d1)).
  { eapply (add_column_rows _ _ _ _ _ P0 P1); [|exact H0 | exact E1].
    intros r (m & Hm & Hoct & Hpcs). exists m. cbn [cells].
    rewrite Hm. repeat split.
    - now apply cell_of_found.
    - now rewrite (cell_of_missing _ _ _ Hoct).
    - now rewrite (cell_of_missing _ _ _ Hpcs). }
  assert (Hkeep : forall name v r, name <> "pcs"%string -> P1 r ->
            P1 (mk_df_row (row_key r) (row_ix r) (cells r ++ [(name, v)]))).
  { intros name v r Hname (m & Hm & Hoct & Hpcs). exists m. cbn [cells].
    repeat split; try now apply cell_of_found.
    rewrite (cell_of_missing _ _ _ Hpcs).
    destruct (String.eqb_spec name "pcs"); [contradiction | reflexivity]. }
  assert (H2 : exists d2,
             (if active features "note_names"
              then add_column "note_names" "tpc" name_cell d1 else Ok d1)
             = Ok d2 /\ Forall P1 (body d2)).
  { destruct (active features "note_names"); [|now exists d1].
    destruct (add_column "note_names" "tpc" name_cell d1) as [d2|] eqn:E2;
      [|discriminate].
    exists d2. split; [reflexivity|].
    eapply (add_column_rows _ _ _ _ _ P1 P1); [|exact H1 | exact E2].
    intros r Hr. apply Hkeep; [discriminate | exact Hr]. }
  destruct H2 as (d2 & E2 & H2). rewrite E2 in H. cbn [bind] in H.
  assert (H3 : exists d3,
             (if active features "beats"
              then beats_column beat_label S beatsize d2 else Ok d2)
             = Ok d3 /\ Forall P1 (body d3)).
  { destruct (active features "beats"); [|now exists d2].
    destruct (beats_column beat_label S beatsize d2) as [d3|] eqn:E3;
      [|discriminate].
    exists d3. split; [reflexivity|].
    unfold beats_column in E3. destruct (beatsizedict beatsize);
      [|discriminate].
    cbn [bind] in E3. injection E3 as <-. cbn [body].
    clear -H2 Hkeep. induction H2 as [|r rows Hr _ IH]; cbn [map];
      constructor; [|exact IH].
    apply Hkeep; [discriminate | exact Hr]. }
  destruct H3 as (d3 & E3 & H3). rewrite E3 in H. cbn [bind] in H.
  destruct (add_column "pcs" "midi" pc_cell d3) as [d4|] eqn:E4;
    [|discriminate].
  cbn [bind] in H.
  assert (H4 : Forall decomposed (body d4)).
  { eapply (add_column_rows _ _ _ _ _ P1 decomposed); [|exact H3 | exact E4].
    intros r (m & Hm & Hoct & Hpcs). exists m. cbn [cells].
    rewrite Hm. repeat split; try now apply cell_of_found.
    now rewrite (cell_of_missing _ _ _ Hpcs). }
  injection H as <-. destruct (active features "n"); [|exact H4].
  unfold n_column. cbn [body]. clear -H4.
  induction H4 as [|r rows (m & Hm & Hoct & Hpcs) _ IH]; cbn [map];
    constructor; [|exact IH].
  exists m. cbn [cells cell_of]. cbn. repeat split; assumption.
Qed.

End Columns.

Lemma octaves_and_pcs_recompose_midi_witness :
  exists df,
    add_features unlabelled three_sections BNone
      [("octaves"%string, true); ("pcs"%string, true)]
      (concat_notes three_sections [(0, None)]) = Ok df
    /\ Forall decomposed (body df)
    /\ map (fun r => cell_of "octaves" (cells r)) (body df)
       = [Ok (Num (Int 4))].
Proof.
  eexists. split; [reflexivity|].
  split; [|reflexivity].
  exact (proj1 (octaves_and_pcs_recompose_midi unlabelled three_sections
                  [(0, None)] BNone
                  [("octaves"%string, true); ("pcs"%string, true)] _
                  eq_refl eq_refl eq_refl)).
Defined.

End ColumnsFacts.

(** ** Facts about [convert_timesig] *)

Module TimeSigsFacts.
Import TimeSigs.

Lemma convert_list (l : list argument) :
  convert_timesig (Tags l) = (results <~ convert_all l ;; agree results).
Proof.
  cbn [convert_timesig]. reflexivity.
Qed.

Lemma nodup_single (x : option string) (l : list (option string)) :
  nodup value_eq_dec l = [x] <-> l <> [] /\ Forall (eq x) l.
Proof.
  induction l as [|y l IH]; cbn [nodup].
  - split; [discriminate | intros [H _]; now elim H].
  - destruct (in_dec value_eq_dec y l) as [Hin | Hout].
    + rewrite IH. split.
      * intros [Hne Hall]. split; [discriminate|].
        constructor; [|exact Hall]. rewrite Forall_forall in Hall.
        now apply Hall.
      * intros [_ Hall]. inversion Hall; subst.
        split; [|assumption]. intros ->. contradiction.
    + split.
      * intros H. injection H as -> Hnil.
        assert (l = []).
        { destruct l as [|z l]; [reflexivity|]. exfalso.
          assert (Hz : In z (nodup value_eq_dec (z :: l)))
            by (apply nodup_In; now left).
          now rewrite Hnil in Hz. }
        subst. split; [discriminate | now repeat constructor].
      * intros [_ Hall]. inversion Hall as [|a b -> Hrest]; subst.
        destruct l as [|z l]; [reflexivity|]. exfalso.
        inversion Hrest; subst. apply Hout. now left.
Qed.

Lemma agree_some (results : list (option string)) (s : string) (l : log) :
  agree results = (Ok (Some s), l)
  <-> l = [] /\ results <> [] /\ Forall (eq (Some s)) results.
Proof.
  unfold agree. split.
  - destruct (nodup value_eq_dec results) as [|r [|r' rest]] eqn:E;
      try discriminate.
    intros H. injection H as -> <-. split; [reflexivity|].
    now apply nodup_single.
  - intros (-> & H). apply nodup_single in H. now rewrite H.
Qed.

Lemma convert_all_results (members : list argument)
  (results : list (option string)) (l : log) :
  convert_all members = (Ok results, l) ->
  Forall2 (fun a r => exists la, convert_timesig a = (Ok r, la))
          members results.
Proof.
  revert results l; induction members as [|a members IH];
    intros results l H.
  - injection H as <- _. constructor.
  - cbn [convert_all] in H.
    destruct (convert_timesig a) as [[r|] la] eqn:Ha; cbn [mbind] in H;
      [|discriminate].
    destruct (convert_all members) as [[rs|] lr] eqn:Hr; cbn [mbind] in H;
      [|discriminate].
    injection H as <- _. constructor; [now exists la | eapply IH; eauto].
Qed.

Lemma convert_all_same (members : list argument) (s : string) :
  Forall (fun a => exists la, convert_timesig a = (Ok (Some s), la)) members ->
  exists l, convert_all members = (Ok (map (fun _ => Some s) members), l).
Proof.
  induction 1 as [|a members (la & Ha) _ (l & IH)]; [now exists []|].
  cbn [convert_all map]. rewrite Ha. cbn [mbind]. rewrite IH.
  unfold ret. cbn [mbind]. now eexists.
Qed.

(** X29. [convert_timesig] gives a time signature for a list exactly
    if the list is not empty and every member gives this time
    signature. *)
Theorem list_gives_the_common_signature (members : list argument)
  (s : string) :
  (exists l, convert_timesig (Tags members) = (Ok (Some s), l))
  <-> members <> []
      /\ Forall (fun a => exists la, convert_timesig a = (Ok (Some s), la))
                members.
Proof.
  rewrite convert_list. split.
  - intros (l & H).
    destruct (convert_all members) as [[results|] l1] eqn:Hc;
      cbn [mbind] in H; [|discriminate].
    destruct (agree results) as [[r|] l2] eqn:Ha; [|discriminate].
    injection H as -> _.
    apply agree_some in Ha. destruct Ha as (_ & Hne & Hres).
    apply convert_all_results in Hc. split.
    + intros ->. inversion Hc; subst. now elim Hne.
    + clear Hne. induction Hc as [|a r members rs (la & Ha) _ IH];
        [constructor|].
      inversion Hres; subst. constructor; [now exists la | now apply IH].
  - intros [Hne Hall]. destruct (convert_all_same _ _ Hall) as (l & ->).
    cbn [mbind].
    assert (E : agree (map (fun _ => Some s) members) = (Ok (Some s), [])).
    { apply agree_some. split; [reflexivity|]. split.
      - destruct members; [now elim Hne | discriminate].
      - apply Forall_forall. intros x Hx. apply in_map_iff in Hx.
        now destruct Hx as (a & <- & _). }
    rewrite E. now eexists.
Qed.

Example convert_timesig_of_lists :
  convert_timesig
    (Tags [Tag (TimeSig (Some "3") (Some "4"));
           Tag (Element (Some (Some "3", Some "4")))])%string
  = (Ok (Some "3/4"%string), [])
  /\ convert_timesig
       (Tags [Tag (TimeSig (Some "3") (Some "4"));
              Tag (TimeSig (Some "4") (Some "4"))])%string
     = (Ok None,
        [(ERROR, "List contains two different time signatures."%string)])
  /\ convert_timesig (Tags [])
     = (Ok None,
        [(ERROR, "List of timesignatures did not yield any result."%string)])
  /\ convert_timesig (Tags [Tag (Element None)]) = (Raise ValueError, []).
Proof. repeat split. Qed.

End TimeSigsFacts.

(** ** Facts about [get_measure_infos] *)

Module MeasureInfosFacts.
Import Features MeasureInfos.

Lemma item_update_same {A : Type} (d : list (string * A)) (k : string) (v : A) :
  GetNotes.item (GetNotes.update d k v) k = Some v.
Proof.
  induction d as [|[k' v'] d IH]; cbn.
  - now rewrite String.eqb_refl.
  - destruct (String.eqb k' k) eqn:E; cbn; rewrite E; [reflexivity | exact IH].
Qed.

Lemma item_update_other {A : Type} (d : list (string * A)) (k k' : string)
  (v : A) :
  k <> k' -> GetNotes.item (GetNotes.update d k v) k' = GetNotes.item d k'.
Proof.
  intros Hne. induction d as [|[k0 v0] d IH]; cbn.
  - destruct (String.eqb_spec k k'); [contradiction | reflexivity].
  - destruct (String.eqb_spec k0 k) as [-> | Hk]; cbn.
    + destruct (String.eqb_spec k k'); [contradiction | reflexivity].
    + destruct (String.eqb k0 k'); [reflexivity | exact IH].
Qed.


Lemma append_group (infos : list (string * list node)) (name k : string)
  (nd : node) :
  group (append infos name nd) k
  = if String.eqb name k then group infos k ++ [nd] else group infos k.
Proof.
  induction infos as [|[k0 nodes] infos IH]; cbn [append group].
  - destruct (String.eqb name k); reflexivity.
  - destruct (String.eqb_spec k0 name) as [-> | Hne]; cbn [group].
    + destruct (String.eqb name k); reflexivity.
    + rewrite IH. destruct (String.eqb_spec k0 k) as [-> | Hk];
        [|reflexivity].
      destruct (String.eqb_spec name k); [congruence | reflexivity].
Qed.

Lemma append_keys (infos : list (string * list node)) (name : string)
  (nd : node) :
  NoDup (map fst infos) ->
  NoDup (map fst (append infos name nd))
  /\ (forall k, In k (map fst (append infos name nd))
                <-> k = name \/ In k (map fst infos)).
Proof.
  induction infos as [|[k0 nodes] infos IH]; intros Hnd; cbn [append].
  - split; [repeat constructor; intros [] | cbn; intuition].
  - inversion Hnd as [|x l Hx Hnd']; subst.
    destruct (String.eqb_spec k0 name) as [-> | Hne]; cbn [map fst].
    + split; [exact Hnd | cbn; intuition].
    + destruct (IH Hnd') as [H1 H2]. split.
      * constructor; [|exact H1]. rewrite H2. intros [-> | H];
          [congruence | contradiction].
      * intros k. cbn [In]. rewrite H2. cbn [map fst In]. intuition.
Qed.

Lemma append_nonempty (infos : list (string * list node)) (name : string)
  (nd : node) :
  Forall (fun e => snd e <> []) infos ->
  Forall (fun e => snd e <> []) (append infos name nd).
Proof.
  induction 1 as [|[k0 nodes] infos Hn Hl IH]; cbn [append].
  - repeat constructor. discriminate.
  - destruct (String.eqb k0 name).
    + constructor; [|assumption]. cbn [snd]. intros E.
      apply app_eq_nil in E. destruct E as [_ E]. discriminate.
    + constructor; assumption.
Qed.

Lemma gather_from (tags : list (string * node))
  (acc : list (string * list node)) :
  NoDup (map fst acc) -> Forall (fun e => snd e <> []) acc ->
  let infos := fold_left (fun infos t => append infos (fst t) (snd t))
                         tags acc in
  NoDup (map fst infos)
  /\ Forall (fun e => snd e <> []) infos
  /\ (forall k, In k (map fst infos)
                <-> In k (map fst tags) \/ In k (map fst acc))
  /\ forall k, group infos k
               = group acc k
                 ++ map snd (filter (fun t => String.eqb (fst t) k) tags).
Proof.
  revert acc; induction tags as [|[name nd] tags IH]; intros acc Hnd Hne;
    cbn [fold_left].
  - repeat split; try assumption.
    + now right.
    + intros [[] | H]; exact H.
    + intros k. now rewrite app_nil_r.
  - cbn [fst snd].
    destruct (append_keys acc name nd Hnd) as [Hnd' Hkeys].
    destruct (IH (append acc name nd) Hnd' (append_nonempty _ _ _ Hne))
      as (H1 & H2 & H3 & H4).
    cbv zeta in *. repeat split; try assumption.
    + intros H. apply H3 in H. rewrite Hkeys in H. cbn [map fst In].
      intuition.
    + intros H. apply H3. rewrite Hkeys. cbn [map fst In] in H. intuition.
    + intros k. rewrite H4, append_group. cbn [filter fst].
      destruct (String.eqb name k); cbn [map snd app];
        [now rewrite <- app_assoc | reflexivity].
Qed.

Lemma gather_spec (tags : list (string * node)) :
  NoDup (map fst (gather tags))
  /\ Forall (fun e => snd e <> []) (gather tags)
  /\ (forall k, In k (map fst (gather tags)) <-> In k (map fst tags))
  /\ forall k, group (gather tags) k
               = map snd (filter (fun t => String.eqb (fst t) k) tags).
Proof.
  destruct (gather_from tags [] (NoDup_nil _) (Forall_nil _))
    as (H1 & H2 & H3 & H4).
  repeat split; try assumption.
  - intros H. apply H3 in H. destruct H as [H | []]. exact H.
  - intros H. apply H3. now left.
Qed.

Lemma section_break_group (tags : list (string * node)) :
  section_break tags
  = match map snd (filter (fun t => String.eqb (fst t) "LayoutBreak") tags)
    with
    | nd :: _ => is_section nd
    | [] => false
    end.
Proof.
  induction tags as [|[name nd] tags IH]; [reflexivity|].
  cbn [section_break filter fst]. destruct (String.eqb name "LayoutBreak");
    [reflexivity | exact IH].
Qed.

Lemma group_absent (infos : list (string * list node)) (k : string) :
  ~ In k (map fst infos) -> group infos k = [].
Proof.
  induction infos as [|[k0 nodes] infos IH]; intros H; [reflexivity|].
  cbn [group]. destruct (String.eqb_spec k0 k) as [-> | Hne].
  - exfalso. apply H. now left.
  - apply IH. intros Hin. apply H. now right.
Qed.

Lemma column_of_other_tags (tag col : string) :
  GetNotes.item tag_to_col tag = Some col ->
  repeat_sign tag = false -> String.eqb tag "LayoutBreak" = false ->
  col <> "repeats"%string.
Proof.
  unfold tag_to_col, repeat_sign. cbn [GetNotes.item].
  intros H Hr Hl. apply orb_false_iff in Hr. destruct Hr as [Hs He].
  rewrite String.eqb_sym in Hs, He, Hl.
  rewrite Hs, He, Hl in H.
  repeat match type of H with
         | (if ?c then _ else _) = _ => destruct c
         end; try discriminate; injection H as <-; discriminate.
Qed.

Lemma column_of_repeat_signs (tag : string) :
  repeat_sign tag = true ->
  GetNotes.item tag_to_col tag = Some "repeats"%string.
Proof.
  unfold repeat_sign. intros H. apply orb_true_iff in H.
  destruct H as [H | H]; apply String.eqb_eq in H; subst; reflexivity.
Qed.

Lemma feature_of_repeat_signs (tag : string) (nodes : list node) :
  repeat_sign tag = true -> nodes <> [] ->
  exists l, feature_from_node tag nodes = (Ok (FStr tag), l).
Proof.
  unfold repeat_sign. intros H Hne. destruct nodes as [|nd others];
    [now elim Hne|].
  apply orb_true_iff in H.
  destruct H as [H | H]; apply String.eqb_eq in H; subst; cbn;
    now eexists.
Qed.

Lemma treat_spec (infos : list (string * list node))
  (mc_info info : list (string * value)) (flag flag' : bool) (l : log) :
  NoDup (map fst infos) -> Forall (fun e => snd e <> []) infos ->
  treat infos mc_info flag = (Ok (info, flag'), l) ->
  flag' = (flag || match group infos "LayoutBreak" with
                   | nd :: _ => is_section nd
                   | [] => false
                   end)
  /\ (existsb repeat_sign (map fst infos) = false ->
      GetNotes.item info "repeats" = GetNotes.item mc_info "repeats")
  /\ (existsb repeat_sign (map fst infos) = true ->
      exists name, In name (map fst infos) /\ repeat_sign name = true
                   /\ GetNotes.item info "repeats"
                      = Some (Feature (FStr name))).
Proof.
  revert mc_info flag l.
  induction infos as [|[tag nodes] infos IH]; intros mc_info flag l Hnd Hne H.
  - injection H as <- <- _. cbn. rewrite orb_false_r.
    split; [reflexivity|]. split; [reflexivity | discriminate].
  - inversion Hnd as [|x xs Hx Hnd']; subst.
    inversion Hne as [|x xs Hn Hne']; subst. cbn [snd] in Hn.
    cbn [treat] in H. cbn [map fst existsb group].
    destruct (String.eqb_spec tag "LayoutBreak") as [-> | Hlb];
      cbn [negb] in H.
    + destruct nodes as [|nd others]; [now elim Hn|].
      destruct (IH _ _ _ Hnd' Hne' H) as (Hf & Hno & Hyes).
      rewrite (group_absent infos "LayoutBreak" Hx) in Hf.
      rewrite orb_false_r in Hf. fold (is_section nd) in Hf.
      cbn [orb repeat_sign String.eqb]. repeat split.
      * rewrite Hf. destruct (is_section nd), flag; reflexivity.
      * exact Hno.
      * intros Hex. destruct (Hyes Hex) as (name & Hin & Hr & Hi).
        exists name. repeat split; try assumption. now right.
    + destruct (GetNotes.item tag_to_col tag) as [col|] eqn:Hcol;
        unfold ret, raise in H; cbn [mbind] in H; [|discriminate].
      destruct (feature_from_node tag nodes) as [[f|] lf] eqn:Hfeat;
        cbn [mbind] in H; [|discriminate].
      destruct (treat infos _ flag) as [[[info1 flag1]|] lt] eqn:Ht;
        [|discriminate].
      injection H as <- <- _.
      destruct (IH _ _ _ Hnd' Hne' Ht) as (Hf & Hno & Hyes).
      split; [exact Hf|].
      destruct (repeat_sign tag) eqn:Hr; cbn [orb].
      * split; [discriminate|]. intros _.
        destruct (existsb repeat_sign (map fst infos)) eqn:Hex.
        -- destruct (Hyes eq_refl) as (name & Hin & Hrn & Hi).
           exists name. repeat split; try assumption. now right.
        -- exists tag. split; [now left|]. split; [exact Hr|].
           rewrite (Hno eq_refl).
           rewrite (column_of_repeat_signs tag Hr) in Hcol.
           injection Hcol as <-.
           destruct (feature_of_repeat_signs tag nodes Hr Hn) as (l0 & E).
           rewrite E in Hfeat. injection Hfeat as <- _.
           apply item_update_same.
      * split.
        -- intros Hex. rewrite (Hno Hex).
           apply item_update_other.
           apply (column_of_other_tags tag col Hcol Hr).
           now apply String.eqb_neq.
        -- intros Hex. destruct (Hyes Hex) as (name & Hin & Hrn & Hi).
           exists name. repeat split; try assumption. now right.
Qed.

(** X30. [get_measure_infos] leaves the flag [new_section] set
    exactly if the first [LayoutBreak] of the measure is a section
    break; a measure that is treated while the flag is set gets
    [newSection] in the column [repeats], unless it has a repeat sign,
    which the column then holds. *)
Theorem section_break_marks_the_next_measure (new_section : bool)
  (m : measure) (info : list (string * value)) (flag : bool) (l : log) :
  get_measure_infos new_section m = (Ok (info, flag), l) ->
  flag = section_break (tags m)
  /\ (existsb repeat_sign (map fst (tags m)) = false ->
      GetNotes.item info "repeats"
      = if new_section then Some (Feature (FStr "newSection")) else None)
  /\ (existsb repeat_sign (map fst (tags m)) = true ->
      exists name, In name (map fst (tags m)) /\ repeat_sign name = true
                   /\ GetNotes.item info "repeats"
                      = Some (Feature (FStr name))).
Proof.
  unfold get_measure_infos. intros H.
  destruct (gather_spec (tags m)) as (Hnd & Hne & Hkeys & Hgroup).
  destruct (treat_spec _ _ _ _ _ _ Hnd Hne H) as (Hf & Hno & Hyes).
  assert (Hex : existsb repeat_sign (map fst (gather (tags m)))
                = existsb repeat_sign (map fst (tags m))).
  { apply eq_true_iff_eq. rewrite !existsb_exists.
    split; intros (k & Hk & Hr); exists k; (split; [|exact Hr]);
      now apply Hkeys. }
  rewrite Hex in Hno, Hyes. split; [|split].
  - rewrite Hf, Hgroup, section_break_group. reflexivity.
  - intros E. rewrite (Hno E).
    destruct (len m); [rewrite item_update_other by discriminate|];
      now destruct new_section.
  - intros E. destruct (Hyes E) as (name & Hin & Hr & Hi).
    exists name. repeat split; try assumption. now apply Hkeys.
Qed.


Lemma section_break_marks_the_next_measure_witness :
  staff_infos false
    [mk_measure None [("voice"%string, a_node None);
                      ("LayoutBreak"%string, a_node (Some "section"%string))];
     mk_measure None [("voice"%string, a_node None)];
     mk_measure None [("startRepeat"%string, a_node None);
                      ("voice"%string, a_node None)]]
  = (Ok [[("voices"%string, Feature (FInt 1))];
         [("repeats"%string, Feature (FStr "newSection"));
          ("voices"%string, Feature (FInt 1))];
         [("repeats"%string, Feature (FStr "startRepeat"));
          ("voices"%string, Feature (FInt 1))]], [])
  /\ GetNotes.item [("repeats"%string, Feature (FStr "newSection"));
                    ("voices"%string, Feature (FInt 1))] "repeats"
     = Some (Feature (FStr "newSection")).
Proof.
  split; [reflexivity|].
  destruct (section_break_marks_the_next_measure true
              (mk_measure None [("voice"%string, a_node None)])
              [("repeats"%string, Feature (FStr "newSection"));
               ("voices"%string, Feature (FInt 1))] false [] eq_refl)
    as (_ & H & _).
  exact (H eq_refl).
Defined.

End MeasureInfosFacts.
